(** * regional_variants: classification and aggregation of variant alleles

    A shallow embedding of [regional_variants.py].  The script scans the
    variants of a tree sequence, decides for each non-ancestral allele how
    widely its carriers are spread over the regions of the world, and
    accumulates the answer in two SQL tables.

    - The tree sequence (tskit) is a record of its four tables; an object's
      id is its position in its table, as in tskit, and a lookup outside a
      table raises.  Metadata are the dictionaries that [json.loads] returns.
    - A variant carries one genotype per sample; [fill] takes the position
      of a genotype for the id of its node, which is right for the tree
      sequences it reads, whose samples are the nodes 0 .. n-1.
    - Python dictionaries that are only read by key are [gmap]s; the
      dictionary [individuals], whose values are iterated in insertion
      order, is an association list with in-place replacement.
    - The SQLite tables are lists of rows in insertion order.
    - A Python exception is the [Err] case of [result]; [fill] commits only
      when it reaches its end, so an exception leaves the stored tables as
      they were.
    - SQL INTEGER counters are unbounded integers here, and the REAL that
      AVG returns is the rational number it stands for. *)

From Stdlib Require Import ZArith QArith Sorted.
From Stdlib Require OrderedTypeEx.
From stdpp Require Import base option list gmap strings sets fin_maps.

Local Open Scope Z_scope.

(** ** Exceptions *)

Inductive exn : Type :=
| IndexError_nodes                 (* individual.nodes[0] *)
| IndexError_node                  (* ts.node(...) *)
| IndexError_population            (* ts.population(...) *)
| KeyError_name                    (* population_metadata['name'] *)
| UnboundLocalError_source         (* source read before assignment *)
| UnboundLocalError_individual_name
| KeyError_regions (source population_name : string)
                                   (* populations.regions[(source, population_name)] *)
| KeyError_individuals (name : string)
                                   (* individuals[row['name']] *)
| KeyError_individual_regions      (* individual_regions[id] *)
| KeyError_sql_ids                 (* sql_ids[id] *)
| IntegrityError (id : Z)          (* INSERT of an id already stored *)
| UnboundLocalError_vnum.          (* vnum read after a loop that never ran *)

Inductive result (A : Type) : Type :=
| Ok (a : A)
| Err (e : exn).
Arguments Ok {A} a.
Arguments Err {A} e.

Definition bind {A B : Type} (m : result A) (k : A → result B) : result B :=
  match m with
  | Ok a => k a
  | Err e => Err e
  end.

Notation "'let*' x := m 'in' k" := (bind m (fun x => k))
  (at level 10, x pattern, m at level 100, k at level 200).

Definition expect {A : Type} (e : exn) (o : option A) : result A :=
  match o with
  | Some a => Ok a
  | None => Err e
  end.

(** A [for] loop whose body may raise. *)
Fixpoint for_each {A S : Type} (body : S → A → result S) (l : list A) (s : S)
  : result S :=
  match l with
  | [] => Ok s
  | a :: l' => let* s' := body s a in for_each body l' s'
  end.

(** A list comprehension whose element expression may raise. *)
Fixpoint comprehension {A B : Type} (f : A → result B) (l : list A)
  : result (list B) :=
  match l with
  | [] => Ok []
  | a :: l' => let* b := f a in let* bs := comprehension f l' in Ok (b :: bs)
  end.

(** [enumerate(l)], counting from [i]. *)
Fixpoint enumerate_from {A : Type} (i : Z) (l : list A) : list (Z * A) :=
  match l with
  | [] => []
  | a :: l' => (i, a) :: enumerate_from (i + 1) l'
  end.

Definition enumerate {A : Type} (l : list A) : list (Z * A) := enumerate_from 0 l.

(** ** Insertion-ordered dictionaries *)

Section Dict.
Context {K V : Type} `{EqDecision K}.

Fixpoint dict_get (k : K) (d : list (K * V)) : option V :=
  match d with
  | [] => None
  | (k', v) :: d' => if decide (k = k') then Some v else dict_get k d'
  end.

(** [d[k] = v]: an existing key keeps its place, a new key goes last. *)
Fixpoint dict_set (k : K) (v : V) (d : list (K * V)) : list (K * V) :=
  match d with
  | [] => [(k, v)]
  | (k', v') :: d' =>
      if decide (k = k') then (k, v) :: d' else (k', v') :: dict_set k v d'
  end.

Definition dict_values (d : list (K * V)) : list V := d.*2.
End Dict.

(** ** The tree sequence *)

Record Node : Type := {
  node_population : Z;
  node_individual : Z
}.

Record Individual : Type := {
  individual_metadata : gmap string string;   (* json.loads(individual.metadata) *)
  individual_nodes : list Z
}.

Record Population : Type := {
  population_metadata : gmap string string    (* json.loads(population.metadata) *)
}.

Record Variant : Type := {
  alleles : list (option string);
  genotypes : list Z
}.

Record TreeSequence : Type := {
  ts_individuals : list Individual;
  ts_nodes : list Node;
  ts_populations : list Population;
  ts_variants : list Variant
}.

Definition table_get {A : Type} (tbl : list A) (i : Z) : option A :=
  if decide (i < 0) then None else tbl !! Z.to_nat i.

Definition node (ts : TreeSequence) (i : Z) : result Node :=
  expect IndexError_node (table_get (ts_nodes ts) i).

Definition population (ts : TreeSequence) (i : Z) : result Population :=
  expect IndexError_population (table_get (ts_populations ts) i).

(** ** The store *)

Record Row : Type := {
  row_id : Z;
  row_name : string;
  row_region : string;
  all_regions : Z;
  some_regions : Z;
  one_region : Z;
  one_person : Z
}.

Record Store : Type := {
  tbl_individual : list Row;              (* table individual *)
  tbl_num_regions : list (string * Z)     (* table num_regions: name, number *)
}.

Inductive Column : Type := AllRegions | SomeRegions | OneRegion | OnePerson.

Global Instance Column_eq_dec : EqDecision Column.
Proof. solve_decision. Defined.

Definition column_name (c : Column) : string :=
  match c with
  | AllRegions => "all_regions"
  | SomeRegions => "some_regions"
  | OneRegion => "one_region"
  | OnePerson => "one_person"
  end.

Definition counter (c : Column) (r : Row) : Z :=
  match c with
  | AllRegions => all_regions r
  | SomeRegions => some_regions r
  | OneRegion => one_region r
  | OnePerson => one_person r
  end.

(** [init]: an empty individual table and the four totals at zero. *)
Definition init : Store := {|
  tbl_individual := [];
  tbl_num_regions :=
    (λ c, (column_name c, 0)) <$> [AllRegions; SomeRegions; OneRegion; OnePerson]
|}.

(** SET column = column + 1 on one row. *)
Definition increment (c : Column) (r : Row) : Row :=
  match c with
  | AllRegions =>
      {| row_id := row_id r; row_name := row_name r; row_region := row_region r;
         all_regions := all_regions r + 1; some_regions := some_regions r;
         one_region := one_region r; one_person := one_person r |}
  | SomeRegions =>
      {| row_id := row_id r; row_name := row_name r; row_region := row_region r;
         all_regions := all_regions r; some_regions := some_regions r + 1;
         one_region := one_region r; one_person := one_person r |}
  | OneRegion =>
      {| row_id := row_id r; row_name := row_name r; row_region := row_region r;
         all_regions := all_regions r; some_regions := some_regions r;
         one_region := one_region r + 1; one_person := one_person r |}
  | OnePerson =>
      {| row_id := row_id r; row_name := row_name r; row_region := row_region r;
         all_regions := all_regions r; some_regions := some_regions r;
         one_region := one_region r; one_person := one_person r + 1 |}
  end.

(** UPDATE individual SET column = column + 1 WHERE id = ? *)
Definition update_individual (c : Column) (rows : list Row) (i : Z) : list Row :=
  (λ r, if decide (row_id r = i) then increment c r else r) <$> rows.

(** [executemany] of that statement over a list of ids. *)
Definition update_individuals (c : Column) (rows : list Row) (ids : list Z)
  : list Row :=
  foldl (update_individual c) rows ids.

(** UPDATE num_regions SET number = number + 1 WHERE name = ? *)
Definition update_num_regions (c : Column) (tbl : list (string * Z))
  : list (string * Z) :=
  (λ nk, if decide (nk.1 = column_name c) then (nk.1, nk.2 + 1) else nk) <$> tbl.

(** INSERT INTO individual (...) VALUES (?, ?, ?, 0, 0, 0, 0); [id] is the
    primary key. *)
Definition new_row (e : Z * string * string) : Row :=
  {| row_id := e.1.1; row_name := e.1.2; row_region := e.2;
     all_regions := 0; some_regions := 0; one_region := 0; one_person := 0 |}.

Definition insert_individual (rows : list Row) (e : Z * string * string)
  : result (list Row) :=
  if decide (e.1.1 ∈ row_id <$> rows) then Err (IntegrityError e.1.1)
  else Ok (rows ++ [new_row e]).

(** ** fill *)

(** The dictionary stored under each name in [individuals]. *)
Record Entry : Type := {
  entry_id : Z;
  entry_name : string;
  entry_region : string
}.

(** The local variables of [fill] that the loop over the individuals
    assigns.  [source] and [individual_name] are unbound until some
    individual's metadata binds them, and keep their value afterwards. *)
Record Locals : Type := {
  source : option string;
  individual_name : option string;
  individual_regions : gmap Z string;
  individuals : list (string * Entry)
}.

Definition locals0 : Locals := {|
  source := None;
  individual_name := None;
  individual_regions := ∅;
  individuals := []
|}.

(** The if/elif/elif on the keys of the metadata: the source and the name
    that the branch taken assigns, if one is taken. *)
Definition metadata_source (md : gmap string string) : option (string * string) :=
  match md !! "sgdp_id" with
  | Some v => Some ("SGDP", v)
  | None =>
      match md !! "sample" with
      | Some v => Some ("HGDP", v)
      | None =>
          match md !! "individual_id" with
          | Some v => Some ("TGP", v)
          | None => None
          end
      end
  end.

(** The values of [source] and [individual_name] after the if/elif/elif:
    there is no [else], so when none of the three keys is there the two
    variables stay as the previous iteration left them. *)
Definition dispatch (md : gmap string string) (st : Locals)
  : option string * option string :=
  match metadata_source md with
  | Some (src, nm) => (Some src, Some nm)
  | None => (source st, individual_name st)
  end.

Section Program.
(** [populations.regions], the table of the module [populations]. *)
Variable populations_regions : gmap (string * string) string.

(** [len(set(populations.regions.values()))] *)
Definition num_regions : nat :=
  size (list_to_set (map_to_list populations_regions).*2 : gset string).

(** The name of the population of the individual's first node. *)
Definition population_name_of (ts : TreeSequence) (ind : Individual)
  : result string :=
  let* n0 := expect IndexError_nodes (head (individual_nodes ind)) in
  let* nd := node ts n0 in
  let* pop := population ts (node_population nd) in
  expect KeyError_name (population_metadata pop !! "name").

(** One iteration of [for individual in ts.individuals()]. *)
Definition resolve_individual (ts : TreeSequence) (st : Locals)
    (x : Z * Individual) : result Locals :=
  let '(id, ind) := x in
  let '(src, nm) := dispatch (individual_metadata ind) st in
  let* population_name := population_name_of ts ind in
  let* src' := expect UnboundLocalError_source src in
  let* region :=
    expect (KeyError_regions src' population_name)
           (populations_regions !! (src', population_name)) in
  let* nm' := expect UnboundLocalError_individual_name nm in
  Ok {| source := src;
        individual_name := nm;
        individual_regions := <[id := region]> (individual_regions st);
        individuals :=
          dict_set nm' {| entry_id := id; entry_name := nm';
                          entry_region := region |} (individuals st) |}.

Definition resolve (ts : TreeSequence) : result Locals :=
  for_each (resolve_individual ts) (enumerate (ts_individuals ts)) locals0.

(** [{individuals[row['name']]['id']: row['id'] for row in rows}], one
    row at a time: a key met again takes the later value. *)
Definition sql_ids_step (inds : list (string * Entry)) (m : gmap Z Z)
    (row : Row) : result (gmap Z Z) :=
  let* e := expect (KeyError_individuals (row_name row))
                   (dict_get (row_name row) inds) in
  Ok (<[entry_id e := row_id row]> m).

Definition sql_ids_of_rows (inds : list (string * Entry)) (rows : list Row)
  : result (gmap Z Z) :=
  for_each (sql_ids_step inds) rows ∅.

(** [{i['id']: i['id'] for i in individuals.values()}] *)
Definition sql_ids_identity (inds : list (string * Entry)) : gmap Z Z :=
  foldl (λ m e, <[entry_id e := entry_id e]> m) ∅ (dict_values inds).

(** The SELECT of the stored individuals and the two branches of
    [if rows]. *)
Definition reconcile (inds : list (string * Entry)) (rows : list Row)
  : result (gmap Z Z * list Row) :=
  match rows with
  | _ :: _ =>
      let* sql_ids := sql_ids_of_rows inds rows in
      Ok (sql_ids, rows)
  | [] =>
      let sql_ids := sql_ids_identity inds in
      let entries :=
        (λ e, (entry_id e, entry_name e, entry_region e)) <$> dict_values inds in
      let* rows' := for_each insert_individual entries [] in
      Ok (sql_ids, rows')
  end.

(** [numpy.where(variant.genotypes == allele_index)[0]]: the positions of
    the genotype array that hold [allele_index]. *)
Definition where_eq (gs : list Z) (allele_index : Z) : list Z :=
  (filter (λ jg, jg.2 = allele_index) (enumerate gs)).*1.

(** The three lines that build [individual_ids]; the positions are used
    as node ids. *)
Definition individual_ids_of (ts : TreeSequence) (v : Variant)
    (allele_index : Z) : result (gset Z) :=
  let node_ids := where_eq (genotypes v) allele_index in
  let* full_nodes := comprehension (node ts) node_ids in
  Ok (list_to_set (node_individual <$> full_nodes)).

(** [set(individual_regions[id] for id in individual_ids)] *)
Definition regions_of (iregs : gmap Z string) (individual_ids : gset Z)
  : result (gset string) :=
  let* regs :=
    comprehension
      (λ id, expect KeyError_individual_regions (iregs !! id))
      (elements individual_ids) in
  Ok (list_to_set regs).

(** The choice of [column]. *)
Definition choose_column (iregs : gmap Z string) (individual_ids : gset Z)
  : result Column :=
  if decide (size individual_ids = 1%nat) then Ok OnePerson
  else
    let* regs := regions_of iregs individual_ids in
    let region_count := size regs in
    if decide (region_count = 1%nat) then Ok OneRegion
    else if decide (region_count < num_regions)%nat then Ok SomeRegions
    else Ok AllRegions.

(** [not allele] *)
Definition not_allele (allele : option string) : bool :=
  match allele with
  | None => true
  | Some a => bool_decide (a = "")
  end.

(** The body of [for allele_index, allele in enumerate(variant.alleles)]. *)
Definition process_allele (ts : TreeSequence) (iregs : gmap Z string)
    (sql_ids : gmap Z Z) (v : Variant) (db : Store) (x : Z * option string)
  : result Store :=
  let '(allele_index, allele) := x in
  if bool_decide (allele_index = 0) || not_allele allele then Ok db
  else
    let* individual_ids := individual_ids_of ts v allele_index in
    let* column := choose_column iregs individual_ids in
    let* ids :=
      comprehension (λ id, expect KeyError_sql_ids (sql_ids !! id))
                    (elements individual_ids) in
    Ok {| tbl_individual := update_individuals column (tbl_individual db) ids;
          tbl_num_regions := update_num_regions column (tbl_num_regions db) |}.

Definition process_variant (ts : TreeSequence) (iregs : gmap Z string)
    (sql_ids : gmap Z Z) (db : Store) (v : Variant) : result Store :=
  for_each (process_allele ts iregs sql_ids v) (enumerate (alleles v)) db.

(** [for vnum, variant in enumerate(ts.variants())] *)
Definition aggregate (ts : TreeSequence) (iregs : gmap Z string)
    (sql_ids : gmap Z Z) (db : Store) : result Store :=
  for_each (process_variant ts iregs sql_ids) (ts_variants ts) db.

(** [fill]: the store it returns is the one it commits. *)
Definition fill (database : Store) (ts : TreeSequence) : result Store :=
  let* st := resolve ts in
  let* (sql_ids, rows) := reconcile (individuals st) (tbl_individual database) in
  let* db :=
    aggregate ts (individual_regions st) sql_ids
      {| tbl_individual := rows;
         tbl_num_regions := tbl_num_regions database |} in
  (* the progress line after the loop reads vnum *)
  match ts_variants ts with
  | [] => Err UnboundLocalError_vnum
  | _ :: _ => Ok db
  end.
End Program.

(** ** fetch *)

(** The running state of the four AVG aggregates of one group. *)
Record Group : Type := {
  group_region : string;
  group_count : Z;
  sum_all_regions : Z;
  sum_some_regions : Z;
  sum_one_region : Z;
  sum_one_person : Z
}.

Definition group_new (r : Row) : Group := {|
  group_region := row_region r;
  group_count := 1;
  sum_all_regions := all_regions r;
  sum_some_regions := some_regions r;
  sum_one_region := one_region r;
  sum_one_person := one_person r
|}.

Definition group_step (g : Group) (r : Row) : Group := {|
  group_region := group_region g;
  group_count := group_count g + 1;
  sum_all_regions := sum_all_regions g + all_regions r;
  sum_some_regions := sum_some_regions g + some_regions r;
  sum_one_region := sum_one_region g + one_region r;
  sum_one_person := sum_one_person g + one_person r
|}.

(** GROUP BY region ORDER BY region: the groups are kept in ascending order
    of their region, compared byte by byte. *)
Fixpoint group_add (r : Row) (gs : list Group) : list Group :=
  match gs with
  | [] => [group_new r]
  | g :: gs' =>
      if decide (row_region r = group_region g) then group_step g r :: gs'
      else if String.ltb (row_region r) (group_region g)
           then group_new r :: g :: gs'
           else g :: group_add r gs'
  end.

Definition group_by_region (rows : list Row) : list Group :=
  foldl (λ gs r, group_add r gs) [] rows.

(** AVG: the sum of the group over its number of rows. *)
Definition avg (sum count : Z) : Q := Qred (sum # Z.to_pos count).

Record Average : Type := {
  avg_region : string;
  avg_all_regions : Q;
  avg_some_regions : Q;
  avg_one_region : Q;
  avg_one_person : Q
}.

Definition group_average (g : Group) : Average := {|
  avg_region := group_region g;
  avg_all_regions := avg (sum_all_regions g) (group_count g);
  avg_some_regions := avg (sum_some_regions g) (group_count g);
  avg_one_region := avg (sum_one_region g) (group_count g);
  avg_one_person := avg (sum_one_person g) (group_count g)
|}.

Definition fetch (database : Store) : list string * list Average :=
  (["All regions"; "Some regions"; "One region"; "One person"],
   group_average <$> group_by_region (tbl_individual database)).


(** ** draw: the two numbers of the legend *)

(** [SELECT COUNT( * ) FROM individual] *)
Definition individual_count (database : Store) : Z :=
  Z.of_nat (length (tbl_individual database)).

(** [SELECT SUM(number) FROM num_regions]: NULL, that is [None], for a table
    without rows. *)
Definition variant_count (database : Store) : option Z :=
  match tbl_num_regions database with
  | [] => None
  | tbl => Some (foldr Z.add 0 tbl.*2)
  end.

(** ** The driver *)

(** The choices of the [commands] argument. *)
Inductive Command : Type :=
  All | Init | Download | Extract | Fill | Delete | Draw.

#[global] Instance Command_eq_dec : EqDecision Command.
Proof. solve_decision. Defined.

(** ['all' in args.commands or c in args.commands]. *)
Definition selected (commands : list Command) (c : Command) : bool :=
  bool_decide (All ∈ commands) || bool_decide (c ∈ commands).

(** What a run of the driver does to the database.  [files] are the tree
    sequences that [tskit.load] returns for the chromosomes, in their order;
    [download], [extract] and [delete] act on the files on disk only, and
    [draw] reads the database.  Without [init] the database is taken to
    exist with its two tables. *)
Definition main (regions : gmap (string * string) string)
    (commands : list Command) (files : list TreeSequence) (database : Store)
  : result Store :=
  let database := if selected commands Init then init else database in
  for_each (λ db ts, if selected commands Fill then fill regions db ts else Ok db)
           files database.
(** * Auxiliary definitions *)

(** An allele takes part in the aggregation when it is not the first of
    its site and is neither absent nor empty. *)
Definition counted (x : Z * option string) : Prop :=
  x.1 ≠ 0 ∧ x.2 ≠ None ∧ x.2 ≠ Some "".

Global Instance counted_dec x : Decision (counted x).
Proof. unfold counted. apply _. Defined.

(** What holds of the local variables of [fill] once the loop over the
    individuals has dealt with those before [k]. *)
Record resolved (regions : gmap (string * string) string) (k : Z) (st : Locals)
  : Prop := {
  resolved_entries :
    ∀ n e, (n, e) ∈ individuals st →
      entry_name e = n ∧
      individual_regions st !! entry_id e = Some (entry_region e) ∧
      entry_id e < k;
  resolved_ids : NoDup (entry_id <$> (individuals st).*2);
  resolved_names : NoDup (individuals st).*1;
  resolved_regions :
    ∀ i r, individual_regions st !! i = Some r → ∃ key, regions !! key = Some r
}.

(** The name under which an individual is known when its metadata has one
    of the three keys. *)
Definition name_of (ind : Individual) : option string :=
  snd <$> metadata_source (individual_metadata ind).

(** The columns of a row that say who it is. *)
Definition row_identity (r : Row) : Z * string * string :=
  (row_id r, row_name r, row_region r).

(** A row with [d c] added to each counter [c]. *)
Definition add_counters (d : Column → Z) (r : Row) : Row :=
  {| row_id := row_id r; row_name := row_name r; row_region := row_region r;
     all_regions := all_regions r + d AllRegions;
     some_regions := some_regions r + d SomeRegions;
     one_region := one_region r + d OneRegion;
     one_person := one_person r + d OnePerson |}.

(** A store with every counter and every total moved by a fixed amount, row
    by row. *)
Definition shift (ds : list (Column → Z)) (ts : list Z) (db : Store) : Store :=
  {| tbl_individual := zip_with add_counters ds (tbl_individual db);
     tbl_num_regions :=
       zip_with (λ t nk, (nk.1, nk.2 + t)) ts (tbl_num_regions db) |}.

Definition result_map {A B : Type} (f : A → B) (m : result A) : result B :=
  match m with
  | Ok a => Ok (f a)
  | Err e => Err e
  end.

(** The order of ORDER BY on text: byte by byte. *)
Definition string_lt (s1 s2 : string) : Prop := String.ltb s1 s2 = true.

(** The sum of a column over some rows, the rows of a region, and the mean
    of a column over some rows. *)
Definition total (c : Column) (rows : list Row) : Z :=
  foldr Z.add 0 (counter c <$> rows).

Definition group_of (region : string) (rows : list Row) : list Row :=
  filter (λ r, row_region r = region) rows.

Definition mean (c : Column) (rows : list Row) : Q :=
  (inject_Z (total c rows) / inject_Z (Z.of_nat (length rows)))%Q.

Definition group_sum (c : Column) (g : Group) : Z :=
  match c with
  | AllRegions => sum_all_regions g
  | SomeRegions => sum_some_regions g
  | OneRegion => sum_one_region g
  | OnePerson => sum_one_person g
  end.

Definition average (c : Column) (a : Average) : Q :=
  match c with
  | AllRegions => avg_all_regions a
  | SomeRegions => avg_some_regions a
  | OneRegion => avg_one_region a
  | OnePerson => avg_one_person a
  end.

(** A group that has taken in exactly the rows of its region. *)
Definition group_ok (rows : list Row) (g : Group) : Prop :=
  group_of (group_region g) rows ≠ [] ∧
  group_count g = Z.of_nat (length (group_of (group_region g) rows)) ∧
  ∀ c, group_sum c g = total c (group_of (group_region g) rows).

(** The example of the reporter: two individuals of the region East. *)
Definition east_store : Store := {|
  tbl_individual :=
    [ {| row_id := 0; row_name := "e0"; row_region := "East";
         all_regions := 2; some_regions := 1; one_region := 0; one_person := 0 |};
      {| row_id := 1; row_name := "e1"; row_region := "East";
         all_regions := 0; some_regions := 1; one_region := 2; one_person := 0 |} ];
  tbl_num_regions := tbl_num_regions init
|}.

(** ** Small datasets *)

(** A table [populations.regions] with three regions. *)
Definition ex_regions : gmap (string * string) string :=
  <[("SGDP", "P1") := "A"]>
    (<[("HGDP", "P2") := "B"]> (<[("TGP", "P3") := "C"]> ∅)).

Definition ex_individual (key name : string) (nodes : list Z) : Individual :=
  {| individual_metadata := <[key := name]> ∅; individual_nodes := nodes |}.

Definition ex_population (name : string) : Population :=
  {| population_metadata := <["name" := name]> ∅ |}.

Definition ex_node (p i : Z) : Node :=
  {| node_population := p; node_individual := i |}.

(** Four individuals with two nodes each, two of them of region A, and the
    four sites of the example of the specification: X is carried in A, B
    and C, Y in A and B, Z by two individuals of A, W by one individual. *)
Definition ex_variant_X : Variant :=
  {| alleles := [Some "A"; Some "T"]; genotypes := [1; 0; 1; 0; 1; 0; 0; 0] |}.
Definition ex_variant_Y : Variant :=
  {| alleles := [Some "A"; Some "G"]; genotypes := [1; 0; 1; 0; 0; 0; 0; 0] |}.
Definition ex_variant_Z : Variant :=
  {| alleles := [Some "A"; Some "G"; Some ""; None];
     genotypes := [1; 1; 0; 0; 0; 0; 1; 2] |}.
Definition ex_variant_W : Variant :=
  {| alleles := [Some "A"; Some "G"]; genotypes := [1; 1; 0; 0; 0; 0; 0; 0] |}.

Definition ex_ts : TreeSequence := {|
  ts_individuals :=
    [ ex_individual "sgdp_id" "s0" [0; 1];
      ex_individual "sample" "h1" [2; 3];
      ex_individual "individual_id" "t2" [4; 5];
      ex_individual "sgdp_id" "s3" [6; 7] ];
  ts_nodes :=
    [ ex_node 0 0; ex_node 0 0; ex_node 1 1; ex_node 1 1;
      ex_node 2 2; ex_node 2 2; ex_node 0 3; ex_node 0 3 ];
  ts_populations := [ex_population "P1"; ex_population "P2"; ex_population "P3"];
  ts_variants := [ex_variant_X; ex_variant_Y; ex_variant_Z; ex_variant_W]
|}.

(** What [fill] computes for [ex_ts] before it reads the variants. *)
Definition ex_individuals : list (string * Entry) :=
  [ ("s0", {| entry_id := 0; entry_name := "s0"; entry_region := "A" |});
    ("h1", {| entry_id := 1; entry_name := "h1"; entry_region := "B" |});
    ("t2", {| entry_id := 2; entry_name := "t2"; entry_region := "C" |});
    ("s3", {| entry_id := 3; entry_name := "s3"; entry_region := "A" |}) ].

Definition ex_individual_regions : gmap Z string :=
  <[0 := "A"]> (<[1 := "B"]> (<[2 := "C"]> (<[3 := "A"]> ∅))).

Definition ex_sql_ids : gmap Z Z :=
  <[0 := 0]> (<[1 := 1]> (<[2 := 2]> (<[3 := 3]> ∅))).

Definition ex_rows : list Row :=
  new_row <$> [(0, "s0", "A"); (1, "h1", "B"); (2, "t2", "C"); (3, "s3", "A")].

Definition ex_store : Store :=
  {| tbl_individual := ex_rows; tbl_num_regions := tbl_num_regions init |}.

(** A dataset that has individuals of two of the three regions only, and
    one site whose allele both carry. *)
Definition two_region_variant : Variant :=
  {| alleles := [Some "A"; Some "T"]; genotypes := [1; 1] |}.

Definition two_region_ts : TreeSequence := {|
  ts_individuals :=
    [ex_individual "sgdp_id" "s0" [0]; ex_individual "sample" "h1" [1]];
  ts_nodes := [ex_node 0 0; ex_node 1 1];
  ts_populations := [ex_population "P1"; ex_population "P2"];
  ts_variants := [two_region_variant]
|}.

(** The number of distinct regions that the individuals of the dataset
    have: the total that the specification names in C1. *)
Definition dataset_num_regions (iregs : gmap Z string) : nat :=
  size (list_to_set (map_to_list iregs).*2 : gset string).

(** The category as C1 words it, with that total. *)
Definition claimed_column (iregs : gmap Z string) (individual_ids : gset Z)
    (regs : gset string) : Column :=
  if decide (size individual_ids = 1%nat) then OnePerson
  else if decide (size regs = 1%nat) then OneRegion
  else if decide (size regs < dataset_num_regions iregs)%nat then SomeRegions
  else AllRegions.

(** A dataset whose second individual has none of the three keys in its
    metadata. *)
Definition unrecognised_ts : TreeSequence := {|
  ts_individuals :=
    [ex_individual "sgdp_id" "s0" [0]; ex_individual "donor" "d1" [1]];
  ts_nodes := [ex_node 0 0; ex_node 0 1];
  ts_populations := [ex_population "P1"];
  ts_variants := [{| alleles := [Some "A"; Some "T"]; genotypes := [0; 1] |}]
|}.

(** A dataset whose second individual is of a population that the table
    does not have. *)
Definition unmapped_ts : TreeSequence := {|
  ts_individuals :=
    [ex_individual "sgdp_id" "s0" [0]; ex_individual "sample" "h1" [1]];
  ts_nodes := [ex_node 0 0; ex_node 1 1];
  ts_populations := [ex_population "P1"; ex_population "PX"];
  ts_variants := [two_region_variant]
|}.

(** A store left by an earlier file whose ids were numbered otherwise. *)
Definition renumbered_store : Store := {|
  tbl_individual :=
    new_row <$> [(12, "t2", "C"); (10, "s0", "A"); (13, "s3", "A"); (11, "h1", "B")];
  tbl_num_regions := tbl_num_regions init
|}.

Definition ex_locals : Locals := {|
  source := Some "SGDP";
  individual_name := Some "s3";
  individual_regions := ex_individual_regions;
  individuals := ex_individuals
|}.

Definition result_to_option {A : Type} (m : result A) : option A :=
  match m with
  | Ok a => Some a
  | Err _ => None
  end.

(** The alleles of a site, and of a tree sequence, that [fill] aggregates. *)
Definition counted_in (v : Variant) : Z :=
  Z.of_nat (length (filter counted (enumerate (alleles v)))).

Definition counted_alleles (ts : TreeSequence) : Z :=
  foldr Z.add 0 (counted_in <$> ts_variants ts).

(** A table of totals that has one row for each of the four categories, as
    [init] leaves it. *)
Definition totals_complete (tbl : list (string * Z)) : Prop :=
  NoDup tbl.*1 ∧ ∀ c, column_name c ∈ tbl.*1.

(** [SELECT number FROM num_regions WHERE name = column], 0 without such a
    row. *)
Definition total_of (c : Column) (tbl : list (string * Z)) : Z :=
  default 0 (dict_get (column_name c) tbl).

(** A store in which no individual has a counter above the total of its
    category. *)
Definition bounded (db : Store) : Prop :=
  NoDup (row_id <$> tbl_individual db) ∧
  totals_complete (tbl_num_regions db) ∧
  (∀ c, 0 ≤ total_of c (tbl_num_regions db)) ∧
  (∀ r c, r ∈ tbl_individual db → counter c r ≤ total_of c (tbl_num_regions db)).

(** What an aggregated allele does to a store, as data: the column and the
    stored ids whose rows it increments. *)
Definition apply_update (o : option (Column * list Z)) (db : Store) : Store :=
  match o with
  | None => db
  | Some u =>
      {| tbl_individual := update_individuals u.1 (tbl_individual db) u.2;
         tbl_num_regions := update_num_regions u.1 (tbl_num_regions db) |}
  end.

Definition allele_update (regions : gmap (string * string) string)
    (ts : TreeSequence) (iregs : gmap Z string) (sql_ids : gmap Z Z)
    (v : Variant) (x : Z * option string) : result (option (Column * list Z)) :=
  if bool_decide (x.1 = 0) || not_allele x.2 then Ok None
  else
    let* individual_ids := individual_ids_of ts v x.1 in
    let* column := choose_column regions iregs individual_ids in
    let* ids :=
      comprehension (λ id, expect KeyError_sql_ids (sql_ids !! id))
                    (elements individual_ids) in
    Ok (Some (column, ids)).

Definition variant_updates (regions : gmap (string * string) string)
    (ts : TreeSequence) (iregs : gmap Z string) (sql_ids : gmap Z Z)
    (v : Variant) : result (list (option (Column * list Z))) :=
  comprehension (allele_update regions ts iregs sql_ids v) (enumerate (alleles v)).

(** The same tree sequence with its sites in another order. *)
Definition with_variants (ts : TreeSequence) (vs : list Variant) : TreeSequence :=
  {| ts_individuals := ts_individuals ts; ts_nodes := ts_nodes ts;
     ts_populations := ts_populations ts; ts_variants := vs |}.


(** ** More small datasets *)

(** A dataset whose second node belongs to no individual (tskit's NULL,
    -1) and carries the allele of the one site. *)
Definition orphan_ts : TreeSequence := {|
  ts_individuals := [ex_individual "sgdp_id" "s0" [0]];
  ts_nodes := [ex_node 0 0; ex_node 0 (-1)];
  ts_populations := [ex_population "P1"];
  ts_variants := [{| alleles := [Some "A"; Some "T"]; genotypes := [0; 1] |}]
|}.

(** A store with a row whose name [two_region_ts] does not have. *)
Definition stale_store : Store := {|
  tbl_individual := new_row <$> [(0, "s0", "A"); (5, "zz", "A")];
  tbl_num_regions := tbl_num_regions init
|}.

(** [east_store] with its two rows the other way round. *)
Definition east_store_swapped : Store := {|
  tbl_individual :=
    [ {| row_id := 1; row_name := "e1"; row_region := "East";
         all_regions := 0; some_regions := 1; one_region := 2; one_person := 0 |};
      {| row_id := 0; row_name := "e0"; row_region := "East";
         all_regions := 2; some_regions := 1; one_region := 0; one_person := 0 |} ];
  tbl_num_regions := tbl_num_regions init
|}.

(** A dataset whose two individuals have the same name; the allele of its
    site is carried by the second. *)
Definition repeated_name_ts : TreeSequence := {|
  ts_individuals :=
    [ex_individual "sgdp_id" "s0" [0]; ex_individual "sgdp_id" "s0" [1]];
  ts_nodes := [ex_node 0 0; ex_node 0 1];
  ts_populations := [ex_population "P1"];
  ts_variants := [{| alleles := [Some "A"; Some "T"]; genotypes := [0; 1] |}]
|}.

(** A store that holds s0 under the id 7. *)
Definition s0_store : Store := {|
  tbl_individual := [new_row (7, "s0", "A")];
  tbl_num_regions := tbl_num_regions init
|}.
(** * Properties *)

(** ** The exception monad and the loops *)

Lemma bind_Ok {A B : Type} (m : result A) (k : A → result B) (b : B) :
  bind m k = Ok b ↔ ∃ a, m = Ok a ∧ k a = Ok b.
Proof.
  destruct m as [a|e]; simpl; split.
  - eauto.
  - by intros (a' & [= <-] & ?).
  - done.
  - by intros (a' & ? & ?).
Qed.

Lemma expect_Ok {A : Type} (e : exn) (o : option A) (a : A) :
  expect e o = Ok a ↔ o = Some a.
Proof. destruct o; simpl; split; congruence. Qed.

Lemma for_each_app {A S : Type} (body : S → A → result S) (l1 l2 : list A) (s : S) :
  for_each body (l1 ++ l2) s = let* s' := for_each body l1 s in for_each body l2 s'.
Proof.
  revert s. induction l1 as [|a l1 IH]; intros s; simpl; [done|].
  destruct (body s a); simpl; auto.
Qed.

Lemma for_each_skip {A S : Type} (body : S → A → result S)
    (P : A → Prop) `{∀ a, Decision (P a)} (l : list A) (s : S) :
  (∀ a s', ¬ P a → body s' a = Ok s') →
  for_each body l s = for_each body (filter P l) s.
Proof.
  intros Hskip. revert s. induction l as [|a l IH]; intros s; [done|].
  rewrite filter_cons. destruct (decide (P a)) as [HP|HP]; simpl.
  - destruct (body s a); simpl; auto.
  - rewrite (Hskip a s HP). simpl. auto.
Qed.

Lemma comprehension_Ok {A B : Type} (f : A → result B) (l : list A) (bs : list B) :
  comprehension f l = Ok bs ↔ Forall2 (λ a b, f a = Ok b) l bs.
Proof.
  revert bs. induction l as [|a l IH]; intros bs; simpl.
  - split; [intros [= <-]; constructor | by inversion 1].
  - rewrite bind_Ok. split.
    + intros (b & Hb & Hrest). apply bind_Ok in Hrest as (bs' & Hbs' & [= <-]).
      constructor; [done|]. by apply IH.
    + inversion 1 as [|? b ? bs' Hb Hbs']; subst. exists b. split; [done|].
      apply bind_Ok. exists bs'. split; [by apply IH | done].
Qed.

Lemma comprehension_expect {A B : Type} (e : exn) (f : A → option B)
    (l : list A) (bs : list B) :
  comprehension (λ a, expect e (f a)) l = Ok bs ↔ Forall2 (λ a b, f a = Some b) l bs.
Proof.
  rewrite comprehension_Ok. split; intros H; eapply Forall2_impl; try exact H;
    intros a b; simpl; by rewrite expect_Ok.
Qed.

(** ** The alleles that are skipped *)

Section Skipped.
Context (regions : gmap (string * string) string) (ts : TreeSequence)
        (iregs : gmap Z string) (sql_ids : gmap Z Z).

Lemma process_allele_not_counted v db x :
  ¬ counted x → process_allele regions ts iregs sql_ids v db x = Ok db.
Proof.
  destruct x as [i a]. unfold counted, process_allele. simpl. intros Hn.
  destruct (decide (i = 0)) as [->|Hi]; [done|].
  rewrite (bool_decide_eq_false_2 _ Hi). simpl.
  destruct a as [a|]; simpl; [|done].
  destruct (decide (a = "")) as [->|Ha]; [done|].
  exfalso. apply Hn. repeat split; congruence.
Qed.

(** C4. The allele at index 0 of a site and every empty (or absent) allele
    are skipped: handling one returns the store as it was, with every
    per-individual counter and every total untouched, and a site is
    aggregated exactly as if it listed only its other alleles. *)
Theorem skipped_alleles_change_nothing (v : Variant) (db : Store) :
  (∀ allele, process_allele regions ts iregs sql_ids v db (0, allele) = Ok db) ∧
  (∀ i, process_allele regions ts iregs sql_ids v db (i, Some "") = Ok db) ∧
  (∀ i, process_allele regions ts iregs sql_ids v db (i, None) = Ok db) ∧
  process_variant regions ts iregs sql_ids db v =
    for_each (process_allele regions ts iregs sql_ids v)
             (filter counted (enumerate (alleles v))) db.
Proof.
  split; [|split; [|split]].
  - intros allele. apply process_allele_not_counted. unfold counted. simpl. tauto.
  - intros i. apply process_allele_not_counted. unfold counted. simpl. tauto.
  - intros i. apply process_allele_not_counted. unfold counted. simpl. tauto.
  - unfold process_variant. apply for_each_skip.
    intros; by apply process_allele_not_counted.
Qed.
End Skipped.

(** ** The choice of the category *)

Lemma choose_column_one_person regions (iregs : gmap Z string) (ids : gset Z) :
  size ids = 1%nat → choose_column regions iregs ids = Ok OnePerson.
Proof. intros H. unfold choose_column. by rewrite decide_True. Qed.

Lemma choose_column_regions regions (iregs : gmap Z string) (ids : gset Z)
    (rs : gset string) :
  size ids ≠ 1%nat →
  regions_of iregs ids = Ok rs →
  choose_column regions iregs ids =
    Ok (if decide (size rs = 1%nat) then OneRegion
        else if decide (size rs < num_regions regions)%nat then SomeRegions
        else AllRegions).
Proof.
  intros Hids Hrs. unfold choose_column. rewrite decide_False by done.
  rewrite Hrs. simpl. repeat case_decide; done.
Qed.

(** C1, as the code has it.  The category of a carrier set is [one_person]
    when the set has exactly one individual, whatever the regions; otherwise
    [one_region] when its individuals are all of one region, [some_regions]
    when their distinct regions are more than one and fewer than the
    distinct regions of the table [populations.regions], and [all_regions]
    when they are as many as the distinct regions of that table. *)
Theorem choose_column_cases regions (iregs : gmap Z string) (ids : gset Z) :
  (size ids = 1%nat → choose_column regions iregs ids = Ok OnePerson) ∧
  (∀ rs : gset string,
     size ids ≠ 1%nat →
     regions_of iregs ids = Ok rs →
     (size rs = 1%nat → choose_column regions iregs ids = Ok OneRegion) ∧
     ((1 < size rs < num_regions regions)%nat →
      choose_column regions iregs ids = Ok SomeRegions) ∧
     (size rs ≠ 1%nat → size rs = num_regions regions →
      choose_column regions iregs ids = Ok AllRegions)).
Proof.
  split; [apply choose_column_one_person|].
  intros rs Hids Hrs. rewrite (choose_column_regions _ _ _ rs Hids Hrs).
  split; [|split].
  - intros H1. by rewrite decide_True.
  - intros [Hlo Hhi]. rewrite decide_False by lia. by rewrite decide_True.
  - intros H1 Hall. rewrite decide_False by done. by rewrite decide_False by lia.
Qed.

(** ** The identity resolver *)

Section Resolver.
Context (regions : gmap (string * string) string) (ts : TreeSequence).

Lemma resolve_individual_missing_region st i ind src pn :
  (dispatch (individual_metadata ind) st).1 = Some src →
  population_name_of ts ind = Ok pn →
  regions !! (src, pn) = None →
  resolve_individual regions ts st (i, ind) = Err (KeyError_regions src pn).
Proof.
  intros Hsrc Hpn Hreg. unfold resolve_individual.
  destruct (dispatch (individual_metadata ind) st) as [src' nm].
  simpl in Hsrc. subst src'. rewrite Hpn. simpl. by rewrite Hreg.
Qed.

(** C7. When the loop over the individuals reaches one whose pair of source
    and population name is not a key of [populations.regions], the
    resolver raises the KeyError of that pair: it neither skips the
    individual nor gives it a region, and [fill] ends with that exception
    for any store, without committing anything. *)
Theorem missing_region_aborts pre i ind post st src pn :
  enumerate (ts_individuals ts) = pre ++ (i, ind) :: post →
  for_each (resolve_individual regions ts) pre locals0 = Ok st →
  (dispatch (individual_metadata ind) st).1 = Some src →
  population_name_of ts ind = Ok pn →
  regions !! (src, pn) = None →
  resolve_individual regions ts st (i, ind) = Err (KeyError_regions src pn) ∧
  resolve regions ts = Err (KeyError_regions src pn) ∧
  ∀ db, fill regions db ts = Err (KeyError_regions src pn).
Proof.
  intros Hsplit Hpre Hsrc Hpn Hreg.
  pose proof (resolve_individual_missing_region st i ind src pn Hsrc Hpn Hreg) as Hstep.
  assert (resolve regions ts = Err (KeyError_regions src pn)) as Hres.
  { unfold resolve. rewrite Hsplit, for_each_app, Hpre. cbn [bind for_each]. by rewrite Hstep. }
  split; [done|]. split; [done|].
  intros db. unfold fill. by rewrite Hres.
Qed.

(** An individual whose metadata has none of the three keys goes through
    the loop body with the source and the name of the individual before
    it. *)
Lemma resolve_individual_stale st i ind src nm pn region :
  metadata_source (individual_metadata ind) = None →
  source st = Some src →
  individual_name st = Some nm →
  population_name_of ts ind = Ok pn →
  regions !! (src, pn) = Some region →
  resolve_individual regions ts st (i, ind) =
    Ok {| source := Some src;
          individual_name := Some nm;
          individual_regions := <[i := region]> (individual_regions st);
          individuals :=
            dict_set nm {| entry_id := i; entry_name := nm;
                           entry_region := region |} (individuals st) |}.
Proof.
  intros Hmd Hsrc Hnm Hpn Hreg. unfold resolve_individual, dispatch.
  rewrite Hmd, Hsrc, Hnm, Hpn. simpl. by rewrite Hreg.
Qed.

(** The first individual of the loop has nothing to inherit. *)
Lemma resolve_individual_unbound i ind pn :
  metadata_source (individual_metadata ind) = None →
  population_name_of ts ind = Ok pn →
  resolve_individual regions ts locals0 (i, ind) = Err UnboundLocalError_source.
Proof.
  intros Hmd Hpn. unfold resolve_individual, dispatch.
  rewrite Hmd, Hpn. done.
Qed.
End Resolver.

(** ** The two UPDATE statements *)

Lemma increment_id c r : row_id (increment c r) = row_id r.
Proof. by destruct c. Qed.

Lemma increment_name c r : row_name (increment c r) = row_name r.
Proof. by destruct c. Qed.

Lemma increment_region c r : row_region (increment c r) = row_region r.
Proof. by destruct c. Qed.

Lemma increment_counter_same c r : counter c (increment c r) = counter c r + 1.
Proof. by destruct c. Qed.

Lemma increment_counter_other c c' r :
  c' ≠ c → counter c' (increment c r) = counter c' r.
Proof. by destruct c, c'. Qed.

Lemma update_individual_ids c rows i :
  row_id <$> update_individual c rows i = row_id <$> rows.
Proof.
  unfold update_individual. rewrite <- list_fmap_compose.
  apply list_fmap_ext. intros _ r _. simpl.
  case_decide; [apply increment_id | done].
Qed.

Lemma update_individuals_ids c rows ids :
  row_id <$> update_individuals c rows ids = row_id <$> rows.
Proof.
  unfold update_individuals. revert rows.
  induction ids as [|i ids IH]; intros rows; simpl; [done|].
  by rewrite IH, update_individual_ids.
Qed.

(** When the ids are pairwise different, [executemany] increments once the
    rows whose id is listed, and leaves the others as they are. *)
Lemma update_individuals_NoDup c rows ids :
  NoDup ids →
  update_individuals c rows ids =
    (λ r, if decide (row_id r ∈ ids) then increment c r else r) <$> rows.
Proof.
  unfold update_individuals. intros Hnd. revert rows.
  induction Hnd as [|i ids Hi Hnd IH]; intros rows; cbn [foldl].
  - transitivity (id <$> rows); [by rewrite list_fmap_id|].
    apply list_fmap_ext. intros _ r _. cbn beta.
    rewrite decide_False; [done|]. apply not_elem_of_nil.
  - rewrite IH. unfold update_individual. rewrite <- list_fmap_compose.
    apply list_fmap_ext. intros _ r _. cbn beta. unfold compose.
    destruct (decide (row_id r = i)) as [Heq|Hne].
    + rewrite increment_id. rewrite decide_False by congruence.
      rewrite decide_True; [done|]. apply elem_of_cons; auto.
    + destruct (decide (row_id r ∈ ids)) as [Hin|Hnin].
      * rewrite decide_True; [done|]. apply elem_of_cons; auto.
      * rewrite decide_False; [done|]. rewrite elem_of_cons. tauto.
Qed.

Lemma update_num_regions_lookup c tbl k :
  update_num_regions c tbl !! k =
    (λ nk, if decide (nk.1 = column_name c) then (nk.1, nk.2 + 1) else nk)
      <$> tbl !! k.
Proof. unfold update_num_regions. apply list_lookup_fmap. Qed.

Lemma column_name_inj c c' : column_name c = column_name c' → c = c'.
Proof. by destruct c, c'. Qed.

(** ** Dictionaries *)

Section DictFacts.
Context {K V : Type} `{EqDecision K}.
Implicit Types (d : list (K * V)).

Lemma dict_get_elem_of k v d : dict_get k d = Some v → (k, v) ∈ d.
Proof.
  induction d as [|[k' v'] d IH]; simpl; [done|].
  case_decide as Hk.
  - intros [= ->]. subst. apply elem_of_cons; auto.
  - intros. apply elem_of_cons; auto.
Qed.

Lemma dict_get_NoDup k v d : NoDup d.*1 → (k, v) ∈ d → dict_get k d = Some v.
Proof.
  induction d as [|[k' v'] d IH]; simpl.
  - intros _ Hin. by apply elem_of_nil in Hin.
  - intros Hnd Hin. apply NoDup_cons in Hnd as [Hk' Hnd].
    apply elem_of_cons in Hin as [[= -> ->]|Hin].
    + by rewrite decide_True.
    + rewrite decide_False; [by apply IH|].
      intros ->. apply Hk'. apply list_elem_of_fmap. by exists (k', v).
Qed.

Lemma dict_set_elem_of k v k' v' d :
  (k', v') ∈ dict_set k v d → (k', v') = (k, v) ∨ (k', v') ∈ d.
Proof.
  induction d as [|[k0 v0] d IH]; simpl.
  - intros Hin. apply list_elem_of_singleton in Hin. auto.
  - case_decide as Hk; intros Hin; apply elem_of_cons in Hin as [Hin|Hin].
    + auto.
    + right. apply elem_of_cons; auto.
    + right. apply elem_of_cons; auto.
    + destruct (IH Hin); auto. right. apply elem_of_cons; auto.
Qed.

Lemma dict_set_keys k v d :
  (dict_set k v d).*1 = if decide (k ∈ d.*1) then d.*1 else d.*1 ++ [k].
Proof.
  induction d as [|[k0 v0] d IH]; [done|]. cbn [dict_set].
  destruct (decide (k = k0)) as [->|Hk]; rewrite !fmap_cons; cbn [fst].
  - rewrite decide_True; [done|]. apply elem_of_cons; auto.
  - rewrite IH. destruct (decide (k ∈ d.*1)) as [Hin|Hnin].
    + rewrite decide_True; [done|]. apply elem_of_cons; auto.
    + rewrite decide_False; [done|]. rewrite elem_of_cons. tauto.
Qed.

Lemma dict_set_keys_NoDup k v d : NoDup d.*1 → NoDup (dict_set k v d).*1.
Proof.
  intros Hnd. rewrite dict_set_keys. case_decide; [done|].
  apply NoDup_app. split; [done|]. split; [|apply NoDup_singleton].
  intros x Hx Hx'. apply list_elem_of_singleton in Hx'. by subst.
Qed.

Lemma dict_set_fresh k v d : k ∉ d.*1 → dict_set k v d = d ++ [(k, v)].
Proof.
  induction d as [|[k0 v0] d IH]; simpl; [done|].
  intros Hk. apply not_elem_of_cons in Hk as [Hne Hk].
  rewrite decide_False by done. by rewrite IH.
Qed.

Lemma dict_get_set k v d : dict_get k (dict_set k v d) = Some v.
Proof.
  induction d as [|[k0 v0] d IH]; simpl.
  - by rewrite decide_True.
  - destruct (decide (k = k0)) as [->|Hk]; simpl.
    + by rewrite decide_True.
    + by rewrite decide_False.
Qed.

Lemma dict_get_set_ne k k' v d :
  k ≠ k' → dict_get k' (dict_set k v d) = dict_get k' d.
Proof.
  intros Hne. induction d as [|[k0 v0] d IH]; simpl.
  - by rewrite decide_False by congruence.
  - destruct (decide (k = k0)) as [->|Hk]; simpl.
    + by rewrite !decide_False by congruence.
    + by rewrite IH.
Qed.

(** The values under two different keys sit at two different places. *)
Lemma dict_get_values_NoDup {B : Type} (f : V → B) k1 k2 v1 v2 d :
  NoDup (f <$> d.*2) → k1 ≠ k2 →
  dict_get k1 d = Some v1 → dict_get k2 d = Some v2 → f v1 ≠ f v2.
Proof.
  intros Hnd Hne. induction d as [|[k0 v0] d IH]; simpl; [done|].
  simpl in Hnd. apply NoDup_cons in Hnd as [Hv0 Hnd].
  assert (∀ k v, dict_get k d = Some v → f v ∈ f <$> d.*2) as Hmem.
  { intros k v Hg. apply list_elem_of_fmap. exists v. split; [done|].
    apply list_elem_of_fmap. exists (k, v). split; [done|].
    by apply dict_get_elem_of. }
  destruct (decide (k1 = k0)) as [->|H1], (decide (k2 = k0)) as [->|H2].
  - done.
  - intros [= ->] Hg2 Heq. apply Hv0. rewrite Heq. eauto.
  - intros Hg1 [= ->] Heq. apply Hv0. rewrite <- Heq. eauto.
  - by apply IH.
Qed.

Lemma dict_set_values_NoDup {B : Type} (f : V → B) k v d :
  NoDup (f <$> d.*2) → f v ∉ f <$> d.*2 → NoDup (f <$> (dict_set k v d).*2).
Proof.
  induction d as [|[k0 v0] d IH]; simpl.
  - intros _ _. apply NoDup_singleton.
  - intros Hnd Hv. apply NoDup_cons in Hnd as [Hv0 Hnd].
    apply not_elem_of_cons in Hv as [Hne Hv].
    destruct (decide (k = k0)) as [->|Hk]; simpl.
    + apply NoDup_cons. done.
    + apply NoDup_cons. split; [|by apply IH].
      intros Hin. apply list_elem_of_fmap in Hin as (v1 & Heq & Hin).
      apply list_elem_of_fmap in Hin as ([k1 v1'] & Heq1 & Hin).
      simpl in Heq1. subst v1'.
      apply dict_set_elem_of in Hin as [[= -> ->]|Hin]; [congruence|].
      apply Hv0. rewrite Heq. apply list_elem_of_fmap. exists v1.
      split; [done|]. apply list_elem_of_fmap. by exists (k1, v1).
Qed.
End DictFacts.

(** ** Enumeration *)

Lemma enumerate_from_lookup {A : Type} (k : Z) (l : list A) (n : nat) :
  enumerate_from k l !! n = (λ a, (k + Z.of_nat n, a)) <$> l !! n.
Proof.
  revert k n. induction l as [|a l IH]; intros k n; [done|].
  destruct n as [|n]; simpl.
  - f_equal. f_equal. lia.
  - rewrite IH. destruct (l !! n); simpl; [|done]. do 2 f_equal. lia.
Qed.

Lemma elem_of_enumerate_from {A : Type} (k : Z) (l : list A) (j : Z) (a : A) :
  (j, a) ∈ enumerate_from k l ↔ ∃ n : nat, j = k + Z.of_nat n ∧ l !! n = Some a.
Proof.
  rewrite list_elem_of_lookup. split.
  - intros [n Hn]. rewrite enumerate_from_lookup in Hn.
    destruct (l !! n) as [a'|] eqn:Hl; simpl in Hn; [|done].
    injection Hn as <- <-. eauto.
  - intros (n & -> & Hl). exists n. by rewrite enumerate_from_lookup, Hl.
Qed.

Lemma enumerate_from_length {A : Type} (k : Z) (l : list A) :
  length (enumerate_from k l) = length l.
Proof. revert k. induction l as [|a l IH]; intros k; simpl; [done|]. by rewrite IH. Qed.

(** ** What the resolver leaves behind *)

Section ResolverInvariant.
Context (regions : gmap (string * string) string) (ts : TreeSequence).

Lemma resolve_individual_Ok st i ind st' :
  resolve_individual regions ts st (i, ind) = Ok st' ↔
  ∃ src nm pn region,
    dispatch (individual_metadata ind) st = (Some src, Some nm) ∧
    population_name_of ts ind = Ok pn ∧
    regions !! (src, pn) = Some region ∧
    st' = {| source := Some src;
             individual_name := Some nm;
             individual_regions := <[i := region]> (individual_regions st);
             individuals :=
               dict_set nm {| entry_id := i; entry_name := nm;
                              entry_region := region |} (individuals st) |}.
Proof.
  unfold resolve_individual.
  destruct (dispatch (individual_metadata ind) st) as [src nm].
  split.
  - intros H. apply bind_Ok in H as (pn & Hpn & H).
    apply bind_Ok in H as (src' & Hsrc & H). apply expect_Ok in Hsrc as ->.
    apply bind_Ok in H as (region & Hreg & H). apply expect_Ok in Hreg.
    apply bind_Ok in H as (nm' & Hnm & H). apply expect_Ok in Hnm as ->.
    injection H as <-. by exists src', nm', pn, region.
  - intros (src' & nm' & pn & region & [= -> ->] & Hpn & Hreg & ->).
    rewrite Hpn. simpl. by rewrite Hreg.
Qed.

Lemma resolve_individual_step k st ind st' :
  resolved regions k st →
  resolve_individual regions ts st (k, ind) = Ok st' →
  resolved regions (k + 1) st'.
Proof.
  intros [Hent Hids Hnames Hregs] Hstep.
  apply resolve_individual_Ok in Hstep
    as (src & nm & pn & region & _ & _ & Hreg & ->).
  split; simpl.
  - intros n e Hin. apply dict_set_elem_of in Hin as [[= -> ->]|Hin]; simpl.
    + rewrite lookup_insert_eq. split; [done|]. split; [done|]. lia.
    + destruct (Hent n e Hin) as (Hn & Hr & Hlt). split; [done|].
      split; [|lia]. rewrite lookup_insert_ne; [done|]. lia.
  - apply dict_set_values_NoDup; [done|]. simpl.
    intros Hin. apply list_elem_of_fmap in Hin as (e & Heq & Hin).
    apply list_elem_of_fmap in Hin as ([n e'] & Heq' & Hin). simpl in Heq'.
    subst e'. destruct (Hent n e Hin) as (_ & _ & Hlt). lia.
  - by apply dict_set_keys_NoDup.
  - intros i r Hi. destruct (decide (k = i)) as [->|Hne].
    + rewrite lookup_insert_eq in Hi. injection Hi as <-. eauto.
    + rewrite lookup_insert_ne in Hi by done. eauto.
Qed.

Lemma resolve_loop k inds st st' :
  resolved regions k st →
  for_each (resolve_individual regions ts) (enumerate_from k inds) st = Ok st' →
  resolved regions (k + Z.of_nat (length inds)) st'.
Proof.
  revert k st. induction inds as [|ind inds IH]; intros k st Hinv Hloop.
  - injection Hloop as <-. by rewrite Z.add_0_r.
  - cbn [enumerate_from for_each] in Hloop.
    apply bind_Ok in Hloop as (st1 & Hstep & Hloop).
    apply (resolve_individual_step k st ind st1 Hinv) in Hstep.
    apply (IH _ _ Hstep) in Hloop.
    replace (k + Z.of_nat (length (ind :: inds)))
      with (k + 1 + Z.of_nat (length inds)) by (simpl; lia).
    done.
Qed.

Lemma resolved_locals0 : resolved regions 0 locals0.
Proof.
  split; simpl.
  - intros n e Hin. by apply elem_of_nil in Hin.
  - apply NoDup_nil_2.
  - apply NoDup_nil_2.
  - intros i r Hi. by rewrite lookup_empty in Hi.
Qed.

Lemma resolve_resolved st :
  resolve regions ts = Ok st →
  resolved regions (Z.of_nat (length (ts_individuals ts))) st.
Proof.
  intros H. apply (resolve_loop 0 _ locals0 st resolved_locals0) in H.
  by rewrite Z.add_0_l in H.
Qed.
End ResolverInvariant.

(** In [fill] the regions of the carriers are values of the table
    [populations.regions], so they are never more than [num_regions]: the
    last branch of the choice is taken exactly when every region of the
    table has a carrier. *)
Lemma carrier_regions_le_num_regions regions ts st (ids : gset Z) (rs : gset string) :
  resolve regions ts = Ok st →
  regions_of (individual_regions st) ids = Ok rs →
  (size rs ≤ num_regions regions)%nat.
Proof.
  intros Hres Hrs.
  pose proof (resolve_resolved regions ts st Hres) as Hinv.
  unfold regions_of in Hrs. apply bind_Ok in Hrs as (regs & Hregs & [= <-]).
  apply comprehension_expect in Hregs.
  unfold num_regions. apply subseteq_size. intros x Hx.
  apply elem_of_list_to_set in Hx. apply elem_of_list_to_set.
  apply list_elem_of_lookup in Hx as [k Hk].
  destruct (Forall2_lookup_r _ _ _ _ _ Hregs Hk) as (id & _ & Hid).
  destruct (resolved_regions _ _ _ Hinv id x Hid) as [key Hkey].
  apply list_elem_of_fmap. exists (key, x). split; [done|].
  by apply elem_of_map_to_list.
Qed.

(** ** ID reconciliation *)

Lemma NoDup_fmap_eq {A B : Type} (f : A → B) (l : list A) (x y : A) :
  NoDup (f <$> l) → x ∈ l → y ∈ l → f x = f y → x = y.
Proof.
  induction l as [|a l IH]; simpl; intros Hnd Hx Hy Heq.
  - by apply elem_of_nil in Hx.
  - apply NoDup_cons in Hnd as [Ha Hnd].
    apply elem_of_cons in Hx as [->|Hx]; apply elem_of_cons in Hy as [->|Hy].
    + done.
    + exfalso. apply Ha. rewrite Heq. by apply list_elem_of_fmap_2.
    + exfalso. apply Ha. rewrite <- Heq. by apply list_elem_of_fmap_2.
    + by apply IH.
Qed.

Section Reconcile.
Context (inds : list (string * Entry)).

Lemma sql_ids_step_Ok (m : gmap Z Z) row m' :
  sql_ids_step inds m row = Ok m' ↔
  ∃ e, dict_get (row_name row) inds = Some e ∧
       m' = <[entry_id e := row_id row]> m.
Proof.
  unfold sql_ids_step. rewrite bind_Ok. split.
  - intros (e & He & [= <-]). apply expect_Ok in He. eauto.
  - intros (e & He & ->). exists e. by rewrite expect_Ok.
Qed.

(** Every pair of the dictionary comes from a row. *)
Lemma sql_ids_loop_lookup rows (m0 m : gmap Z Z) i r :
  for_each (sql_ids_step inds) rows m0 = Ok m →
  m !! i = Some r →
  m0 !! i = Some r ∨
  ∃ row e, row ∈ rows ∧ dict_get (row_name row) inds = Some e ∧
           entry_id e = i ∧ row_id row = r.
Proof.
  revert m0. induction rows as [|row rows IH]; intros m0 Hloop Hm.
  - injection Hloop as <-. auto.
  - cbn [for_each] in Hloop. apply bind_Ok in Hloop as (m1 & Hstep & Hloop).
    apply sql_ids_step_Ok in Hstep as (e & He & ->).
    destruct (IH _ Hloop Hm) as [H1|(row' & e' & Hin & He' & <- & <-)].
    + destruct (decide (entry_id e = i)) as [<-|Hne].
      * rewrite lookup_insert_eq in H1. injection H1 as <-.
        right. exists row, e. split; [apply elem_of_cons; auto|done].
      * rewrite lookup_insert_ne in H1 by done. auto.
    + right. exists row', e'. split; [apply elem_of_cons; auto|done].
Qed.

(** A key that no row of the list writes keeps its value. *)
Lemma sql_ids_loop_keep rows (m0 m : gmap Z Z) i :
  for_each (sql_ids_step inds) rows m0 = Ok m →
  (∀ row e, row ∈ rows → dict_get (row_name row) inds = Some e → entry_id e ≠ i) →
  m !! i = m0 !! i.
Proof.
  revert m0. induction rows as [|row rows IH]; intros m0 Hloop Hother.
  - by injection Hloop as <-.
  - cbn [for_each] in Hloop. apply bind_Ok in Hloop as (m1 & Hstep & Hloop).
    apply sql_ids_step_Ok in Hstep as (e & He & ->).
    rewrite (IH _ Hloop).
    + apply lookup_insert_ne. apply (Hother row e); [apply elem_of_cons; auto|done].
    + intros row' e' Hin. apply Hother. apply elem_of_cons; auto.
Qed.

(** The rows all have their name in the dictionary when the comprehension
    succeeds. *)
Lemma sql_ids_loop_names rows (m0 m : gmap Z Z) row :
  for_each (sql_ids_step inds) rows m0 = Ok m →
  row ∈ rows → is_Some (dict_get (row_name row) inds).
Proof.
  revert m0. induction rows as [|row' rows IH]; intros m0 Hloop Hin.
  - by apply elem_of_nil in Hin.
  - cbn [for_each] in Hloop. apply bind_Ok in Hloop as (m1 & Hstep & Hloop).
    apply sql_ids_step_Ok in Hstep as (e & He & ->).
    apply elem_of_cons in Hin as [->|Hin]; [eauto|]. by eapply IH.
Qed.

(** With names that are unique in the store and ids that are unique in
    the dictionary, a row's id is found under the id of its namesake. *)
Lemma sql_ids_of_rows_lookup rows (m : gmap Z Z) row e :
  NoDup (row_name <$> rows) →
  NoDup (entry_id <$> inds.*2) →
  sql_ids_of_rows inds rows = Ok m →
  row ∈ rows →
  dict_get (row_name row) inds = Some e →
  m !! entry_id e = Some (row_id row).
Proof.
  unfold sql_ids_of_rows. generalize (∅ : gmap Z Z).
  induction rows as [|row' rows IH]; intros m0 Hnames Hids Hloop Hin He.
  - by apply elem_of_nil in Hin.
  - cbn [for_each] in Hloop. apply bind_Ok in Hloop as (m1 & Hstep & Hloop).
    apply sql_ids_step_Ok in Hstep as (e' & He' & ->).
    simpl in Hnames. apply NoDup_cons in Hnames as [Hrow' Hnames].
    destruct (decide (row_name row' = row_name row)) as [Heq|Hne].
    + assert (row ∉ rows) as Hnin.
      { intros Hin'. apply Hrow'. rewrite Heq. by apply list_elem_of_fmap_2. }
      apply elem_of_cons in Hin as [->|Hin]; [|done].
      rewrite He in He'. injection He' as <-.
      rewrite (sql_ids_loop_keep _ _ _ (entry_id e) Hloop).
      * apply lookup_insert_eq.
      * intros row2 e2 Hin2 He2.
        eapply dict_get_values_NoDup; [exact Hids| |exact He2|exact He].
        intros Heq2. apply Hrow'. rewrite <- Heq2. by apply list_elem_of_fmap_2.
    + apply elem_of_cons in Hin as [->|Hin]; [done|]. by eapply IH.
Qed.

(** The primary key makes the dictionary one-to-one. *)
Lemma sql_ids_of_rows_inj rows (m : gmap Z Z) i j r :
  NoDup (row_id <$> rows) →
  sql_ids_of_rows inds rows = Ok m →
  m !! i = Some r → m !! j = Some r → i = j.
Proof.
  intros Hpk Hm Hi Hj.
  apply (sql_ids_loop_lookup _ _ _ _ _ Hm) in Hi
    as [Hi|(row1 & e1 & Hin1 & He1 & <- & Hr1)]; [by rewrite lookup_empty in Hi|].
  apply (sql_ids_loop_lookup _ _ _ _ _ Hm) in Hj
    as [Hj|(row2 & e2 & Hin2 & He2 & <- & Hr2)]; [by rewrite lookup_empty in Hj|].
  assert (row1 = row2) as ->.
  { apply (NoDup_fmap_eq row_id rows); [done..|congruence]. }
  congruence.
Qed.

Lemma sql_ids_of_rows_range rows (m : gmap Z Z) i r :
  sql_ids_of_rows inds rows = Ok m →
  m !! i = Some r → r ∈ row_id <$> rows.
Proof.
  intros Hm Hi.
  apply (sql_ids_loop_lookup _ _ _ _ _ Hm) in Hi
    as [Hi|(row1 & e1 & Hin1 & He1 & <- & <-)]; [by rewrite lookup_empty in Hi|].
  by apply list_elem_of_fmap_2.
Qed.

(** The first run: every id stands for itself. *)
Lemma sql_ids_identity_acc (es : list Entry) (m0 : gmap Z Z) i :
  foldl (λ m e, <[entry_id e := entry_id e]> m) m0 es !! i =
    if decide (i ∈ entry_id <$> es) then Some i else m0 !! i.
Proof.
  revert m0. induction es as [|e es IH]; intros m0; cbn [foldl].
  - rewrite decide_False; [done|]. rewrite fmap_nil. apply not_elem_of_nil.
  - rewrite IH, fmap_cons. destruct (decide (i ∈ entry_id <$> es)) as [Hin|Hnin].
    + rewrite decide_True; [done|]. apply elem_of_cons; auto.
    + destruct (decide (entry_id e = i)) as [Heq|Hne].
      * rewrite decide_True by (apply elem_of_cons; auto).
        rewrite Heq. apply lookup_insert_eq.
      * rewrite decide_False by (rewrite elem_of_cons; intros [?|?]; done).
        by apply lookup_insert_ne.
Qed.

Lemma sql_ids_identity_lookup i :
  sql_ids_identity inds !! i =
    if decide (i ∈ entry_id <$> dict_values inds) then Some i else None.
Proof. unfold sql_ids_identity. by rewrite sql_ids_identity_acc, lookup_empty. Qed.
End Reconcile.

(** The INSERT of the first run. *)
Lemma insert_individual_Ok rows e rows' :
  insert_individual rows e = Ok rows' ↔
  (e.1.1 ∉ (row_id <$> rows)) ∧ rows' = rows ++ [new_row e].
Proof.
  unfold insert_individual. case_decide; split.
  - done.
  - by intros [? _].
  - by intros [= <-].
  - by intros [_ ->].
Qed.

Lemma insert_loop_Ok es rows rows' :
  for_each insert_individual es rows = Ok rows' →
  rows' = rows ++ (new_row <$> es) ∧
  (NoDup (row_id <$> rows) → NoDup (row_id <$> rows')).
Proof.
  revert rows. induction es as [|e es IH]; intros rows Hloop.
  - injection Hloop as <-. by rewrite app_nil_r.
  - cbn [for_each] in Hloop. apply bind_Ok in Hloop as (rows1 & Hstep & Hloop).
    apply insert_individual_Ok in Hstep as [Hfresh ->].
    destruct (IH _ Hloop) as [-> Hnd]. split.
    + by rewrite <- app_assoc.
    + intros Hpk. apply Hnd. rewrite fmap_app. apply NoDup_app.
      split; [done|]. split; [|apply NoDup_singleton].
      intros x Hx Hx'. apply list_elem_of_singleton in Hx'. by subst.
Qed.

Lemma insert_loop_succeeds es rows :
  NoDup ((row_id <$> rows) ++ es.*1.*1) →
  for_each insert_individual es rows = Ok (rows ++ (new_row <$> es)).
Proof.
  revert rows. induction es as [|e es IH]; intros rows Hnd.
  - simpl. by rewrite app_nil_r.
  - cbn [for_each]. unfold insert_individual at 1. rewrite decide_False.
    + cbn [bind]. rewrite IH.
      * by rewrite <- app_assoc.
      * rewrite fmap_app, <- app_assoc. done.
    + apply NoDup_app in Hnd as (_ & Hdisj & _). intros Hin.
      apply (Hdisj _ Hin). rewrite !fmap_cons. apply elem_of_cons; auto.
Qed.

Lemma reconcile_sound inds rows (sql_ids : gmap Z Z) rows' :
  NoDup (row_id <$> rows) →
  reconcile inds rows = Ok (sql_ids, rows') →
  NoDup (row_id <$> rows') ∧
  (∀ i j r, sql_ids !! i = Some r → sql_ids !! j = Some r → i = j) ∧
  (∀ i r, sql_ids !! i = Some r → r ∈ row_id <$> rows').
Proof.
  intros Hpk Hrec. destruct rows as [|row rows]; cbn [reconcile] in Hrec.
  - apply bind_Ok in Hrec as (rows1 & Hins & [= <- <-]).
    apply insert_loop_Ok in Hins as [-> Hnd]. split; [by apply Hnd|].
    split.
    + intros i j r Hi Hj. rewrite sql_ids_identity_lookup in Hi, Hj.
      repeat case_decide; congruence.
    + intros i r Hi. rewrite sql_ids_identity_lookup in Hi.
      case_decide as Hin; [|done]. injection Hi as <-.
      rewrite app_nil_l, <- !list_fmap_compose.
      unfold dict_values in Hin.
      apply list_elem_of_fmap in Hin as (e & -> & Hin).
      apply list_elem_of_fmap. exists e. done.
  - apply bind_Ok in Hrec as (m & Hm & [= <- <-]). split; [done|]. split.
    + intros i j r Hi Hj. by eapply (sql_ids_of_rows_inj inds (row :: rows)).
    + intros i r Hi. by eapply (sql_ids_of_rows_range inds (row :: rows)).
Qed.

(** ** One allele *)

Lemma where_eq_elem_of (gs : list Z) (a j : Z) :
  j ∈ where_eq gs a ↔ ∃ n : nat, j = Z.of_nat n ∧ gs !! n = Some a.
Proof.
  unfold where_eq, enumerate. rewrite list_elem_of_fmap. split.
  - intros ([j' g] & -> & Hin). apply list_elem_of_filter in Hin as [Hg Hin].
    simpl in Hg. subst g. apply elem_of_enumerate_from in Hin as (n & -> & Hn).
    exists n. split; [simpl; lia|done].
  - intros (n & -> & Hn). exists (Z.of_nat n, a). split; [done|].
    apply list_elem_of_filter. split; [done|].
    apply elem_of_enumerate_from. exists n. split; [lia|done].
Qed.

Lemma node_Ok ts (n : nat) nd :
  node ts (Z.of_nat n) = Ok nd ↔ ts_nodes ts !! n = Some nd.
Proof.
  unfold node, table_get. rewrite expect_Ok.
  rewrite decide_False by lia. by rewrite Nat2Z.id.
Qed.

(** Who is in the carrier set. *)
Lemma individual_ids_of_elem_of ts v i ids p :
  individual_ids_of ts v i = Ok ids →
  p ∈ ids ↔
  ∃ (n : nat) nd, genotypes v !! n = Some i ∧ ts_nodes ts !! n = Some nd ∧
                  node_individual nd = p.
Proof.
  unfold individual_ids_of. intros H.
  apply bind_Ok in H as (full_nodes & Hnodes & [= <-]).
  apply comprehension_Ok in Hnodes.
  rewrite elem_of_list_to_set, list_elem_of_fmap. split.
  - intros (nd & -> & Hin).
    apply list_elem_of_lookup in Hin as [k Hk].
    destruct (Forall2_lookup_r _ _ _ _ _ Hnodes Hk) as (j & Hj & Hnd).
    apply list_elem_of_lookup_2, where_eq_elem_of in Hj as (n & -> & Hn).
    apply node_Ok in Hnd. eauto.
  - intros (n & nd & Hn & Hnd & <-).
    assert (Z.of_nat n ∈ where_eq (genotypes v) i) as Hin
      by (apply where_eq_elem_of; eauto).
    apply list_elem_of_lookup in Hin as [k Hk].
    destruct (Forall2_lookup_l _ _ _ _ _ Hnodes Hk) as (nd' & Hnd' & Hok).
    apply node_Ok in Hok. rewrite Hnd in Hok. injection Hok as <-.
    exists nd. split; [done|]. by eapply list_elem_of_lookup_2.
Qed.

Section Event.
Context (regions : gmap (string * string) string) (ts : TreeSequence)
        (iregs : gmap Z string) (sql_ids : gmap Z Z).

Lemma process_allele_Ok v db i a db' :
  counted (i, a) →
  process_allele regions ts iregs sql_ids v db (i, a) = Ok db' ↔
  ∃ ids c sids,
    individual_ids_of ts v i = Ok ids ∧
    choose_column regions iregs ids = Ok c ∧
    Forall2 (λ p rid, sql_ids !! p = Some rid) (elements ids) sids ∧
    db' = {| tbl_individual := update_individuals c (tbl_individual db) sids;
             tbl_num_regions := update_num_regions c (tbl_num_regions db) |}.
Proof.
  intros (Hi & Hnone & Hempty). simpl in *. unfold process_allele.
  rewrite (bool_decide_eq_false_2 _ Hi).
  destruct a as [a|]; [|done]. cbn [not_allele orb].
  rewrite bool_decide_eq_false_2 by congruence. split.
  - intros H. apply bind_Ok in H as (ids & Hids & H).
    apply bind_Ok in H as (c & Hc & H).
    apply bind_Ok in H as (sids & Hsids & [= <-]).
    apply comprehension_expect in Hsids. by exists ids, c, sids.
  - intros (ids & c & sids & Hids & Hc & Hsids & ->).
    rewrite Hids. cbn [bind]. rewrite Hc. cbn [bind].
    apply (comprehension_expect KeyError_sql_ids (λ p, sql_ids !! p)) in Hsids.
    by rewrite Hsids.
Qed.

(** The ids handed to [executemany] are the images of the carriers, each
    one once when the dictionary is one-to-one. *)
Lemma sql_ids_of_carriers (ids : gset Z) (sids : list Z) :
  (∀ i j r, sql_ids !! i = Some r → sql_ids !! j = Some r → i = j) →
  Forall2 (λ p rid, sql_ids !! p = Some rid) (elements ids) sids →
  NoDup sids ∧
  (∀ rid, rid ∈ sids ↔ ∃ p, p ∈ ids ∧ sql_ids !! p = Some rid).
Proof.
  intros Hinj Hsids. split.
  - apply NoDup_alt. intros k1 k2 rid H1 H2.
    destruct (Forall2_lookup_r _ _ _ _ _ Hsids H1) as (p1 & Hp1 & Hs1).
    destruct (Forall2_lookup_r _ _ _ _ _ Hsids H2) as (p2 & Hp2 & Hs2).
    assert (p1 = p2) as -> by eauto.
    by apply (proj1 (NoDup_alt (elements ids)) (NoDup_elements ids) k1 k2 p2).
  - intros rid. split.
    + intros Hin. apply list_elem_of_lookup in Hin as [k Hk].
      destruct (Forall2_lookup_r _ _ _ _ _ Hsids Hk) as (p & Hp & Hs).
      exists p. split; [|done]. apply elem_of_elements.
      by eapply list_elem_of_lookup_2.
    + intros (p & Hp & Hs). apply elem_of_elements in Hp.
      apply list_elem_of_lookup in Hp as [k Hk].
      destruct (Forall2_lookup_l _ _ _ _ _ Hsids Hk) as (rid' & Hrid & Hs').
      rewrite Hs in Hs'. injection Hs' as <-. by eapply list_elem_of_lookup_2.
Qed.
End Event.

(** ** The increments of one allele *)

Section Increments.
Context (regions : gmap (string * string) string) (ts : TreeSequence)
        (iregs : gmap Z string).

(** What one allele that is not skipped does to the two tables, when the
    ids come from the reconciliation of a table with a primary key. *)
Lemma process_allele_effect inds rows0 (sql_ids : gmap Z Z) rows1 v db db' i a ids :
  NoDup (row_id <$> rows0) →
  reconcile inds rows0 = Ok (sql_ids, rows1) →
  counted (i, a) →
  individual_ids_of ts v i = Ok ids →
  process_allele regions ts iregs sql_ids v db (i, a) = Ok db' →
  ∃ c sids,
    choose_column regions iregs ids = Ok c ∧
    NoDup sids ∧
    (∀ rid, rid ∈ sids ↔ ∃ p, p ∈ ids ∧ sql_ids !! p = Some rid) ∧
    (∀ p, p ∈ ids → ∃ rid, sql_ids !! p = Some rid ∧ rid ∈ row_id <$> rows1) ∧
    tbl_individual db' =
      (λ r, if decide (row_id r ∈ sids) then increment c r else r)
        <$> tbl_individual db ∧
    tbl_num_regions db' = update_num_regions c (tbl_num_regions db).
Proof.
  intros Hpk Hrec Hcounted Hids Hev.
  apply process_allele_Ok in Hev as (ids' & c & sids & Hids' & Hc & Hsids & ->);
    [|done].
  rewrite Hids in Hids'. injection Hids' as <-.
  destruct (reconcile_sound _ _ _ _ Hpk Hrec) as (_ & Hinj & Hrange).
  destruct (sql_ids_of_carriers sql_ids ids sids Hinj Hsids) as [Hnd Hmem].
  exists c, sids. split; [done|]. split; [done|]. split; [done|].
  split; [|split].
  - intros p Hp. apply elem_of_elements in Hp.
    apply list_elem_of_lookup in Hp as [k Hk].
    destruct (Forall2_lookup_l _ _ _ _ _ Hsids Hk) as (rid & _ & Hs). eauto.
  - cbn [tbl_individual]. by apply update_individuals_NoDup.
  - done.
Qed.

(** C2. For an allele that is aggregated, every individual of the carrier
    set has one stored row, and in that row the counter of the chosen
    category goes up by one while the other three counters, the id, the
    name and the region stay as they were: one category per carrier and
    per allele. *)
Theorem carrier_counters_exclusive
    inds rows0 (sql_ids : gmap Z Z) rows1 v db db' i a ids :
  NoDup (row_id <$> rows0) →
  reconcile inds rows0 = Ok (sql_ids, rows1) →
  row_id <$> tbl_individual db = row_id <$> rows1 →
  counted (i, a) →
  individual_ids_of ts v i = Ok ids →
  process_allele regions ts iregs sql_ids v db (i, a) = Ok db' →
  ∃ c,
    choose_column regions iregs ids = Ok c ∧
    ∀ p, p ∈ ids →
      ∃ rid (k : nat) r r',
        sql_ids !! p = Some rid ∧
        tbl_individual db !! k = Some r ∧ row_id r = rid ∧
        (∀ (k2 : nat) r2, tbl_individual db !! k2 = Some r2 →
                          row_id r2 = rid → k2 = k) ∧
        tbl_individual db' !! k = Some r' ∧
        row_id r' = row_id r ∧ row_name r' = row_name r ∧
        row_region r' = row_region r ∧
        counter c r' = counter c r + 1 ∧
        ∀ c', c' ≠ c → counter c' r' = counter c' r.
Proof.
  intros Hpk Hrec Hsame Hcounted Hids Hev.
  destruct (process_allele_effect _ _ _ _ _ _ _ _ _ _ Hpk Hrec Hcounted Hids Hev)
    as (c & sids & Hc & Hnd & Hmem & Hrange & Hrows & _).
  destruct (reconcile_sound _ _ _ _ Hpk Hrec) as (Hpk1 & _ & _).
  exists c. split; [done|]. intros p Hp.
  destruct (Hrange p Hp) as (rid & Hs & Hin).
  rewrite <- Hsame in Hin, Hpk1.
  apply list_elem_of_fmap in Hin as (r & -> & Hin).
  apply list_elem_of_lookup in Hin as [k Hk].
  exists (row_id r), k, r, (increment c r).
  split; [done|]. split; [done|]. split; [done|]. split; [|split].
  - intros k2 r2 Hk2 Heq.
    apply (proj1 (NoDup_alt _) Hpk1 k2 k (row_id r));
      rewrite list_lookup_fmap; [by rewrite Hk2, <- Heq | by rewrite Hk].
  - rewrite Hrows, list_lookup_fmap, Hk. cbn [fmap option_fmap option_map].
    rewrite decide_True; [done|]. apply Hmem. eauto.
  - split; [apply increment_id|]. split; [apply increment_name|].
    split; [apply increment_region|]. split; [apply increment_counter_same|].
    intros c' Hne. by apply increment_counter_other.
Qed.

(** C3. The carrier set of an allele is the set of the individuals that
    own a node whose genotype is that allele.  Aggregating the allele adds
    exactly one to the counter of the chosen category in the row of every
    carrier, leaves the other counters, the id, the name and the region of
    that row as they were, changes no other row, and adds exactly one to
    the total of the chosen category, and to no other total, however many
    carriers there are. *)
Theorem allele_increments
    inds rows0 (sql_ids : gmap Z Z) rows1 v db db' i a ids :
  NoDup (row_id <$> rows0) →
  reconcile inds rows0 = Ok (sql_ids, rows1) →
  row_id <$> tbl_individual db = row_id <$> rows1 →
  counted (i, a) →
  individual_ids_of ts v i = Ok ids →
  process_allele regions ts iregs sql_ids v db (i, a) = Ok db' →
  (∀ p, p ∈ ids ↔
        ∃ (n : nat) nd, genotypes v !! n = Some i ∧
                        ts_nodes ts !! n = Some nd ∧ node_individual nd = p) ∧
  ∃ c,
    choose_column regions iregs ids = Ok c ∧
    length (tbl_individual db') = length (tbl_individual db) ∧
    (∀ p, p ∈ ids →
       ∃ (k : nat) r r',
         sql_ids !! p = Some (row_id r) ∧
         tbl_individual db !! k = Some r ∧
         tbl_individual db' !! k = Some r' ∧
         counter c r' = counter c r + 1) ∧
    (∀ (k : nat) r r',
       tbl_individual db !! k = Some r → tbl_individual db' !! k = Some r' →
       row_identity r' = row_identity r ∧
       ((∃ p, p ∈ ids ∧ sql_ids !! p = Some (row_id r)) →
        counter c r' = counter c r + 1 ∧
        ∀ c', c' ≠ c → counter c' r' = counter c' r) ∧
       ((∀ p, p ∈ ids → sql_ids !! p ≠ Some (row_id r)) → r' = r)) ∧
    length (tbl_num_regions db') = length (tbl_num_regions db) ∧
    (∀ (k : nat) name number,
       tbl_num_regions db !! k = Some (name, number) →
       tbl_num_regions db' !! k =
         Some (name, if decide (name = column_name c) then number + 1
                     else number)).
Proof.
  intros Hpk Hrec Hsame Hcounted Hids Hev.
  destruct (process_allele_effect _ _ _ _ _ _ _ _ _ _ Hpk Hrec Hcounted Hids Hev)
    as (c & sids & Hc & Hnd & Hmem & Hrange & Hrows & Htot).
  split; [intros p; by apply individual_ids_of_elem_of|].
  exists c. split; [done|]. split; [by rewrite Hrows, length_fmap|].
  split; [|split; [|split]].
  - intros p Hp. destruct (Hrange p Hp) as (rid & Hs & Hin).
    rewrite <- Hsame in Hin.
    apply list_elem_of_fmap in Hin as (r & -> & Hin).
    apply list_elem_of_lookup in Hin as [k Hk].
    exists k, r, (increment c r). split; [done|]. split; [done|]. split.
    + rewrite Hrows, list_lookup_fmap, Hk. cbn [fmap option_fmap option_map].
      rewrite decide_True; [done|]. apply Hmem. eauto.
    + apply increment_counter_same.
  - intros k r r' Hk Hk'. rewrite Hrows, list_lookup_fmap, Hk in Hk'.
    cbn [fmap option_fmap option_map] in Hk'. injection Hk' as <-.
    split; [|split].
    + unfold row_identity. case_decide; [|done].
      by rewrite increment_id, increment_name, increment_region.
    + intros Hcar. rewrite decide_True by (by apply Hmem).
      split; [apply increment_counter_same|].
      intros c' Hne. by apply increment_counter_other.
    + intros Hnot. rewrite decide_False; [done|].
      intros Hin. apply Hmem in Hin as (p & Hp & Hs). by apply (Hnot p).
  - rewrite Htot. unfold update_num_regions. by rewrite length_fmap.
  - intros k name number Hk. rewrite Htot, update_num_regions_lookup, Hk.
    cbn [fmap option_fmap option_map fst snd]. by case_decide.
Qed.
End Increments.

(** ** What the aggregation never touches *)

Lemma for_each_preserves {A S B : Type} (body : S → A → result S) (f : S → B)
    (l : list A) (s s' : S) :
  (∀ s a s', body s a = Ok s' → f s' = f s) →
  for_each body l s = Ok s' → f s' = f s.
Proof.
  intros Hbody. revert s. induction l as [|a l IH]; intros s Hloop.
  - by injection Hloop as <-.
  - cbn [for_each] in Hloop. apply bind_Ok in Hloop as (s1 & Hstep & Hloop).
    rewrite (IH _ Hloop). by eapply Hbody.
Qed.

Lemma increment_identity c r : row_identity (increment c r) = row_identity r.
Proof. by destruct c. Qed.

Lemma update_individuals_identity c rows ids :
  row_identity <$> update_individuals c rows ids = row_identity <$> rows.
Proof.
  unfold update_individuals. revert rows.
  induction ids as [|i ids IH]; intros rows; cbn [foldl]; [done|].
  rewrite IH. unfold update_individual. rewrite <- list_fmap_compose.
  apply list_fmap_ext. intros _ r _. unfold compose.
  case_decide; [apply increment_identity | done].
Qed.

Lemma update_num_regions_names c tbl : (update_num_regions c tbl).*1 = tbl.*1.
Proof.
  unfold update_num_regions. rewrite <- list_fmap_compose.
  apply list_fmap_ext. intros _ nk _. unfold compose. by case_decide.
Qed.

Lemma row_identity_ids (rows rows' : list Row) :
  row_identity <$> rows' = row_identity <$> rows → row_id <$> rows' = row_id <$> rows.
Proof.
  intros H. change row_id with (fst ∘ fst ∘ row_identity).
  by rewrite !(list_fmap_compose row_identity), H.
Qed.

Lemma row_identity_names (rows rows' : list Row) :
  row_identity <$> rows' = row_identity <$> rows →
  row_name <$> rows' = row_name <$> rows.
Proof.
  intros H. change row_name with (snd ∘ fst ∘ row_identity).
  by rewrite !(list_fmap_compose row_identity), H.
Qed.

Section Identity.
Context (regions : gmap (string * string) string) (ts : TreeSequence)
        (iregs : gmap Z string) (sql_ids : gmap Z Z).

Lemma process_allele_identity v db x db' :
  process_allele regions ts iregs sql_ids v db x = Ok db' →
  row_identity <$> tbl_individual db' = row_identity <$> tbl_individual db ∧
  (tbl_num_regions db').*1 = (tbl_num_regions db).*1.
Proof.
  destruct x as [i a]. destruct (decide (counted (i, a))) as [Hc|Hc].
  - intros H. apply process_allele_Ok in H as (ids & c & sids & _ & _ & _ & ->);
      [|done].
    split; [apply update_individuals_identity | apply update_num_regions_names].
  - rewrite process_allele_not_counted by done. by intros [= <-].
Qed.

Lemma process_variant_identity db v db' :
  process_variant regions ts iregs sql_ids db v = Ok db' →
  row_identity <$> tbl_individual db' = row_identity <$> tbl_individual db ∧
  (tbl_num_regions db').*1 = (tbl_num_regions db).*1.
Proof.
  unfold process_variant. intros H. split.
  - apply (for_each_preserves _ (λ s, row_identity <$> tbl_individual s) _ _ _) in H;
      [done|]. intros s a s' Hs. by apply process_allele_identity in Hs as [-> _].
  - apply (for_each_preserves _ (λ s, (tbl_num_regions s).*1) _ _ _) in H;
      [done|]. intros s a s' Hs. by apply process_allele_identity in Hs as [_ ->].
Qed.

Lemma aggregate_identity db db' :
  aggregate regions ts iregs sql_ids db = Ok db' →
  row_identity <$> tbl_individual db' = row_identity <$> tbl_individual db ∧
  (tbl_num_regions db').*1 = (tbl_num_regions db).*1.
Proof.
  unfold aggregate. intros H. split.
  - apply (for_each_preserves _ (λ s, row_identity <$> tbl_individual s) _ _ _) in H;
      [done|]. intros s a s' Hs. by apply process_variant_identity in Hs as [-> _].
  - apply (for_each_preserves _ (λ s, (tbl_num_regions s).*1) _ _ _) in H;
      [done|]. intros s a s' Hs. by apply process_variant_identity in Hs as [_ ->].
Qed.
End Identity.

Lemma fill_Ok regions db ts db' :
  fill regions db ts = Ok db' ↔
  ∃ st sql_ids rows,
    resolve regions ts = Ok st ∧
    reconcile (individuals st) (tbl_individual db) = Ok (sql_ids, rows) ∧
    aggregate regions ts (individual_regions st) sql_ids
      {| tbl_individual := rows; tbl_num_regions := tbl_num_regions db |} = Ok db' ∧
    ts_variants ts ≠ [].
Proof.
  unfold fill. split.
  - intros H. apply bind_Ok in H as (st & Hst & H).
    apply bind_Ok in H as ([sql_ids rows] & Hrec & H).
    apply bind_Ok in H as (db1 & Hagg & H).
    destruct (ts_variants ts) eqn:Hv; [done|]. injection H as <-.
    by exists st, sql_ids, rows.
  - intros (st & sql_ids & rows & -> & Hrec & Hagg & Hv). cbn [bind].
    rewrite Hrec. cbn [bind]. rewrite Hagg. cbn [bind].
    by destruct (ts_variants ts).
Qed.

(** ** Datasets whose individuals all have a name of their own *)

Section Named.
Context (regions : gmap (string * string) string) (ts : TreeSequence).

Lemma dispatch_named ind st nm :
  name_of ind = Some nm →
  (dispatch (individual_metadata ind) st).2 = Some nm.
Proof.
  unfold name_of, dispatch.
  destruct (metadata_source (individual_metadata ind)) as [[src n]|]; [|done].
  by intros [= <-].
Qed.

(** With names that are all there and all different, every iteration
    appends one entry to [individuals]. *)
Lemma resolve_loop_named k inds st st' :
  Forall (λ ind, is_Some (name_of ind)) inds →
  NoDup (name_of <$> inds) →
  (∀ ind nm, ind ∈ inds → name_of ind = Some nm → nm ∉ (individuals st).*1) →
  for_each (resolve_individual regions ts) (enumerate_from k inds) st = Ok st' →
  ∃ es,
    individuals st' = individuals st ++ es ∧
    Forall2 (λ x ne, name_of x.2 = Some ne.1 ∧ entry_id ne.2 = x.1)
            (enumerate_from k inds) es.
Proof.
  revert k st. induction inds as [|ind inds IH]; intros k st Hall Hnd Hfresh Hloop.
  - injection Hloop as <-. exists []. split; [by rewrite app_nil_r|constructor].
  - cbn [enumerate_from for_each] in Hloop.
    apply bind_Ok in Hloop as (st1 & Hstep & Hloop).
    apply Forall_cons in Hall as [[nm Hnm] Hall].
    rewrite fmap_cons in Hnd. apply NoDup_cons in Hnd as [Hnew Hnd].
    apply resolve_individual_Ok in Hstep
      as (src & nm' & pn & region & Hd & _ & _ & Hst1).
    pose proof (dispatch_named ind st nm Hnm) as Hd'.
    rewrite Hd in Hd'. injection Hd' as ->.
    assert (nm ∉ (individuals st).*1) as Hnm_fresh.
    { apply (Hfresh ind nm); [apply elem_of_cons; auto|done]. }
    assert (∃ e, entry_id e = k ∧ individuals st1 = individuals st ++ [(nm, e)])
      as (e & He & Hinds1).
    { eexists. split; [|subst st1; cbn [individuals]; by rewrite dict_set_fresh].
      done. }
    destruct (IH (k + 1) st1 Hall Hnd) as (es & Hes & Hes2); [|done|].
    { intros ind2 nm2 Hin2 Hnm2. rewrite Hinds1, fmap_app. intros Hin.
      apply elem_of_app in Hin as [Hin|Hin].
      - revert Hin. apply (Hfresh ind2 nm2); [apply elem_of_cons; auto|done].
      - apply list_elem_of_singleton in Hin. simpl in Hin.
        apply Hnew. rewrite Hnm, <- Hin, <- Hnm2. by apply list_elem_of_fmap_2. }
    exists ((nm, e) :: es). split.
    + by rewrite Hes, Hinds1, <- app_assoc.
    + by constructor.
Qed.

Lemma resolve_named st :
  Forall (λ ind, is_Some (name_of ind)) (ts_individuals ts) →
  NoDup (name_of <$> ts_individuals ts) →
  resolve regions ts = Ok st →
  Forall2 (λ x ne, name_of x.2 = Some ne.1 ∧ entry_id ne.2 = x.1)
          (enumerate (ts_individuals ts)) (individuals st).
Proof.
  intros Hall Hnd Hres.
  destruct (resolve_loop_named 0 _ locals0 st Hall Hnd) as (es & Hes & Hes2);
    [|done|].
  - intros ind nm _ _. cbn. apply not_elem_of_nil.
  - cbn [individuals locals0 app] in Hes. by rewrite Hes.
Qed.
End Named.

(** ** The first run *)

Section FirstRun.
Context (regions : gmap (string * string) string) (ts : TreeSequence).

Lemma reconcile_empty_Ok st k :
  resolved regions k st →
  reconcile (individuals st) [] =
    Ok (sql_ids_identity (individuals st),
        new_row <$> ((λ e, (entry_id e, entry_name e, entry_region e))
                       <$> dict_values (individuals st))).
Proof.
  intros Hinv. cbn [reconcile]. rewrite insert_loop_succeeds; [done|].
  rewrite fmap_nil, app_nil_l, <- !list_fmap_compose.
  apply (resolved_ids _ _ _ Hinv).
Qed.

(** C10. On a store whose individual table is empty, for a dataset whose
    individuals all have a name and no name twice, the reconciliation
    inserts one row per individual of the dataset, in order: its id is the
    id of the individual in the tree sequence, its name and region are
    those of the individual, and its four counters are zero.  The
    dictionary [sql_ids] sends every id to itself.  The rows keep their
    id, name and region to the end of [fill]. *)
Theorem first_run_inserts_every_individual st :
  Forall (λ ind, is_Some (name_of ind)) (ts_individuals ts) →
  NoDup (name_of <$> ts_individuals ts) →
  resolve regions ts = Ok st →
  ∃ (sql_ids : gmap Z Z) rows,
    reconcile (individuals st) [] = Ok (sql_ids, rows) ∧
    Forall2 (λ x r, row_id r = x.1 ∧
                    name_of x.2 = Some (row_name r) ∧
                    individual_regions st !! x.1 = Some (row_region r) ∧
                    ∀ c, counter c r = 0)
            (enumerate (ts_individuals ts)) rows ∧
    (∀ i ind, (i, ind) ∈ enumerate (ts_individuals ts) → sql_ids !! i = Some i) ∧
    (∀ i j, sql_ids !! i = Some j → j = i) ∧
    (∀ db db', tbl_individual db = [] → fill regions db ts = Ok db' →
       row_identity <$> tbl_individual db' = row_identity <$> rows).
Proof.
  intros Hall Hnd Hres.
  pose proof (resolve_resolved regions ts st Hres) as Hinv.
  pose proof (resolve_named regions ts st Hall Hnd Hres) as Hnamed.
  pose proof (reconcile_empty_Ok st _ Hinv) as Hrec.
  eexists _, _. split; [exact Hrec|]. split; [|split; [|split]].
  - unfold dict_values. rewrite <- !list_fmap_compose.
    apply Forall2_fmap_r.
    apply Forall2_same_length_lookup_2; [by eapply Forall2_length|].
    intros k [i ind] [n e] Hk Hk'.
    destruct (Forall2_lookup_lr _ _ _ _ _ _ Hnamed Hk Hk') as [Hn Hi].
    apply list_elem_of_lookup_2 in Hk'.
    destruct (resolved_entries _ _ _ Hinv n e Hk') as (Hname & Hreg & _).
    simpl in *. unfold compose. cbn.
    split; [done|]. split; [congruence|]. split; [congruence|]. by intros [].
  - intros i ind Hin. rewrite sql_ids_identity_lookup.
    rewrite decide_True; [done|].
    apply list_elem_of_lookup in Hin as [k Hk].
    destruct (Forall2_lookup_l _ _ _ _ _ Hnamed Hk) as ([n e] & Hk' & _ & Hi).
    simpl in Hi. subst i. apply list_elem_of_fmap_2.
    apply list_elem_of_fmap. exists (n, e). split; [done|].
    by eapply list_elem_of_lookup_2.
  - intros i j Hi. rewrite sql_ids_identity_lookup in Hi.
    case_decide; congruence.
  - intros db db' Hempty Hfill.
    apply fill_Ok in Hfill as (st' & sql_ids' & rows' & Hres' & Hrec' & Hagg & _).
    rewrite Hres in Hres'. injection Hres' as <-.
    rewrite Hempty, Hrec in Hrec'. injection Hrec' as <- <-.
    by apply aggregate_identity in Hagg as [-> _].
Qed.
End FirstRun.

(** ** Later runs *)

Section LaterRuns.
Context (regions : gmap (string * string) string) (ts : TreeSequence).

Lemma resolve_named_lookup st i ind nm :
  Forall (λ ind, is_Some (name_of ind)) (ts_individuals ts) →
  NoDup (name_of <$> ts_individuals ts) →
  resolve regions ts = Ok st →
  (i, ind) ∈ enumerate (ts_individuals ts) →
  name_of ind = Some nm →
  ∃ e, dict_get nm (individuals st) = Some e ∧ entry_id e = i.
Proof.
  intros Hall Hnd Hres Hin Hnm.
  pose proof (resolve_resolved regions ts st Hres) as Hinv.
  pose proof (resolve_named regions ts st Hall Hnd Hres) as Hnamed.
  apply list_elem_of_lookup in Hin as [k Hk].
  destruct (Forall2_lookup_l _ _ _ _ _ Hnamed Hk) as ([n e] & Hk' & Hn & Hi).
  simpl in *. rewrite Hnm in Hn. injection Hn as <-.
  exists e. split; [|done].
  apply dict_get_NoDup; [apply (resolved_names _ _ _ Hinv)|].
  by eapply list_elem_of_lookup_2.
Qed.

(** C6. On a store that already has individuals, with ids and names that
    are unique in it, and for a dataset whose individuals all have a name
    of their own, the reconciliation inserts nothing and builds [sql_ids]
    by name: the id of a dataset individual is sent to the id of the stored
    row of its name, and a dataset individual whose name no stored row has
    is sent nowhere.  An aggregated allele adds one to the counter of the
    chosen category in the row whose stored id is the image of a carrier,
    and leaves the other counters, the id, the name and the region of that
    row as they were.  The rows of the store keep their id, name and region
    through [fill], and none is added or removed. *)
Theorem later_run_reconciles_by_name st db (sql_ids : gmap Z Z) rows :
  NoDup (row_id <$> tbl_individual db) →
  NoDup (row_name <$> tbl_individual db) →
  tbl_individual db ≠ [] →
  Forall (λ ind, is_Some (name_of ind)) (ts_individuals ts) →
  NoDup (name_of <$> ts_individuals ts) →
  resolve regions ts = Ok st →
  reconcile (individuals st) (tbl_individual db) = Ok (sql_ids, rows) →
  rows = tbl_individual db ∧
  (∀ i ind row,
     (i, ind) ∈ enumerate (ts_individuals ts) →
     row ∈ tbl_individual db →
     name_of ind = Some (row_name row) →
     sql_ids !! i = Some (row_id row)) ∧
  (∀ i ind nm,
     (i, ind) ∈ enumerate (ts_individuals ts) →
     name_of ind = Some nm →
     nm ∉ row_name <$> tbl_individual db →
     sql_ids !! i = None) ∧
  (∀ v dbc dbc' i a ids p (k : nat) r,
     counted (i, a) →
     individual_ids_of ts v i = Ok ids →
     process_allele regions ts (individual_regions st) sql_ids v dbc (i, a)
       = Ok dbc' →
     p ∈ ids →
     sql_ids !! p = Some (row_id r) →
     tbl_individual dbc !! k = Some r →
     ∃ c r',
       choose_column regions (individual_regions st) ids = Ok c ∧
       tbl_individual dbc' !! k = Some r' ∧
       row_identity r' = row_identity r ∧
       counter c r' = counter c r + 1 ∧
       ∀ c', c' ≠ c → counter c' r' = counter c' r) ∧
  (∀ db', fill regions db ts = Ok db' →
          row_identity <$> tbl_individual db' =
            row_identity <$> tbl_individual db).
Proof.
  intros Hpk Hnames Hne Hall Hnd Hres Hrec.
  pose proof (resolve_resolved regions ts st Hres) as Hinv.
  assert (rows = tbl_individual db ∧
          sql_ids_of_rows (individuals st) (tbl_individual db) = Ok sql_ids)
    as [-> Hsql].
  { destruct (tbl_individual db) as [|row0 rows0]; [done|].
    cbn [reconcile] in Hrec. apply bind_Ok in Hrec as (m & Hm & [= <- <-]).
    done. }
  split; [done|]. split; [|split; [|split]].
  - intros i ind row Hin Hrow Hnm.
    destruct (resolve_named_lookup st i ind _ Hall Hnd Hres Hin Hnm)
      as (e & He & <-).
    eapply sql_ids_of_rows_lookup; [exact Hnames| |exact Hsql|exact Hrow|exact He].
    apply (resolved_ids _ _ _ Hinv).
  - intros i ind nm Hin Hnm Hnew.
    destruct (sql_ids !! i) as [rid|] eqn:Hi; [exfalso|done].
    destruct (resolve_named_lookup st i ind _ Hall Hnd Hres Hin Hnm)
      as (e & He & Hid).
    apply (sql_ids_loop_lookup _ _ _ _ _ _ Hsql) in Hi
      as [Hi|(row & e' & Hrow & He' & Hid' & _)]; [by rewrite lookup_empty in Hi|].
    destruct (decide (row_name row = nm)) as [Heq|Hneq].
    + apply Hnew. rewrite <- Heq. by apply list_elem_of_fmap_2.
    + apply (dict_get_values_NoDup entry_id _ _ _ _ _
               (resolved_ids _ _ _ Hinv) Hneq He' He). congruence.
  - intros v dbc dbc' i a ids p k r Hcounted Hids Hev Hp Hs Hk.
    destruct (process_allele_effect regions ts _ _ _ _ _ _ _ _ _ _ _
                Hpk Hrec Hcounted Hids Hev)
      as (c & sids & Hc & _ & Hmem & _ & Hrows & _).
    exists c, (increment c r). split; [done|]. split.
    + rewrite Hrows, list_lookup_fmap, Hk. cbn [fmap option_fmap option_map].
      rewrite decide_True; [done|]. apply Hmem. eauto.
    + split; [apply increment_identity|].
      split; [apply increment_counter_same|].
      intros c' Hc'. by apply increment_counter_other.
  - intros db' Hfill.
    apply fill_Ok in Hfill as (st' & sql_ids' & rows' & Hres' & Hrec' & Hagg & _).
    rewrite Hres in Hres'. injection Hres' as <-.
    rewrite Hrec in Hrec'. injection Hrec' as <- <-.
    by apply aggregate_identity in Hagg as [-> _].
Qed.
End LaterRuns.

(** ** Running [fill] again *)

Lemma add_counters_counter d r c : counter c (add_counters d r) = counter c r + d c.
Proof. by destruct c. Qed.

Lemma add_counters_identity d r : row_identity (add_counters d r) = row_identity r.
Proof. done. Qed.

Lemma add_counters_increment d c r :
  increment c (add_counters d r) = add_counters d (increment c r).
Proof. destruct c; unfold increment, add_counters; simpl; f_equal; lia. Qed.

Lemma update_individual_shift c (ds : list (Column → Z)) rows i :
  update_individual c (zip_with add_counters ds rows) i =
    zip_with add_counters ds (update_individual c rows i).
Proof.
  unfold update_individual. revert rows.
  induction ds as [|d ds IH]; intros [|r rows]; cbn; [done..|].
  f_equal; [|apply IH].
  case_decide; [apply add_counters_increment | done].
Qed.

Lemma update_individuals_shift c (ds : list (Column → Z)) rows ids :
  update_individuals c (zip_with add_counters ds rows) ids =
    zip_with add_counters ds (update_individuals c rows ids).
Proof.
  unfold update_individuals. revert rows.
  induction ids as [|i ids IH]; intros rows; cbn [foldl]; [done|].
  by rewrite update_individual_shift, IH.
Qed.

Lemma update_num_regions_shift c (ts : list Z) tbl :
  update_num_regions c (zip_with (λ t nk, (nk.1, nk.2 + t)) ts tbl) =
    zip_with (λ t nk, (nk.1, nk.2 + t)) ts (update_num_regions c tbl).
Proof.
  unfold update_num_regions. revert tbl.
  induction ts as [|t ts IH]; intros [|[n x] tbl]; cbn; [done..|].
  f_equal; [|apply IH].
  case_decide; cbn; [f_equal; lia | done].
Qed.

Lemma for_each_result_map {A S : Type} (body : S → A → result S) (g : S → S)
    (l : list A) (s : S) :
  (∀ s a, body (g s) a = result_map g (body s a)) →
  for_each body l (g s) = result_map g (for_each body l s).
Proof.
  intros Hbody. revert s. induction l as [|a l IH]; intros s; cbn [for_each]; [done|].
  rewrite Hbody. destruct (body s a) as [s1|e]; cbn; [apply IH | done].
Qed.

Section Shift.
Context (regions : gmap (string * string) string) (ts : TreeSequence)
        (iregs : gmap Z string) (sql_ids : gmap Z Z)
        (ds : list (Column → Z)) (tots : list Z).

Lemma process_allele_shift v db x :
  process_allele regions ts iregs sql_ids v (shift ds tots db) x =
    result_map (shift ds tots) (process_allele regions ts iregs sql_ids v db x).
Proof.
  destruct x as [i a]. unfold process_allele.
  destruct (bool_decide (i = 0) || not_allele a); [done|].
  destruct (individual_ids_of ts v i) as [ids|e]; [|done]. cbn [bind].
  destruct (choose_column regions iregs ids) as [c|e]; [|done]. cbn [bind].
  destruct (comprehension _ (elements ids)) as [sids|e]; [|done].
  cbn [bind result_map]. unfold shift. cbn [tbl_individual tbl_num_regions].
  by rewrite update_individuals_shift, update_num_regions_shift.
Qed.

Lemma aggregate_shift db :
  aggregate regions ts iregs sql_ids (shift ds tots db) =
    result_map (shift ds tots) (aggregate regions ts iregs sql_ids db).
Proof.
  unfold aggregate. apply for_each_result_map. intros s v.
  unfold process_variant. apply for_each_result_map. intros s' x.
  apply process_allele_shift.
Qed.
End Shift.

Lemma shift_diff_rows (rows1 rows0 : list Row) :
  row_identity <$> rows1 = row_identity <$> rows0 →
  zip_with add_counters
    (zip_with (λ r1 r0 c, counter c r1 - counter c r0) rows1 rows0) rows0 = rows1.
Proof.
  revert rows0. induction rows1 as [|r1 rows1 IH]; intros [|r0 rows0] H;
    try done.
  rewrite !fmap_cons in H. injection H as Hid Hname Hreg H.
  cbn. f_equal; [|by apply IH].
  destruct r1, r0. unfold add_counters. simpl in *. subst. f_equal; lia.
Qed.

Lemma shift_diff_totals (tots1 tots0 : list (string * Z)) :
  tots1.*1 = tots0.*1 →
  zip_with (λ t nk, (nk.1, nk.2 + t))
    (zip_with (λ x1 x0, x1.2 - x0.2) tots1 tots0) tots0 = tots1.
Proof.
  revert tots0. induction tots1 as [|[n1 x1] tots1 IH]; intros [|[n0 x0] tots0] H;
    try done.
  rewrite !fmap_cons in H. injection H as Hn H.
  cbn. f_equal; [|by apply IH]. simpl in Hn. subst. f_equal. lia.
Qed.

Section Again.
Context (inds : list (string * Entry)).

(** The dictionary of ids reads only the name and the id of a row. *)
Lemma sql_ids_loop_ext rows rows' (m0 : gmap Z Z) :
  row_identity <$> rows = row_identity <$> rows' →
  for_each (sql_ids_step inds) rows m0 = for_each (sql_ids_step inds) rows' m0.
Proof.
  revert rows' m0. induction rows as [|r rows IH]; intros [|r' rows'] m0 H;
    try done.
  rewrite !fmap_cons in H. injection H as Hid Hname Hreg H.
  cbn [for_each]. unfold sql_ids_step at 1 3. rewrite Hname, Hid.
  destruct (expect _ _) as [e|e]; cbn [bind]; [by apply IH | done].
Qed.

(** Read back, the rows of a first run give the dictionary of the first
    run. *)
Lemma sql_ids_loop_new_rows (es : list Entry) (m0 : gmap Z Z) :
  (∀ e, e ∈ es → dict_get (entry_name e) inds = Some e) →
  for_each (sql_ids_step inds)
    (new_row <$> ((λ e, (entry_id e, entry_name e, entry_region e)) <$> es)) m0 =
  Ok (foldl (λ m e, <[entry_id e := entry_id e]> m) m0 es).
Proof.
  revert m0. induction es as [|e es IH]; intros m0 Hes; [done|].
  rewrite !fmap_cons. cbn [for_each foldl]. unfold sql_ids_step at 1.
  cbn [new_row row_name row_id fst snd].
  rewrite (Hes e) by (apply elem_of_cons; auto). cbn [expect bind].
  apply IH. intros e' He'. apply Hes. apply elem_of_cons; auto.
Qed.
End Again.

Lemma reconcile_again regions k st rows0 (sql_ids : gmap Z Z) rowsR rows1 :
  resolved regions k st →
  reconcile (individuals st) rows0 = Ok (sql_ids, rowsR) →
  row_identity <$> rows1 = row_identity <$> rowsR →
  reconcile (individuals st) rows1 = Ok (sql_ids, rows1).
Proof.
  intros Hinv Hrec Hsame.
  assert (sql_ids_of_rows (individuals st) rowsR = Ok sql_ids ∨
          (rowsR = [] ∧ reconcile (individuals st) [] = Ok (sql_ids, []))) as Hcase.
  { destruct rows0 as [|row0 rows0'].
    - rewrite (reconcile_empty_Ok regions st k Hinv) in Hrec.
      injection Hrec as <- <-.
      destruct (individuals st) as [|ne es] eqn:Hes.
      + right. split; [done|]. by rewrite <- Hes, (reconcile_empty_Ok regions st k Hinv), Hes.
      + left. rewrite <- Hes. unfold sql_ids_of_rows, sql_ids_identity, dict_values.
        apply sql_ids_loop_new_rows. intros e He.
        apply list_elem_of_fmap in He as ([n e'] & -> & Hin).
        destruct (resolved_entries _ _ _ Hinv n e' Hin) as (Hn & _ & _).
        simpl. rewrite Hn. apply dict_get_NoDup; [|done].
        apply (resolved_names _ _ _ Hinv).
    - cbn [reconcile] in Hrec. apply bind_Ok in Hrec as (m & Hm & [= <- <-]).
      by left. }
  destruct Hcase as [Hsql|[-> Hrec0]].
  - destruct rows1 as [|r1 rows1'].
    + destruct rowsR as [|rR rowsR']; [|done].
      destruct rows0 as [|row0 rows0']; [|by cbn [reconcile] in Hrec;
        apply bind_Ok in Hrec as (m & Hm & [= <- ?])].
      by rewrite Hrec.
    + cbn [reconcile]. fold (sql_ids_of_rows (individuals st) (r1 :: rows1')).
      unfold sql_ids_of_rows in *. by rewrite (sql_ids_loop_ext _ _ rowsR _ Hsame), Hsql.
  - destruct rows1; [done|done].
Qed.

(** C5, as the code has it.  [fill] keeps no record of the files it has
    aggregated: run again on the store that a first run left, over the same
    dataset, it succeeds again and adds to every counter of every row and to
    every total exactly what the first run added to it.  The rows keep their
    id, name and region. *)
Theorem fill_again_adds_again regions db ts db1 :
  fill regions db ts = Ok db1 →
  ∃ db2,
    fill regions db1 ts = Ok db2 ∧
    row_identity <$> tbl_individual db2 = row_identity <$> tbl_individual db1 ∧
    (∀ (k : nat) r1, tbl_individual db1 !! k = Some r1 →
       ∃ r2, tbl_individual db2 !! k = Some r2 ∧
             ∀ c, counter c r2 =
                  counter c r1 +
                  (counter c r1 -
                   match tbl_individual db !! k with
                   | Some r0 => counter c r0
                   | None => 0
                   end)) ∧
    (tbl_num_regions db2).*1 = (tbl_num_regions db1).*1 ∧
    (∀ (k : nat) n0 x0 n1 x1,
       tbl_num_regions db !! k = Some (n0, x0) →
       tbl_num_regions db1 !! k = Some (n1, x1) →
       tbl_num_regions db2 !! k = Some (n1, x1 + (x1 - x0))).
Proof.
  intros Hfill.
  apply fill_Ok in Hfill as (st & sql_ids & rowsR & Hres & Hrec & Hagg & Hv).
  pose proof (resolve_resolved regions ts st Hres) as Hinv.
  set (dbR := {| tbl_individual := rowsR; tbl_num_regions := tbl_num_regions db |}) in *.
  destruct (aggregate_identity _ _ _ _ _ _ Hagg) as [Hid Htot].
  cbn [tbl_individual tbl_num_regions dbR] in Hid, Htot.
  set (ds := zip_with (λ r1 r0 c, counter c r1 - counter c r0)
               (tbl_individual db1) rowsR).
  set (tots := zip_with (λ x1 x0 : string * Z, x1.2 - x0.2)
                 (tbl_num_regions db1) (tbl_num_regions db)).
  assert (shift ds tots dbR = db1) as Hshift.
  { unfold shift, ds, tots. cbn [tbl_individual tbl_num_regions dbR].
    rewrite shift_diff_rows, shift_diff_totals by done. by destruct db1. }
  assert (fill regions db1 ts = Ok (shift ds tots db1)) as Hfill2.
  { apply fill_Ok. exists st, sql_ids, (tbl_individual db1).
    split; [done|]. split; [by eapply reconcile_again|]. split; [|done].
    replace {| tbl_individual := tbl_individual db1;
               tbl_num_regions := tbl_num_regions db1 |} with db1 by by destruct db1.
    rewrite <- Hshift at 1. by rewrite aggregate_shift, Hagg. }
  exists (shift ds tots db1). split; [done|].
  assert (length ds = length (tbl_individual db1)) as Hlen.
  { unfold ds. rewrite length_zip_with.
    apply (f_equal length) in Hid. rewrite !length_fmap in Hid. lia. }
  assert (length tots = length (tbl_num_regions db1)) as Hlent.
  { unfold tots. rewrite length_zip_with.
    apply (f_equal length) in Htot. rewrite !length_fmap in Htot. lia. }
  split; [|split; [|split]].
  - unfold shift. cbn [tbl_individual]. apply list_eq. intros k.
    rewrite !list_lookup_fmap, lookup_zip_with.
    destruct (ds !! k) as [d|] eqn:Hd; cbn.
    + by destruct (tbl_individual db1 !! k).
    + apply lookup_ge_None in Hd. rewrite Hlen in Hd.
      apply lookup_ge_None in Hd. by rewrite Hd.
  - intros k r1 Hk1.
    assert (∃ rR, rowsR !! k = Some rR) as [rR HkR].
    { apply lookup_lt_is_Some. apply lookup_lt_Some in Hk1.
      apply (f_equal length) in Hid. rewrite !length_fmap in Hid. lia. }
    exists (add_counters (λ c, counter c r1 - counter c rR) r1). split.
    + unfold shift. cbn [tbl_individual]. rewrite lookup_zip_with.
      unfold ds. rewrite lookup_zip_with, Hk1. cbn. by rewrite HkR.
    + intros c. rewrite add_counters_counter. f_equal. f_equal.
      destruct (tbl_individual db) as [|row0 rows0] eqn:Hdb.
      * rewrite (reconcile_empty_Ok regions st _ Hinv) in Hrec.
        injection Hrec as _ <-. rewrite lookup_nil.
        apply list_lookup_fmap_Some in HkR as (e & -> & He). by destruct c.
      * cbn [reconcile] in Hrec. apply bind_Ok in Hrec as (m & Hm & [= _ <-]).
        by rewrite HkR.
  - unfold shift. cbn [tbl_num_regions]. apply list_eq. intros k.
    rewrite !list_lookup_fmap, lookup_zip_with.
    destruct (tots !! k) as [t|] eqn:Ht; cbn.
    + by destruct (tbl_num_regions db1 !! k).
    + apply lookup_ge_None in Ht. rewrite Hlent in Ht.
      apply lookup_ge_None in Ht. by rewrite Ht.
  - intros k n0 x0 n1 x1 Hk0 Hk1.
    unfold shift. cbn [tbl_num_regions]. rewrite lookup_zip_with.
    unfold tots. by rewrite lookup_zip_with, Hk1, Hk0.
Qed.

(** ** fetch *)

Lemma string_lt_compare s1 s2 : string_lt s1 s2 ↔ String.compare s1 s2 = Lt.
Proof. unfold string_lt, String.ltb. by destruct (String.compare s1 s2). Qed.

Lemma string_lt_irrefl s : ¬ string_lt s s.
Proof.
  rewrite string_lt_compare.
  assert (String.compare s s = Eq) as -> by by apply OrderedTypeEx.String_as_OT.cmp_eq.
  done.
Qed.

Lemma string_lt_trans s1 s2 s3 : string_lt s1 s2 → string_lt s2 s3 → string_lt s1 s3.
Proof.
  rewrite !string_lt_compare. intros H1 H2.
  apply OrderedTypeEx.String_as_OT.cmp_lt.
  apply OrderedTypeEx.String_as_OT.cmp_lt in H1, H2.
  by eapply OrderedTypeEx.String_as_OT.lt_trans.
Qed.

Lemma string_lt_total s1 s2 : s1 ≠ s2 → ¬ string_lt s1 s2 → string_lt s2 s1.
Proof.
  rewrite !string_lt_compare. intros Hne Hlt.
  rewrite String.compare_antisym.
  destruct (String.compare s1 s2) eqn:Hc; [|done|done].
  by apply OrderedTypeEx.String_as_OT.cmp_eq in Hc.
Qed.

Lemma total_app c rows1 rows2 : total c (rows1 ++ rows2) = total c rows1 + total c rows2.
Proof.
  unfold total. induction rows1 as [|r rows1 IH]; [done|].
  rewrite <- app_comm_cons, !fmap_cons. cbn [foldr]. rewrite IH. lia.
Qed.

Lemma group_of_snoc region rows r :
  group_of region (rows ++ [r]) =
    group_of region rows ++ (if decide (row_region r = region) then [r] else []).
Proof.
  unfold group_of. by rewrite filter_app.
Qed.

Lemma group_ok_other rows r g :
  group_region g ≠ row_region r → group_ok rows g → group_ok (rows ++ [r]) g.
Proof.
  intros Hne (Hnil & Hcount & Hsum). unfold group_ok.
  rewrite group_of_snoc, decide_False by done. by rewrite app_nil_r.
Qed.

Lemma group_ok_step rows r g :
  group_region g = row_region r → group_ok rows g → group_ok (rows ++ [r]) (group_step g r).
Proof.
  intros Heq (Hnil & Hcount & Hsum). unfold group_ok. cbn [group_region group_step].
  rewrite group_of_snoc, decide_True by done. split; [|split].
  - by destruct (group_of (group_region g) rows).
  - unfold group_step. cbn [group_count]. rewrite length_app, Hcount.
    cbn [length]. lia.
  - intros c. rewrite total_app, <- Hsum. unfold total, group_step.
    destruct c; cbn; lia.
Qed.

Lemma group_ok_new rows r :
  group_of (row_region r) rows = [] → group_ok (rows ++ [r]) (group_new r).
Proof.
  intros Hnil. unfold group_ok. cbn [group_region group_new].
  rewrite group_of_snoc, decide_True, Hnil by done. split; [done|]. split; [done|].
  intros c. unfold total. destruct c; cbn; lia.
Qed.

Lemma group_add_regions r gs s :
  s ∈ group_region <$> group_add r gs ↔ s = row_region r ∨ s ∈ group_region <$> gs.
Proof.
  induction gs as [|g gs IH]; cbn [group_add].
  - rewrite fmap_cons, fmap_nil, elem_of_cons. cbn. tauto.
  - destruct (decide (row_region r = group_region g)) as [Heq|Hne].
    + rewrite !fmap_cons, !elem_of_cons. cbn. rewrite Heq. tauto.
    + destruct (String.ltb _ _).
      * rewrite !fmap_cons, !elem_of_cons. cbn. tauto.
      * rewrite !fmap_cons, !elem_of_cons, IH. tauto.
Qed.

Lemma sorted_head_not_in s ss :
  StronglySorted string_lt (s :: ss) → ∀ s', s' ∈ ss → string_lt s s'.
Proof.
  intros Hs s' Hin. apply StronglySorted_inv in Hs as [_ Hall].
  by apply (proj1 (Forall_forall _ _) Hall).
Qed.

Lemma group_add_sorted r gs :
  StronglySorted string_lt (group_region <$> gs) →
  StronglySorted string_lt (group_region <$> group_add r gs).
Proof.
  induction gs as [|g gs IH]; cbn [group_add]; intros Hs.
  - rewrite fmap_cons, fmap_nil. repeat constructor.
  - rewrite fmap_cons in Hs.
    pose proof (sorted_head_not_in _ _ Hs) as Hhead.
    apply StronglySorted_inv in Hs as [Hs Hall].
    destruct (decide (row_region r = group_region g)) as [Heq|Hne].
    + rewrite fmap_cons. by constructor.
    + destruct (String.ltb _ _) eqn:Hlt.
      * rewrite !fmap_cons. constructor; [by constructor|].
        cbn [group_region group_new]. apply Forall_cons. split; [done|].
        apply Forall_forall. intros s Hin.
        apply (string_lt_trans _ (group_region g)); [done|by apply Hhead].
      * rewrite fmap_cons. constructor; [by apply IH|].
        apply Forall_forall. intros s Hin.
        apply group_add_regions in Hin as [->|Hin]; [|by apply Hhead].
        apply string_lt_total; [done|]. unfold string_lt. by rewrite Hlt.
Qed.

(** Where a group of the new list comes from. *)
Lemma group_add_elem_of r gs g' :
  StronglySorted string_lt (group_region <$> gs) →
  g' ∈ group_add r gs →
  (g' ∈ gs ∧ group_region g' ≠ row_region r) ∨
  (∃ g, g ∈ gs ∧ group_region g = row_region r ∧ g' = group_step g r) ∨
  (g' = group_new r ∧ row_region r ∉ group_region <$> gs).
Proof.
  induction gs as [|g gs IH]; cbn [group_add]; intros Hs Hin.
  - apply list_elem_of_singleton in Hin. right; right. split; [done|].
    rewrite fmap_nil. apply not_elem_of_nil.
  - rewrite fmap_cons in Hs.
    pose proof (sorted_head_not_in _ _ Hs) as Hhead.
    apply StronglySorted_inv in Hs as [Hs _].
    assert (∀ g2, g2 ∈ gs → string_lt (group_region g) (group_region g2)) as Hhead'.
    { intros g2 Hg2. apply Hhead. by apply list_elem_of_fmap_2. }
    destruct (decide (row_region r = group_region g)) as [Heq|Hne].
    + apply elem_of_cons in Hin as [->|Hin].
      * right; left. exists g. split; [apply elem_of_cons; auto|done].
      * left. split; [apply elem_of_cons; auto|].
        intros Heq'. apply (string_lt_irrefl (group_region g)).
        rewrite <- Heq at 2. rewrite <- Heq'. by apply Hhead'.
    + destruct (String.ltb _ _) eqn:Hlt.
      * assert (∀ g2, g2 ∈ g :: gs → group_region g2 ≠ row_region r) as Hall.
        { intros g2 Hg2 Heq'. apply elem_of_cons in Hg2 as [->|Hg2]; [done|].
          apply (string_lt_irrefl (row_region r)).
          apply (string_lt_trans _ (group_region g)); [done|].
          rewrite <- Heq'. by apply Hhead'. }
        apply elem_of_cons in Hin as [->|Hin].
        -- right; right. split; [done|]. intros Hin.
           apply list_elem_of_fmap in Hin as (g2 & Heq' & Hg2).
           by apply (Hall g2).
        -- left. split; [done|]. by apply Hall.
      * apply elem_of_cons in Hin as [->|Hin].
        -- left. split; [apply elem_of_cons; auto|done].
        -- destruct (IH Hs Hin) as [[Hg' Hne']|[(g2 & Hg2 & Heq' & ->)|[-> Hnew]]].
           ++ left. split; [apply elem_of_cons; auto|done].
           ++ right; left. exists g2. split; [apply elem_of_cons; auto|done].
           ++ right; right. split; [done|]. rewrite fmap_cons, elem_of_cons.
              intros [?|?]; done.
Qed.

(** What the list of groups says of the rows taken in so far. *)
Lemma group_add_inv rows r gs :
  StronglySorted string_lt (group_region <$> gs) →
  Forall (group_ok rows) gs →
  (∀ r', r' ∈ rows → row_region r' ∈ group_region <$> gs) →
  StronglySorted string_lt (group_region <$> group_add r gs) ∧
  Forall (group_ok (rows ++ [r])) (group_add r gs) ∧
  (∀ r', r' ∈ rows ++ [r] → row_region r' ∈ group_region <$> group_add r gs).
Proof.
  intros Hs Hok Hcov. split; [by apply group_add_sorted|]. split.
  - apply Forall_forall. intros g' Hin.
    destruct (group_add_elem_of r gs g' Hs Hin)
      as [[Hg' Hne']|[(g2 & Hg2 & Heq' & ->)|[-> Hnew]]].
    + apply group_ok_other; [done|]. by apply (proj1 (Forall_forall _ _) Hok).
    + apply group_ok_step; [done|]. by apply (proj1 (Forall_forall _ _) Hok).
    + apply group_ok_new. unfold group_of.
      destruct (filter _ rows) as [|r' rest] eqn:Hf; [done|].
      assert (r' ∈ filter (λ r0, row_region r0 = row_region r) rows) as Hr'
        by (rewrite Hf; apply elem_of_cons; auto).
      apply list_elem_of_filter in Hr' as [Heq Hr'].
      exfalso. apply Hnew. rewrite <- Heq. by apply Hcov.
  - intros r' Hin. apply group_add_regions.
    apply elem_of_app in Hin as [Hin|Hin]; [right; by apply Hcov|].
    apply list_elem_of_singleton in Hin. left. by subst.
Qed.

Lemma group_by_region_inv rows :
  StronglySorted string_lt (group_region <$> group_by_region rows) ∧
  Forall (group_ok rows) (group_by_region rows) ∧
  (∀ r, r ∈ rows → row_region r ∈ group_region <$> group_by_region rows).
Proof.
  unfold group_by_region.
  assert (∀ rows1 rows0 gs,
            StronglySorted string_lt (group_region <$> gs) →
            Forall (group_ok rows0) gs →
            (∀ r, r ∈ rows0 → row_region r ∈ group_region <$> gs) →
            let gs' := foldl (λ gs r, group_add r gs) gs rows1 in
            StronglySorted string_lt (group_region <$> gs') ∧
            Forall (group_ok (rows0 ++ rows1)) gs' ∧
            (∀ r, r ∈ rows0 ++ rows1 → row_region r ∈ group_region <$> gs'))
    as Hgen.
  { induction rows1 as [|r rows1 IH]; intros rows0 gs Hs Hok Hcov.
    - cbn. by rewrite app_nil_r.
    - cbn [foldl].
      destruct (group_add_inv rows0 r gs Hs Hok Hcov) as (Hs1 & Hok1 & Hcov1).
      specialize (IH (rows0 ++ [r]) _ Hs1 Hok1 Hcov1).
      by rewrite <- app_assoc in IH. }
  apply (Hgen rows [] []).
  - rewrite fmap_nil. constructor.
  - constructor.
  - intros r Hin. by apply elem_of_nil in Hin.
Qed.

Lemma string_lt_sorted_NoDup ss : StronglySorted string_lt ss → NoDup ss.
Proof.
  induction 1 as [|s ss Hs IH Hall]; [apply NoDup_nil_2|].
  apply NoDup_cons. split; [|done]. intros Hin.
  apply (string_lt_irrefl s). by apply (proj1 (Forall_forall _ _) Hall).
Qed.

Lemma avg_mean (sum count : Z) :
  0 < count → Qeq (avg sum count) (inject_Z sum / inject_Z count)%Q.
Proof.
  intros Hpos. unfold avg. rewrite Qred_correct, Qmake_Qdiv.
  by rewrite Z2Pos.id.
Qed.

(** C9. [fetch] returns one line per region that has a stored individual,
    in ascending order of the region; on that line each of the four
    averages is the arithmetic mean of the counter over the stored
    individuals of the region.  For two individuals of East with counters
    (2,1,0,0) and (0,1,2,0) the means of all_regions and of some_regions
    are 1. *)
Theorem fetch_means db :
  StronglySorted string_lt (avg_region <$> (fetch db).2) ∧
  NoDup (avg_region <$> (fetch db).2) ∧
  (∀ s, s ∈ avg_region <$> (fetch db).2 ↔
        ∃ r, r ∈ tbl_individual db ∧ row_region r = s) ∧
  (∀ a, a ∈ (fetch db).2 →
     group_of (avg_region a) (tbl_individual db) ≠ [] ∧
     ∀ c, Qeq (average c a)
              (mean c (group_of (avg_region a) (tbl_individual db)))) ∧
  fetch east_store =
    (["All regions"; "Some regions"; "One region"; "One person"],
     [ {| avg_region := "East"; avg_all_regions := 1; avg_some_regions := 1;
          avg_one_region := 1; avg_one_person := 0 |} ]).
Proof.
  destruct (group_by_region_inv (tbl_individual db)) as (Hs & Hok & Hcov).
  assert (avg_region <$> (fetch db).2 =
          group_region <$> group_by_region (tbl_individual db)) as Hregions.
  { unfold fetch. cbn [snd]. rewrite <- list_fmap_compose.
    by apply list_fmap_ext. }
  rewrite Hregions.
  split; [done|]. split; [by apply string_lt_sorted_NoDup|].
  split; [|split; [|done]].
  - intros s. split.
    + intros Hin. apply list_elem_of_fmap in Hin as (g & -> & Hg).
      destruct (proj1 (Forall_forall _ _) Hok g Hg) as (Hnil & _ & _).
      unfold group_of in Hnil.
      destruct (filter _ (tbl_individual db)) as [|r rest] eqn:Hf; [done|].
      assert (r ∈ filter (λ r0, row_region r0 = group_region g) (tbl_individual db))
        as Hr by (rewrite Hf; apply elem_of_cons; auto).
      apply list_elem_of_filter in Hr as [Heq Hr]. eauto.
    + intros (r & Hr & <-). by apply Hcov.
  - intros a Ha. unfold fetch in Ha. cbn [snd] in Ha.
    apply list_elem_of_fmap in Ha as (g & -> & Hg).
    destruct (proj1 (Forall_forall _ _) Hok g Hg) as (Hnil & Hcount & Hsum).
    cbn [avg_region group_average]. split; [done|].
    assert (0 < group_count g) as Hpos.
    { rewrite Hcount. destruct (group_of (group_region g) (tbl_individual db));
        [done|cbn [length]; lia]. }
    intros c. unfold mean. rewrite <- Hsum, <- Hcount.
    destruct c; cbn [average group_average group_sum]; by apply avg_mean.
Qed.

(** * Further properties of [fill] *)

(** ** What the resolver covers *)

Section ResolverCovers.
Context (regions : gmap (string * string) string) (ts : TreeSequence).

Lemma resolve_loop_domain k inds st st' :
  for_each (resolve_individual regions ts) (enumerate_from k inds) st = Ok st' →
  ∀ i, is_Some (individual_regions st' !! i) ↔
       is_Some (individual_regions st !! i) ∨
       k ≤ i < k + Z.of_nat (length inds).
Proof.
  revert k st. induction inds as [|ind inds IH]; intros k st Hloop i.
  - injection Hloop as <-. cbn [length]. split; [auto|]. intros [?|?]; [done|lia].
  - cbn [enumerate_from for_each] in Hloop.
    apply bind_Ok in Hloop as (st1 & Hstep & Hloop).
    apply resolve_individual_Ok in Hstep as (src & nm & pn & region & _ & _ & _ & ->).
    rewrite (IH _ _ Hloop i). cbn [individual_regions length].
    destruct (decide (k = i)) as [->|Hne].
    + rewrite lookup_insert_eq. split; [intros _; right; lia|]. intros _. left. eauto.
    + rewrite lookup_insert_ne by done. split; intros [?|?]; auto; right; lia.
Qed.

Lemma resolve_loop_entry_ids k inds st st' :
  for_each (resolve_individual regions ts) (enumerate_from k inds) st = Ok st' →
  ∀ n e, (n, e) ∈ individuals st' →
         (n, e) ∈ individuals st ∨ k ≤ entry_id e < k + Z.of_nat (length inds).
Proof.
  revert k st. induction inds as [|ind inds IH]; intros k st Hloop n e Hin.
  - injection Hloop as <-. auto.
  - cbn [enumerate_from for_each] in Hloop.
    apply bind_Ok in Hloop as (st1 & Hstep & Hloop).
    apply resolve_individual_Ok in Hstep as (src & nm & pn & region & _ & _ & _ & ->).
    destruct (IH _ _ Hloop n e Hin) as [Hin1|Hrange]; cbn [length].
    + cbn [individuals] in Hin1.
      apply dict_set_elem_of in Hin1 as [[= -> ->]|Hin1]; [|auto].
      right. cbn. lia.
    + right. lia.
Qed.

Lemma resolve_domain st i :
  resolve regions ts = Ok st →
  is_Some (individual_regions st !! i) ↔
  0 ≤ i < Z.of_nat (length (ts_individuals ts)).
Proof.
  intros Hres. unfold resolve, enumerate in Hres.
  rewrite (resolve_loop_domain 0 _ locals0 st Hres i). cbn [individual_regions locals0].
  rewrite lookup_empty. split; [intros [[? ?]|?]; [done|lia]|intros ?; right; lia].
Qed.

Lemma resolve_entry_ids st n e :
  resolve regions ts = Ok st →
  (n, e) ∈ individuals st →
  0 ≤ entry_id e < Z.of_nat (length (ts_individuals ts)).
Proof.
  intros Hres Hin. unfold resolve, enumerate in Hres.
  destruct (resolve_loop_entry_ids 0 _ locals0 st Hres n e Hin) as [Hin0|?]; [|lia].
  cbn in Hin0. by apply elem_of_nil in Hin0.
Qed.

(** After the loop over the individuals, [individual_regions] has a region
    for the ids 0 .. n-1 of the individuals of the tree sequence and for no
    other id, and every region in it is a value of [populations.regions];
    the ids kept in [individuals] are among 0 .. n-1. *)
Theorem resolve_covers_the_individuals st :
  resolve regions ts = Ok st →
  (∀ i, is_Some (individual_regions st !! i) ↔
        0 ≤ i < Z.of_nat (length (ts_individuals ts))) ∧
  (∀ i r, individual_regions st !! i = Some r → ∃ key, regions !! key = Some r) ∧
  (∀ n e, (n, e) ∈ individuals st →
          0 ≤ entry_id e < Z.of_nat (length (ts_individuals ts))).
Proof.
  intros Hres. split; [|split].
  - intros i. by apply resolve_domain.
  - apply (resolved_regions _ _ _ (resolve_resolved regions ts st Hres)).
  - intros n e Hin. by eapply resolve_entry_ids.
Qed.
End ResolverCovers.

(** ** How [fill] fails *)

Lemma comprehension_expect_None {A B : Type} (e : exn) (f : A → option B)
    (l : list A) (a : A) :
  a ∈ l → f a = None → comprehension (λ a, expect e (f a)) l = Err e.
Proof.
  induction l as [|a' l IH]; intros Hin Ha.
  - by apply elem_of_nil in Hin.
  - cbn [comprehension]. destruct (f a') as [b|] eqn:Hb; cbn; [|done].
    apply elem_of_cons in Hin as [->|Hin]; [congruence|].
    by rewrite IH.
Qed.

Lemma for_each_Err_elem {A S : Type} (body : S → A → result S) (l : list A) (a : A) :
  a ∈ l → (∀ s, ∃ e, body s a = Err e) → ∀ s, ∃ e, for_each body l s = Err e.
Proof.
  induction l as [|a' l IH]; intros Hin Ha s.
  - by apply elem_of_nil in Hin.
  - cbn [for_each]. apply elem_of_cons in Hin as [->|Hin].
    + destruct (Ha s) as [e ->]. eauto.
    + destruct (body s a') as [s1|e]; cbn; [by apply IH | eauto].
Qed.

Lemma reconcile_keys inds rows0 (sql_ids : gmap Z Z) rows p r :
  reconcile inds rows0 = Ok (sql_ids, rows) →
  sql_ids !! p = Some r → ∃ n e, (n, e) ∈ inds ∧ entry_id e = p.
Proof.
  intros Hrec Hp. destruct rows0 as [|row0 rows0']; cbn [reconcile] in Hrec.
  - apply bind_Ok in Hrec as (rows1 & _ & [= <- <-]).
    rewrite sql_ids_identity_lookup in Hp. case_decide as Hin; [|done].
    unfold dict_values in Hin.
    apply list_elem_of_fmap in Hin as (e & -> & Hin).
    apply list_elem_of_fmap in Hin as ([n e'] & -> & Hin). eauto.
  - apply bind_Ok in Hrec as (m & Hm & [= <- <-]).
    apply (sql_ids_loop_lookup _ _ _ _ _ _ Hm) in Hp
      as [Hp|(row & e & _ & He & <- & _)]; [by rewrite lookup_empty in Hp|].
    apply dict_get_elem_of in He. eauto.
Qed.

Section Failures.
Context (regions : gmap (string * string) string) (ts : TreeSequence).

(** An aggregated allele with a carrier that has no entry in [sql_ids]
    raises a KeyError, whatever the store. *)
Lemma process_allele_missing_carrier iregs (sql_ids : gmap Z Z) v db i a ids p :
  counted (i, a) →
  individual_ids_of ts v i = Ok ids →
  p ∈ ids →
  sql_ids !! p = None →
  process_allele regions ts iregs sql_ids v db (i, a) = Err KeyError_sql_ids ∨
  process_allele regions ts iregs sql_ids v db (i, a) = Err KeyError_individual_regions.
Proof.
  intros (Hi & Hnone & Hempty) Hids Hp Hs. simpl in *. unfold process_allele.
  rewrite (bool_decide_eq_false_2 _ Hi).
  destruct a as [a|]; [|done]. cbn [not_allele orb].
  rewrite bool_decide_eq_false_2 by congruence. rewrite Hids. cbn [bind].
  unfold choose_column. destruct (decide (size ids = 1%nat)); cbn [bind].
  - left. rewrite (comprehension_expect_None KeyError_sql_ids (λ id, sql_ids !! id) _ p);
      [done| |done]. by apply elem_of_elements.
  - unfold regions_of.
    destruct (comprehension _ (elements ids)) as [regs|e] eqn:Hregs; cbn [bind].
    + left.
      assert (∀ c, bind (Ok c : result Column)
                (λ column,
                   let* ids0 := comprehension
                       (λ id, expect KeyError_sql_ids (sql_ids !! id)) (elements ids) in
                   Ok {| tbl_individual :=
                           update_individuals column (tbl_individual db) ids0;
                         tbl_num_regions :=
                           update_num_regions column (tbl_num_regions db) |})
              = Err KeyError_sql_ids) as Hc.
      { intros c. cbn [bind].
        rewrite (comprehension_expect_None KeyError_sql_ids (λ id, sql_ids !! id) _ p);
          [done| |done]. by apply elem_of_elements. }
      repeat case_decide; apply Hc.
    + right. f_equal.
      clear -Hregs. revert e Hregs. induction (elements ids) as [|x xs IH]; intros e H.
      * done.
      * cbn [comprehension] in H. destruct (iregs !! x); cbn in H; [|congruence].
        destruct (comprehension _ xs) eqn:Hxs; cbn in H; [done|].
        injection H as <-. by apply IH.
Qed.

(** A sample node that belongs to no individual of the tree sequence (tskit
    writes -1) and carries an allele that is aggregated makes [fill] raise:
    no store is committed. *)
Theorem carrier_without_individual_aborts v i a ids p :
  v ∈ ts_variants ts →
  (i, a) ∈ enumerate (alleles v) →
  counted (i, a) →
  individual_ids_of ts v i = Ok ids →
  p ∈ ids →
  ¬ (0 ≤ p < Z.of_nat (length (ts_individuals ts))) →
  ∀ db, ∃ e, fill regions db ts = Err e.
Proof.
  intros Hv Hx Hcounted Hids Hp Hrange db. unfold fill.
  destruct (resolve regions ts) as [st|e] eqn:Hres; cbn [bind]; [|eauto].
  destruct (reconcile _ _) as [[sql_ids rows]|e] eqn:Hrec; cbn [bind]; [|eauto].
  assert (sql_ids !! p = None) as Hs.
  { destruct (sql_ids !! p) as [r|] eqn:Hs; [|done]. exfalso. apply Hrange.
    destruct (reconcile_keys _ _ _ _ _ _ Hrec Hs) as (n & e & Hin & <-).
    by apply (resolve_entry_ids regions ts st n e Hres). }
  destruct (for_each_Err_elem
              (process_variant regions ts (individual_regions st) sql_ids)
              (ts_variants ts) v Hv) with
    (s := {| tbl_individual := rows; tbl_num_regions := tbl_num_regions db |})
    as [e He].
  - intros s. unfold process_variant. apply (for_each_Err_elem _ _ (i, a) Hx).
    intros s'.
    destruct (process_allele_missing_carrier (individual_regions st) sql_ids
                v s' i a ids p Hcounted Hids Hp Hs) as [-> | ->]; eauto.
  - unfold aggregate. rewrite He. cbn. eauto.
Qed.

(** A tree sequence without a site: the loop over the variants never binds
    [vnum], and the progress line after it raises.  Nothing is committed,
    not even the individuals that a first run inserted. *)
Theorem fill_without_variants_raises db :
  ts_variants ts = [] →
  (∃ e, fill regions db ts = Err e) ∧
  (∀ st x, resolve regions ts = Ok st →
           reconcile (individuals st) (tbl_individual db) = Ok x →
           fill regions db ts = Err UnboundLocalError_vnum).
Proof.
  intros Hv. split.
  - destruct (fill regions db ts) as [db'|e] eqn:Hfill; [|eauto].
    apply fill_Ok in Hfill as (? & ? & ? & _ & _ & _ & Hne). done.
  - intros st [sql_ids rows] Hres Hrec. unfold fill.
    rewrite Hres. cbn [bind]. rewrite Hrec. cbn [bind].
    unfold aggregate. rewrite Hv. done.
Qed.

(** On a later run, the first stored individual whose name the dataset does
    not have stops [fill] with the KeyError of that name. *)
Theorem stored_name_missing_from_dataset_raises st db before row after :
  resolve regions ts = Ok st →
  tbl_individual db = before ++ row :: after →
  (∀ r, r ∈ before → is_Some (dict_get (row_name r) (individuals st))) →
  dict_get (row_name row) (individuals st) = None →
  reconcile (individuals st) (tbl_individual db) =
    Err (KeyError_individuals (row_name row)) ∧
  fill regions db ts = Err (KeyError_individuals (row_name row)).
Proof.
  intros Hres Hrows Hbefore Hrow.
  assert (∀ m, ∃ m', for_each (sql_ids_step (individuals st)) before m = Ok m')
    as Hpre.
  { clear Hrows. induction before as [|r before IH]; intros m; [by eexists|].
    cbn [for_each]. unfold sql_ids_step at 1.
    destruct (Hbefore r) as [e He]; [apply elem_of_cons; auto|].
    rewrite He. cbn [expect bind]. apply IH.
    intros r' Hr'. apply Hbefore. apply elem_of_cons; auto. }
  assert (reconcile (individuals st) (tbl_individual db) =
            Err (KeyError_individuals (row_name row))) as Hrec.
  { rewrite Hrows.
    assert (sql_ids_of_rows (individuals st) (before ++ row :: after) =
              Err (KeyError_individuals (row_name row))) as Hsql.
    { unfold sql_ids_of_rows. rewrite for_each_app.
      destruct (Hpre ∅) as [m' ->]. cbn [bind for_each].
      unfold sql_ids_step at 1. by rewrite Hrow. }
    destruct (before ++ row :: after) eqn:Heq.
    - by destruct before.
    - cbn [reconcile]. by rewrite Hsql. }
  split; [done|]. unfold fill. rewrite Hres. cbn [bind]. by rewrite Hrec.
Qed.
End Failures.

(** ** Counters only grow *)

Lemma for_each_rel {A S : Type} (body : S → A → result S) (R : S → S → Prop)
    (l : list A) (s s' : S) :
  (∀ s, R s s) →
  (∀ s1 s2 s3, R s1 s2 → R s2 s3 → R s1 s3) →
  (∀ s a s', body s a = Ok s' → R s s') →
  for_each body l s = Ok s' → R s s'.
Proof.
  intros Hrefl Htrans Hbody. revert s. induction l as [|a l IH]; intros s Hloop.
  - injection Hloop as <-. apply Hrefl.
  - cbn [for_each] in Hloop. apply bind_Ok in Hloop as (s1 & Hstep & Hloop).
    eapply Htrans; [by eapply Hbody | by apply IH].
Qed.

Lemma increment_counter_le c c' r : counter c' r ≤ counter c' (increment c r).
Proof. destruct c, c'; cbn; lia. Qed.

Lemma update_individuals_lookup_le c rows ids (k : nat) r :
  rows !! k = Some r →
  ∃ r', update_individuals c rows ids !! k = Some r' ∧
        row_identity r' = row_identity r ∧ ∀ c', counter c' r ≤ counter c' r'.
Proof.
  unfold update_individuals. revert rows r.
  induction ids as [|i ids IH]; intros rows r Hk; cbn [foldl].
  - exists r. split; [done|]. split; [done|]. intros; lia.
  - destruct (IH (update_individual c rows i)
                (if decide (row_id r = i) then increment c r else r))
      as (r' & Hk' & Hid & Hle).
    { unfold update_individual. by rewrite list_lookup_fmap, Hk. }
    exists r'. split; [done|]. case_decide.
    + rewrite Hid, increment_identity. split; [done|]. intros c'.
      pose proof (increment_counter_le c c' r). specialize (Hle c'). lia.
    + done.
Qed.

Section Monotone.
Context (regions : gmap (string * string) string) (ts : TreeSequence).

(** [db'] has the rows and the totals of [db], in place, none lower. *)
Let grows (db db' : Store) : Prop :=
  (∀ (k : nat) r, tbl_individual db !! k = Some r →
     ∃ r', tbl_individual db' !! k = Some r' ∧
           row_identity r' = row_identity r ∧ ∀ c, counter c r ≤ counter c r') ∧
  (∀ (k : nat) n x, tbl_num_regions db !! k = Some (n, x) →
     ∃ x', tbl_num_regions db' !! k = Some (n, x') ∧ x ≤ x').

Lemma grows_refl db : grows db db.
Proof.
  split.
  - intros k r Hk. exists r. split; [done|]. split; [done|]. intros; lia.
  - intros k n x Hk. exists x. split; [done|lia].
Qed.

Lemma grows_trans db1 db2 db3 : grows db1 db2 → grows db2 db3 → grows db1 db3.
Proof.
  intros [Hr1 Ht1] [Hr2 Ht2]. split.
  - intros k r Hk. destruct (Hr1 k r Hk) as (r2 & Hk2 & Hid2 & Hle2).
    destruct (Hr2 k r2 Hk2) as (r3 & Hk3 & Hid3 & Hle3).
    exists r3. split; [done|]. split; [congruence|].
    intros c. specialize (Hle2 c). specialize (Hle3 c). lia.
  - intros k n x Hk. destruct (Ht1 k n x Hk) as (x2 & Hk2 & Hle2).
    destruct (Ht2 k n x2 Hk2) as (x3 & Hk3 & Hle3).
    exists x3. split; [done|lia].
Qed.

Lemma process_allele_grows iregs (sql_ids : gmap Z Z) v db x db' :
  process_allele regions ts iregs sql_ids v db x = Ok db' → grows db db'.
Proof.
  destruct x as [i a]. destruct (decide (counted (i, a))) as [Hc|Hc].
  - intros H. apply process_allele_Ok in H as (ids & c & sids & _ & _ & _ & ->);
      [|done].
    split; cbn [tbl_individual tbl_num_regions].
    + intros k r Hk. by apply update_individuals_lookup_le.
    + intros k n x Hk. rewrite update_num_regions_lookup, Hk. cbn.
      case_decide; eexists; (split; [done|lia]).
  - rewrite process_allele_not_counted by done. intros [= <-]. apply grows_refl.
Qed.

(** [fill] never lowers a counter or a total, and never touches the id, the
    name or the region of a stored row; the rows that a first run inserts
    end with counters that are not negative. *)
Theorem fill_never_decreases db db' :
  fill regions db ts = Ok db' →
  (∀ (k : nat) r, tbl_individual db !! k = Some r →
     ∃ r', tbl_individual db' !! k = Some r' ∧
           row_identity r' = row_identity r ∧ ∀ c, counter c r ≤ counter c r') ∧
  (∀ (k : nat) n x, tbl_num_regions db !! k = Some (n, x) →
     ∃ x', tbl_num_regions db' !! k = Some (n, x') ∧ x ≤ x') ∧
  (tbl_individual db = [] →
   ∀ r' c, r' ∈ tbl_individual db' → 0 ≤ counter c r').
Proof.
  intros Hfill.
  apply fill_Ok in Hfill as (st & sql_ids & rows & Hres & Hrec & Hagg & _).
  assert (grows {| tbl_individual := rows; tbl_num_regions := tbl_num_regions db |} db')
    as [Hrows Htots].
  { unfold aggregate in Hagg. revert Hagg.
    apply for_each_rel; [apply grows_refl|apply grows_trans|].
    intros s v s'. unfold process_variant.
    apply for_each_rel; [apply grows_refl|apply grows_trans|].
    intros s1 x s2. apply process_allele_grows. }
  cbn [tbl_individual tbl_num_regions] in Hrows, Htots.
  split; [|split; [done|]].
  - intros k r Hk. apply Hrows.
    destruct (tbl_individual db) as [|row0 rows0] eqn:Hdb; [by rewrite lookup_nil in Hk|].
    cbn [reconcile] in Hrec. apply bind_Ok in Hrec as (m & _ & [= _ <-]). done.
  - intros Hempty r' c Hin. rewrite Hempty in Hrec. cbn [reconcile] in Hrec.
    apply bind_Ok in Hrec as (rows1 & Hins & [= _ <-]).
    apply insert_loop_Ok in Hins as [-> _]. rewrite app_nil_l in Hrows.
    apply list_elem_of_lookup in Hin as [k Hk].
    assert (is_Some ((new_row <$>
              ((λ e, (entry_id e, entry_name e, entry_region e)) <$>
                 dict_values (individuals st))) !! k)) as [r Hr].
    { apply lookup_lt_is_Some. apply lookup_lt_Some in Hk.
      apply aggregate_identity in Hagg as [Hid _]. cbn [tbl_individual] in Hid.
      rewrite app_nil_l in Hid.
      apply (f_equal length) in Hid. unfold dict_values in *.
      rewrite !length_fmap in Hid. rewrite !length_fmap. lia. }
    destruct (Hrows k r Hr) as (r2 & Hk2 & _ & Hle). rewrite Hk in Hk2.
    injection Hk2 as <-. specialize (Hle c).
    apply list_lookup_fmap_Some in Hr as (e & -> & _).
    assert (counter c (new_row e) = 0) as H0 by by destruct c. lia.
Qed.
End Monotone.

(** ** The totals count the alleles *)

Lemma for_each_measure {A S : Type} (body : S → A → result S) (P : S → Prop)
    (f : S → Z) (w : A → Z) (l : list A) (s s' : S) :
  (∀ s a s', P s → body s a = Ok s' → P s' ∧ f s' = f s + w a) →
  P s → for_each body l s = Ok s' →
  P s' ∧ f s' = f s + foldr Z.add 0 (w <$> l).
Proof.
  intros Hbody. revert s. induction l as [|a l IH]; intros s HP Hloop.
  - injection Hloop as <-. cbn. split; [done|lia].
  - cbn [for_each] in Hloop. apply bind_Ok in Hloop as (s1 & Hstep & Hloop).
    destruct (Hbody s a s1 HP Hstep) as [HP1 Hf1].
    destruct (IH s1 HP1 Hloop) as [HP' Hf']. split; [done|].
    rewrite fmap_cons. cbn [foldr]. lia.
Qed.

Lemma sum_indicator {A : Type} (P : A → Prop) `{∀ a, Decision (P a)} (l : list A) :
  foldr Z.add 0 ((λ a, if decide (P a) then 1 else 0) <$> l) =
    Z.of_nat (length (filter P l)).
Proof.
  induction l as [|a l IH]; [done|].
  rewrite fmap_cons, filter_cons. cbn [foldr]. rewrite IH.
  destruct (decide (P a)); cbn [length]; lia.
Qed.

Lemma update_num_regions_sum c tbl :
  foldr Z.add 0 (update_num_regions c tbl).*2 =
    foldr Z.add 0 tbl.*2 +
    Z.of_nat (length (filter (λ nk, nk.1 = column_name c) tbl)).
Proof.
  unfold update_num_regions. induction tbl as [|[n x] tbl IH]; [done|].
  rewrite !fmap_cons, filter_cons. cbn [foldr fst snd]. rewrite IH.
  destruct (decide (n = column_name c)); cbn [length snd]; lia.
Qed.

Lemma totals_complete_one c tbl :
  totals_complete tbl →
  length (filter (λ nk : string * Z, nk.1 = column_name c) tbl) = 1%nat.
Proof.
  intros [Hnd Hall]. specialize (Hall c). revert Hnd Hall.
  generalize (column_name c). intros n.
  induction tbl as [|[n' x] tbl IH]; intros Hnd Hin.
  - by apply elem_of_nil in Hin.
  - rewrite fmap_cons in Hnd, Hin. apply NoDup_cons in Hnd as [Hn' Hnd].
    rewrite filter_cons. cbn [fst] in *.
    destruct (decide (n' = n)) as [->|Hne].
    + cbn [length]. f_equal.
      destruct (filter _ tbl) as [|[n2 x2] rest] eqn:Hf; [done|].
      exfalso. apply Hn'.
      assert ((n2, x2) ∈ filter (λ nk : string * Z, nk.1 = n) tbl) as H2
        by (rewrite Hf; apply elem_of_cons; auto).
      apply list_elem_of_filter in H2 as [Heq H2]. simpl in Heq. subst n2.
      apply list_elem_of_fmap. by exists (n, x2).
    + apply IH; [done|]. apply elem_of_cons in Hin as [?|?]; [congruence|done].
Qed.

Lemma totals_complete_init : totals_complete (tbl_num_regions init).
Proof.
  split.
  - by compute_done.
  - intros c. destruct c; cbn; set_solver.
Qed.

Section Totals.
Context (regions : gmap (string * string) string) (ts : TreeSequence).

Let total (db : Store) : Z := foldr Z.add 0 (tbl_num_regions db).*2.
Let complete (db : Store) : Prop := totals_complete (tbl_num_regions db).

Lemma process_allele_total iregs (sql_ids : gmap Z Z) v db x db' :
  complete db →
  process_allele regions ts iregs sql_ids v db x = Ok db' →
  complete db' ∧ total db' = total db + (if decide (counted x) then 1 else 0).
Proof.
  intros Hc. destruct x as [i a]. destruct (decide (counted (i, a))) as [Hx|Hx].
  - intros H. apply process_allele_Ok in H as (ids & c & sids & _ & _ & _ & ->);
      [|done].
    unfold complete, total, totals_complete in *. cbn [tbl_num_regions].
    rewrite update_num_regions_names, update_num_regions_sum.
    split; [done|]. by rewrite totals_complete_one.
  - rewrite process_allele_not_counted by done. intros [= <-]. split; [done|lia].
Qed.

Lemma aggregate_total iregs (sql_ids : gmap Z Z) db db' :
  complete db →
  aggregate regions ts iregs sql_ids db = Ok db' →
  complete db' ∧ total db' = total db + counted_alleles ts.
Proof.
  intros Hc Hagg. unfold aggregate in Hagg.
  apply (for_each_measure _ complete total counted_in _ _ _) in Hagg; [done| |done].
  intros s v s' Hs Hv. unfold process_variant in Hv.
  apply (for_each_measure _ complete total
           (λ x, if decide (counted x) then 1 else 0) _ _ _) in Hv; [|  |done].
  - by rewrite sum_indicator in Hv.
  - intros s1 x s2. apply process_allele_total.
Qed.

(** When the table of totals has its four rows, as [init] leaves it, a run
    of [fill] adds to the sum of the totals, which [draw] prints as the
    number of variants, the number of alleles of the tree sequence that are
    neither the first of their site nor empty; the table keeps its rows. *)
Theorem variant_count_counts_alleles db db' :
  totals_complete (tbl_num_regions db) →
  fill regions db ts = Ok db' →
  totals_complete (tbl_num_regions db') ∧
  ∃ n, variant_count db = Some n ∧
       variant_count db' = Some (n + counted_alleles ts).
Proof.
  intros Hc Hfill.
  apply fill_Ok in Hfill as (st & sql_ids & rows & _ & _ & Hagg & _).
  apply aggregate_total in Hagg as [Hc' Htot]; [|done].
  unfold complete, total in *. cbn [tbl_num_regions] in Htot.
  split; [done|]. exists (foldr Z.add 0 (tbl_num_regions db).*2).
  unfold variant_count. split.
  - destruct (tbl_num_regions db) eqn:Ht; [|done].
    destruct Hc as [_ Hall]. specialize (Hall AllRegions).
    by apply elem_of_nil in Hall.
  - rewrite <- Htot. destruct (tbl_num_regions db') eqn:Ht; [|done].
    destruct Hc' as [_ Hall]. specialize (Hall AllRegions).
    by apply elem_of_nil in Hall.
Qed.
End Totals.

(** ** No counter above its total *)

Lemma for_each_inv {A S : Type} (body : S → A → result S) (P : S → Prop)
    (l : list A) (s s' : S) :
  (∀ s a s', P s → body s a = Ok s' → P s') →
  P s → for_each body l s = Ok s' → P s'.
Proof.
  intros Hbody. revert s. induction l as [|a l IH]; intros s HP Hloop.
  - by injection Hloop as <-.
  - cbn [for_each] in Hloop. apply bind_Ok in Hloop as (s1 & Hstep & Hloop).
    eapply IH; [|done]. by eapply Hbody.
Qed.

Lemma total_of_update c c' tbl :
  total_of c' (update_num_regions c tbl) ≤
    total_of c' tbl + (if decide (c' = c) then 1 else 0) ∧
  (totals_complete tbl →
   total_of c' (update_num_regions c tbl) =
     total_of c' tbl + (if decide (c' = c) then 1 else 0)).
Proof.
  assert (dict_get (column_name c') (update_num_regions c tbl) =
          (λ x, if decide (c' = c) then x + 1 else x)
            <$> dict_get (column_name c') tbl) as Hget.
  { unfold update_num_regions. induction tbl as [|[n x] tbl IH]; [done|].
    rewrite fmap_cons. cbn [dict_get fst snd].
    destruct (decide (n = column_name c)) as [->|Hn]; cbn [dict_get].
    - destruct (decide (column_name c' = column_name c)) as [Heq|Hne].
      + apply column_name_inj in Heq as ->. cbn. by rewrite decide_True.
      + done.
    - destruct (decide (column_name c' = n)) as [Heq|Hne]; [|done].
      cbn. rewrite decide_False; [done|]. intros ->. by apply Hn. }
  unfold total_of. rewrite Hget. split.
  - destruct (dict_get _ tbl); cbn; case_decide; lia.
  - intros [_ Hall]. specialize (Hall c').
    destruct (dict_get (column_name c') tbl) as [x|] eqn:Hx; cbn.
    + case_decide; lia.
    + exfalso. apply list_elem_of_fmap in Hall as ([n x] & Hn & Hin).
      simpl in Hn. subst n. clear -Hx Hin.
      induction tbl as [|[n' x'] tbl IH]; [by apply elem_of_nil in Hin|].
      cbn [dict_get] in Hx. case_decide; [done|].
      apply elem_of_cons in Hin as [[= <- <-]|Hin]; [done|by apply IH].
Qed.

Lemma bounded_init : bounded init.
Proof.
  split; [apply NoDup_nil_2|]. split; [apply totals_complete_init|]. split.
  - intros c. by destruct c.
  - intros r c Hin. by apply elem_of_nil in Hin.
Qed.

Section Bounded.
Context (regions : gmap (string * string) string) (ts : TreeSequence).

(** A store is bounded after [init]; when it is bounded and [fill]
    succeeds on it, so is the store that [fill] leaves: whatever files have
    been aggregated since [init], no individual carries more alleles of a
    category than the total of the category says there are. *)
Theorem fill_keeps_counters_below_totals :
  bounded init ∧
  ∀ db db', bounded db → fill regions db ts = Ok db' → bounded db'.
Proof.
  split; [apply bounded_init|].
  intros db db' (Hpk & Hcomplete & Hpos & Hle) Hfill.
  apply fill_Ok in Hfill as (st & sql_ids & rows1 & Hres & Hrec & Hagg & _).
  destruct (reconcile_sound _ _ _ _ Hpk Hrec) as (Hpk1 & _ & _).
  set (J := λ s : Store,
         row_id <$> tbl_individual s = row_id <$> rows1 ∧
         totals_complete (tbl_num_regions s) ∧
         (∀ c, 0 ≤ total_of c (tbl_num_regions s)) ∧
         (∀ r c, r ∈ tbl_individual s → counter c r ≤ total_of c (tbl_num_regions s))).
  assert (J db') as (Hids' & Hcomplete' & Hpos' & Hle').
  { unfold aggregate in Hagg. revert Hagg. apply for_each_inv.
    - intros s v s' Hs. unfold process_variant. revert Hs. apply for_each_inv.
      intros s1 [i a] s2 (Hids1 & Hcomp1 & Hpos1 & Hle1) Hev.
      destruct (decide (counted (i, a))) as [Hc|Hc];
        [|rewrite process_allele_not_counted in Hev by done;
          injection Hev as <-; done].
      pose proof Hev as Hev'.
      apply process_allele_Ok in Hev' as (ids & c & sids & Hcar & _ & _ & _);
        [|done].
      destruct (process_allele_effect regions ts _ _ _ _ _ _ _ _ _ _ _
                  Hpk Hrec Hc Hcar Hev)
        as (c' & sids' & _ & _ & _ & _ & Hrows & Htots).
      split; [|split; [|split]].
      + rewrite Hrows, <- Hids1, <- list_fmap_compose. apply list_fmap_ext.
        intros _ r _. cbn. case_decide; [apply increment_id|done].
      + rewrite Htots. unfold totals_complete.
        by rewrite update_num_regions_names.
      + intros c0. rewrite Htots.
        rewrite (proj2 (total_of_update c' c0 _) Hcomp1).
        specialize (Hpos1 c0). case_decide; lia.
      + intros r' c0 Hin. rewrite Hrows in Hin.
        apply list_elem_of_fmap in Hin as (r & -> & Hin). rewrite Htots.
        rewrite (proj2 (total_of_update c' c0 _) Hcomp1).
        specialize (Hle1 r c0 Hin).
        destruct (decide (row_id r ∈ sids')).
        * destruct (decide (c0 = c')) as [->|Hne].
          -- rewrite increment_counter_same. lia.
          -- rewrite increment_counter_other by done. lia.
        * case_decide; lia.
    - cbn [tbl_individual tbl_num_regions]. split; [done|]. split; [done|].
      split; [done|]. intros r c Hin.
      destruct (tbl_individual db) as [|row0 rows0] eqn:Hdb.
      + cbn [reconcile] in Hrec. apply bind_Ok in Hrec as (rows & Hins & [= _ <-]).
        apply insert_loop_Ok in Hins as [-> _]. rewrite app_nil_l in Hin.
        apply list_elem_of_fmap in Hin as (e & -> & _).
        specialize (Hpos c). by destruct c.
      + cbn [reconcile] in Hrec. apply bind_Ok in Hrec as (m & _ & [= _ <-]).
        by apply Hle. }
  split; [by rewrite Hids'|done].
Qed.
End Bounded.

(** * The properties at work on the small datasets *)

Lemma resolve_ex_ts : resolve ex_regions ex_ts = Ok ex_locals.
Proof. vm_compute. reflexivity. Defined.

Lemma reconcile_ex_ts : reconcile ex_individuals [] = Ok (ex_sql_ids, ex_rows).
Proof. vm_compute. reflexivity. Defined.

(** C1, on the four sites of the example of the specification: with the
    three regions of the table, X is [all_regions], Y is [some_regions], Z
    is [one_region] and W is [one_person]. *)
Lemma choose_column_cases_witness :
  choose_column ex_regions ex_individual_regions {[0; 1; 2]} = Ok AllRegions ∧
  choose_column ex_regions ex_individual_regions {[0; 1]} = Ok SomeRegions ∧
  choose_column ex_regions ex_individual_regions {[0; 3]} = Ok OneRegion ∧
  choose_column ex_regions ex_individual_regions {[0]} = Ok OnePerson.
Proof.
  split; [|split; [|split]].
  - apply (proj2 (choose_column_cases ex_regions ex_individual_regions {[0; 1; 2]})
             {["A"; "B"; "C"]}); by vm_compute.
  - apply (proj2 (choose_column_cases ex_regions ex_individual_regions {[0; 1]})
             {["A"; "B"]}); [by vm_compute..|]. vm_compute. lia.
  - apply (proj2 (choose_column_cases ex_regions ex_individual_regions {[0; 3]})
             {["A"]}); by vm_compute.
  - apply (proj1 (choose_column_cases ex_regions ex_individual_regions {[0]})).
    by vm_compute.
Defined.

(** C1 as the specification words it fails on [two_region_ts]: the two
    carriers are of two regions, the individuals of the dataset are of two
    regions in all, so the claim says [all_regions]; the table has three
    regions and the code chooses [some_regions]. *)
Lemma all_regions_of_dataset_is_not_all_regions :
  (let* st := resolve ex_regions two_region_ts in
   let* ids := individual_ids_of two_region_ts two_region_variant 1 in
   let* regs := regions_of (individual_regions st) ids in
   let* column := choose_column ex_regions (individual_regions st) ids in
   Ok (size ids, size regs, dataset_num_regions (individual_regions st),
       num_regions ex_regions, column,
       claimed_column (individual_regions st) ids regs))
  = Ok (2%nat, 2%nat, 2%nat, 3%nat, SomeRegions, AllRegions).
Proof. vm_compute. reflexivity. Qed.

(** C2 on site X of [ex_ts], whose allele 1 is carried by the individuals
    0, 1 and 2. *)
Lemma carrier_counters_exclusive_witness :
  NoDup (row_id <$> ([] : list Row)) ∧
  reconcile ex_individuals [] = Ok (ex_sql_ids, ex_rows) ∧
  counted (1, Some "T") ∧
  individual_ids_of ex_ts ex_variant_X 1 = Ok {[0; 1; 2]} ∧
  ∃ db',
    process_allele ex_regions ex_ts ex_individual_regions ex_sql_ids
      ex_variant_X ex_store (1, Some "T") = Ok db' ∧
    ∃ c,
      choose_column ex_regions ex_individual_regions {[0; 1; 2]} = Ok c ∧
      ∀ p, p ∈ ({[0; 1; 2]} : gset Z) →
        ∃ rid (k : nat) r r',
          ex_sql_ids !! p = Some rid ∧
          tbl_individual ex_store !! k = Some r ∧ row_id r = rid ∧
          (∀ (k2 : nat) r2, tbl_individual ex_store !! k2 = Some r2 →
                            row_id r2 = rid → k2 = k) ∧
          tbl_individual db' !! k = Some r' ∧
          row_id r' = row_id r ∧ row_name r' = row_name r ∧
          row_region r' = row_region r ∧
          counter c r' = counter c r + 1 ∧
          ∀ c', c' ≠ c → counter c' r' = counter c' r.
Proof.
  assert (NoDup (row_id <$> ([] : list Row))) as Hpk by apply NoDup_nil_2.
  assert (counted (1, Some "T")) as Hcounted by (repeat split; done).
  assert (individual_ids_of ex_ts ex_variant_X 1 = Ok {[0; 1; 2]}) as Hids
    by (vm_compute; reflexivity).
  split; [done|]. split; [exact reconcile_ex_ts|]. split; [done|]. split; [done|].
  eexists. split; [vm_compute; reflexivity|].
  eapply (carrier_counters_exclusive ex_regions ex_ts ex_individual_regions
            ex_individuals [] ex_sql_ids ex_rows ex_variant_X ex_store _
            1 (Some "T") {[0; 1; 2]} Hpk reconcile_ex_ts eq_refl Hcounted Hids).
  vm_compute. reflexivity.
Defined.

(** C3 on the same allele: the three carriers go from 0 to 1 in
    all_regions, the fourth individual stays at 0, and the total of
    all_regions goes from 0 to 1. *)
Lemma allele_increments_witness :
  NoDup (row_id <$> ([] : list Row)) ∧
  reconcile ex_individuals [] = Ok (ex_sql_ids, ex_rows) ∧
  counted (1, Some "T") ∧
  individual_ids_of ex_ts ex_variant_X 1 = Ok {[0; 1; 2]} ∧
  ∃ db',
    process_allele ex_regions ex_ts ex_individual_regions ex_sql_ids
      ex_variant_X ex_store (1, Some "T") = Ok db' ∧
    all_regions <$> tbl_individual db' = [1; 1; 1; 0] ∧
    tbl_num_regions db' =
      [("all_regions", 1); ("some_regions", 0); ("one_region", 0); ("one_person", 0)] ∧
    (∀ p, p ∈ ({[0; 1; 2]} : gset Z) ↔
          ∃ (n : nat) nd, genotypes ex_variant_X !! n = Some 1 ∧
                          ts_nodes ex_ts !! n = Some nd ∧ node_individual nd = p) ∧
    ∃ c,
      choose_column ex_regions ex_individual_regions {[0; 1; 2]} = Ok c ∧
      ∀ p, p ∈ ({[0; 1; 2]} : gset Z) →
        ∃ (k : nat) r r',
          ex_sql_ids !! p = Some (row_id r) ∧
          tbl_individual ex_store !! k = Some r ∧
          tbl_individual db' !! k = Some r' ∧
          counter c r' = counter c r + 1.
Proof.
  assert (NoDup (row_id <$> ([] : list Row))) as Hpk by apply NoDup_nil_2.
  assert (counted (1, Some "T")) as Hcounted by (repeat split; done).
  assert (individual_ids_of ex_ts ex_variant_X 1 = Ok {[0; 1; 2]}) as Hids
    by (vm_compute; reflexivity).
  split; [done|]. split; [exact reconcile_ex_ts|]. split; [done|]. split; [done|].
  eexists. split; [vm_compute; reflexivity|]. split; [vm_compute; reflexivity|].
  split; [vm_compute; reflexivity|].
  destruct (allele_increments ex_regions ex_ts ex_individual_regions
              ex_individuals [] ex_sql_ids ex_rows ex_variant_X ex_store _
              1 (Some "T") {[0; 1; 2]} Hpk reconcile_ex_ts eq_refl Hcounted Hids
              ltac:(vm_compute; reflexivity))
    as (Hcarriers & c & Hc & _ & Hplus & _).
  split; [exact Hcarriers|]. exists c. split; [exact Hc|exact Hplus].
Defined.

(** C5, as the specification has it, fails on [two_region_ts]: after one
    run on the initialised store both individuals have 1 in some_regions and
    the total of some_regions is 1; the second run on that store makes them
    2, and the third 3. *)
Lemma fill_twice_counts_twice :
  (let* db1 := fill ex_regions init two_region_ts in
   let* db2 := fill ex_regions db1 two_region_ts in
   let* db3 := fill ex_regions db2 two_region_ts in
   Ok (some_regions <$> tbl_individual db1, tbl_num_regions db1,
       some_regions <$> tbl_individual db2, tbl_num_regions db2,
       some_regions <$> tbl_individual db3, tbl_num_regions db3))
  = Ok ([1; 1],
        [("all_regions", 0); ("some_regions", 1); ("one_region", 0); ("one_person", 0)],
        [2; 2],
        [("all_regions", 0); ("some_regions", 2); ("one_region", 0); ("one_person", 0)],
        [3; 3],
        [("all_regions", 0); ("some_regions", 3); ("one_region", 0); ("one_person", 0)]).
Proof. vm_compute. reflexivity. Qed.

(** C5, as the code has it, on [two_region_ts]. *)
Lemma fill_again_adds_again_witness :
  ∃ db1 db2,
    fill ex_regions init two_region_ts = Ok db1 ∧
    fill ex_regions db1 two_region_ts = Ok db2 ∧
    row_identity <$> tbl_individual db2 = row_identity <$> tbl_individual db1.
Proof.
  eexists.
  destruct (fill_again_adds_again ex_regions init two_region_ts _
              ltac:(vm_compute; reflexivity)) as (db2 & Hfill & Hid & _).
  exists db2. split; [vm_compute; reflexivity|]. split; [exact Hfill|exact Hid].
Defined.

(** C6, as the specification has it, fails in two ways.  On the store
    that [two_region_ts] leaves, with the rows of s0 and h1, the dataset
    [ex_ts] has two individuals more, t2 and s3: no row is created for
    them, their ids 2 and 3 are sent nowhere, and the run raises at the
    first allele that one of them carries.  On a store that holds s0 under
    the id 7, the dataset [repeated_name_ts] has two individuals named s0:
    the id 1 is sent to 7 and the id 0 nowhere. *)
Lemma later_file_individuals_are_not_reconciled :
  (let* db1 := fill ex_regions init two_region_ts in
   let* st := resolve ex_regions ex_ts in
   let* (sql_ids, rows) := reconcile (individuals st) (tbl_individual db1) in
   Ok (name_of <$> ts_individuals ex_ts, row_identity <$> rows,
       sql_ids !! 0, sql_ids !! 1, sql_ids !! 2, sql_ids !! 3,
       result_to_option (fill ex_regions db1 ex_ts)))
  = Ok ([Some "s0"; Some "h1"; Some "t2"; Some "s3"],
        [(0, "s0", "A"); (1, "h1", "B")],
        Some 0, Some 1, None, None, None) ∧
  (let* st := resolve ex_regions repeated_name_ts in
   let* (sql_ids, rows) := reconcile (individuals st) (tbl_individual s0_store) in
   Ok (name_of <$> ts_individuals repeated_name_ts, row_identity <$> rows,
       sql_ids !! 0, sql_ids !! 1))
  = Ok ([Some "s0"; Some "s0"], [(7, "s0", "A")], None, Some 7).
Proof. split; vm_compute; reflexivity. Qed.

(** C6, as the code has it, on a store whose rows were numbered by an
    earlier file: the ids 0, 1, 2 and 3 of [ex_ts] are sent to 10, 11, 12
    and 13 by name, and the allele of site X, carried by 0, 1 and 2, adds
    one to all_regions in the rows 10, 11 and 12. *)
Lemma later_run_reconciles_by_name_witness :
  NoDup (row_id <$> tbl_individual renumbered_store) ∧
  NoDup (row_name <$> tbl_individual renumbered_store) ∧
  Forall (λ ind, is_Some (name_of ind)) (ts_individuals ex_ts) ∧
  NoDup (name_of <$> ts_individuals ex_ts) ∧
  resolve ex_regions ex_ts = Ok ex_locals ∧
  ∃ sql_ids : gmap Z Z,
    reconcile (individuals ex_locals) (tbl_individual renumbered_store) =
      Ok (sql_ids, tbl_individual renumbered_store) ∧
    sql_ids !! 0 = Some 10 ∧ sql_ids !! 1 = Some 11 ∧
    sql_ids !! 2 = Some 12 ∧ sql_ids !! 3 = Some 13 ∧
    ∃ dbc',
      process_allele ex_regions ex_ts (individual_regions ex_locals) sql_ids
        ex_variant_X renumbered_store (1, Some "T") = Ok dbc' ∧
      (λ r, (row_id r, all_regions r)) <$> tbl_individual dbc' =
        [(12, 1); (10, 1); (13, 0); (11, 1)] ∧
      ∃ c r',
        choose_column ex_regions (individual_regions ex_locals) {[0; 1; 2]}
          = Ok c ∧
        tbl_individual dbc' !! 1%nat = Some r' ∧
        row_identity r' = (10, "s0", "A") ∧
        counter c r' = counter c (new_row (10, "s0", "A")) + 1.
Proof.
  assert (NoDup (row_id <$> tbl_individual renumbered_store)) as Hpk
    by compute_done.
  assert (NoDup (row_name <$> tbl_individual renumbered_store)) as Hnames
    by compute_done.
  assert (tbl_individual renumbered_store ≠ []) as Hne by done.
  assert (Forall (λ ind, is_Some (name_of ind)) (ts_individuals ex_ts)) as Hall
    by (repeat constructor; vm_compute; by eexists).
  assert (NoDup (name_of <$> ts_individuals ex_ts)) as Hnd by compute_done.
  assert (counted (1, Some "T")) as Hcounted by (repeat split; done).
  assert (individual_ids_of ex_ts ex_variant_X 1 = Ok {[0; 1; 2]}) as Hids
    by (vm_compute; reflexivity).
  split; [done|]. split; [done|]. split; [done|]. split; [done|].
  split; [exact resolve_ex_ts|].
  eexists. split; [vm_compute; reflexivity|].
  destruct (later_run_reconciles_by_name ex_regions ex_ts ex_locals
              renumbered_store _ _ Hpk Hnames Hne Hall Hnd resolve_ex_ts
              ltac:(vm_compute; reflexivity))
    as (_ & Hmap & _ & Hupd & _).
  assert (∀ i key nm nodes r,
            (i, ex_individual key nm nodes) ∈ enumerate (ts_individuals ex_ts) →
            r ∈ tbl_individual renumbered_store →
            name_of (ex_individual key nm nodes) = Some (row_name r) →
            _ !! i = Some (row_id r)) as Hmap'
    by (intros i key nm nodes r; apply Hmap).
  split; [|split; [|split; [|split]]].
  - apply (Hmap' 0 "sgdp_id" "s0" [0; 1] (new_row (10, "s0", "A")));
      [cbn; set_solver|set_solver|vm_compute; reflexivity].
  - apply (Hmap' 1 "sample" "h1" [2; 3] (new_row (11, "h1", "B")));
      [cbn; set_solver|set_solver|vm_compute; reflexivity].
  - apply (Hmap' 2 "individual_id" "t2" [4; 5] (new_row (12, "t2", "C")));
      [cbn; set_solver|set_solver|vm_compute; reflexivity].
  - apply (Hmap' 3 "sgdp_id" "s3" [6; 7] (new_row (13, "s3", "A")));
      [cbn; set_solver|set_solver|vm_compute; reflexivity].
  - eexists. split; [vm_compute; reflexivity|]. split; [vm_compute; reflexivity|].
    destruct (Hupd ex_variant_X renumbered_store _ 1 (Some "T") {[0; 1; 2]} 0
                1%nat (new_row (10, "s0", "A")) Hcounted Hids
                ltac:(vm_compute; reflexivity) ltac:(set_solver)
                ltac:(vm_compute; reflexivity) eq_refl)
      as (c & r' & Hc & Hk & Hid & Hplus & _).
    exists c, r'. split; [exact Hc|]. split; [exact Hk|].
    split; [exact Hid|exact Hplus].
Defined.

(** C7 on [unmapped_ts]: the pair of HGDP and PX is not in the table. *)
Lemma missing_region_aborts_witness :
  ex_regions !! ("HGDP", "PX") = None ∧
  resolve ex_regions unmapped_ts = Err (KeyError_regions "HGDP" "PX") ∧
  fill ex_regions init unmapped_ts = Err (KeyError_regions "HGDP" "PX").
Proof.
  split; [done|].
  destruct (missing_region_aborts ex_regions unmapped_ts
              [(0, ex_individual "sgdp_id" "s0" [0])] 1
              (ex_individual "sample" "h1" [1]) [] _ "HGDP" "PX"
              eq_refl ltac:(vm_compute; reflexivity) eq_refl eq_refl eq_refl)
    as (_ & Hres & Hfill).
  split; [exact Hres|apply Hfill].
Defined.

(** C8 fails on [unrecognised_ts]: the metadata of the second individual
    has none of the three keys, and [fill] does not raise; it goes on with
    the source and the name of the first individual, whose entry in
    [individuals] it overwrites, and the store ends with a single row that
    has the id of the second individual under the name of the first. *)
Theorem unrecognised_metadata_is_not_refused :
  metadata_source (<["donor" := "d1"]> ∅) = None ∧
  (individuals <$> result_to_option (resolve ex_regions unrecognised_ts)) =
    Some [("s0", {| entry_id := 1; entry_name := "s0"; entry_region := "A" |})] ∧
  fill ex_regions init unrecognised_ts =
    Ok {| tbl_individual :=
            [ {| row_id := 1; row_name := "s0"; row_region := "A";
                 all_regions := 0; some_regions := 0; one_region := 0;
                 one_person := 1 |} ];
          tbl_num_regions :=
            [("all_regions", 0); ("some_regions", 0); ("one_region", 0);
             ("one_person", 1)] |}.
Proof. repeat split; vm_compute; reflexivity. Qed.

(** C10, as the specification has it, fails on [repeated_name_ts]: its
    two individuals are both named s0, the later one takes the place of the
    earlier under that name, and the first run inserts one row, with the id
    1; the id 0 is sent nowhere. *)
Lemma repeated_name_is_inserted_once :
  (let* st := resolve ex_regions repeated_name_ts in
   let* (sql_ids, rows) := reconcile (individuals st) [] in
   let* db := fill ex_regions init repeated_name_ts in
   Ok (name_of <$> ts_individuals repeated_name_ts,
       row_identity <$> rows, sql_ids !! 0, sql_ids !! 1,
       row_identity <$> tbl_individual db))
  = Ok ([Some "s0"; Some "s0"],
        [(1, "s0", "A")], None, Some 1,
        [(1, "s0", "A")]).
Proof. vm_compute. reflexivity. Qed.

(** C10, as the code has it, on [ex_ts]. *)
Lemma first_run_inserts_every_individual_witness :
  Forall (λ ind, is_Some (name_of ind)) (ts_individuals ex_ts) ∧
  NoDup (name_of <$> ts_individuals ex_ts) ∧
  resolve ex_regions ex_ts = Ok ex_locals ∧
  ∃ (sql_ids : gmap Z Z) rows,
    reconcile (individuals ex_locals) [] = Ok (sql_ids, rows) ∧
    Forall2 (λ x r, row_id r = x.1 ∧
                    name_of x.2 = Some (row_name r) ∧
                    individual_regions ex_locals !! x.1 = Some (row_region r) ∧
                    ∀ c, counter c r = 0)
            (enumerate (ts_individuals ex_ts)) rows ∧
    (∀ i ind, (i, ind) ∈ enumerate (ts_individuals ex_ts) → sql_ids !! i = Some i).
Proof.
  assert (Forall (λ ind, is_Some (name_of ind)) (ts_individuals ex_ts)) as Hall
    by (repeat constructor; by eexists).
  assert (NoDup (name_of <$> ts_individuals ex_ts)) as Hnd
    by compute_done.
  split; [done|]. split; [done|]. split; [exact resolve_ex_ts|].
  destruct (first_run_inserts_every_individual ex_regions ex_ts ex_locals
              Hall Hnd resolve_ex_ts)
    as (sql_ids & rows & Hrec & Hrows & Hids & _).
  by exists sql_ids, rows.
Defined.

(** ** When the first run succeeds *)

Lemma comprehension_succeeds {A B : Type} (f : A → result B) (l : list A) :
  (∀ a, a ∈ l → ∃ b, f a = Ok b) → ∃ bs, comprehension f l = Ok bs.
Proof.
  induction l as [|a l IH]; intros Hall; [by eexists|].
  cbn [comprehension]. destruct (Hall a) as [b ->]; [apply elem_of_cons; auto|].
  destruct IH as [bs ->]; [intros a' Ha'; apply Hall; apply elem_of_cons; auto|].
  by eexists.
Qed.

Lemma for_each_succeeds {A S : Type} (body : S → A → result S) (l : list A) :
  (∀ s a, a ∈ l → ∃ s', body s a = Ok s') → ∀ s, ∃ s', for_each body l s = Ok s'.
Proof.
  induction l as [|a l IH]; intros Hall s; [by eexists|].
  cbn [for_each]. destruct (Hall s a) as [s1 ->]; [apply elem_of_cons; auto|].
  cbn [bind]. apply IH. intros s' a' Ha'. apply Hall. apply elem_of_cons; auto.
Qed.

Section Succeeds.
Context (regions : gmap (string * string) string) (ts : TreeSequence).

Lemma process_allele_succeeds iregs (sql_ids : gmap Z Z) v db x :
  (∀ j : nat, (j < length (genotypes v))%nat →
     ∃ nd, ts_nodes ts !! j = Some nd ∧
           is_Some (iregs !! node_individual nd) ∧
           is_Some (sql_ids !! node_individual nd)) →
  ∃ db', process_allele regions ts iregs sql_ids v db x = Ok db'.
Proof.
  intros Hnodes. destruct x as [i a].
  destruct (decide (counted (i, a))) as [Hc|Hc];
    [|rewrite process_allele_not_counted by done; by eexists].
  destruct (comprehension_succeeds (node ts) (where_eq (genotypes v) i))
    as [full_nodes Hfull].
  { intros j Hj. apply where_eq_elem_of in Hj as (n & -> & Hn).
    destruct (Hnodes n) as (nd & Hnd & _); [by eapply lookup_lt_Some|].
    exists nd. by apply node_Ok. }
  assert (individual_ids_of ts v i =
            Ok (list_to_set (node_individual <$> full_nodes))) as Hids
    by (unfold individual_ids_of; by rewrite Hfull).
  set (ids := list_to_set (node_individual <$> full_nodes) : gset Z) in *.
  assert (∀ p, p ∈ ids → is_Some (iregs !! p) ∧ is_Some (sql_ids !! p)) as Hp.
  { intros p Hp.
    apply (individual_ids_of_elem_of ts v i ids p Hids) in Hp
      as (n & nd & Hn & Hnd & <-).
    destruct (Hnodes n) as (nd' & Hnd' & H1 & H2); [by eapply lookup_lt_Some|].
    rewrite Hnd in Hnd'. by injection Hnd' as <-. }
  assert (∃ c, choose_column regions iregs ids = Ok c) as [c Hcol].
  { unfold choose_column. case_decide; [by eexists|].
    unfold regions_of.
    destruct (comprehension_succeeds
                (λ id, expect KeyError_individual_regions (iregs !! id))
                (elements ids)) as [regs ->].
    { intros p Hin. apply elem_of_elements in Hin.
      destruct (Hp p Hin) as [[r ->] _]. by eexists. }
    cbn [bind]. repeat case_decide; by eexists. }
  destruct (comprehension_succeeds
              (λ id, expect KeyError_sql_ids (sql_ids !! id)) (elements ids))
    as [sids Hsids].
  { intros p Hin. apply elem_of_elements in Hin.
    destruct (Hp p Hin) as [_ [r ->]]. by eexists. }
  eexists. apply process_allele_Ok; [done|].
  exists ids, c, sids. split; [done|]. split; [done|].
  split; [|done]. by apply comprehension_expect in Hsids.
Qed.

(** The first run goes through: on a store without individuals, when the
    resolver succeeds, the individuals all have a name of their own, there is
    at least one site, and every position of every genotype array is a node
    of an individual of the tree sequence, [fill] returns a store. *)
Theorem first_run_succeeds db st :
  tbl_individual db = [] →
  resolve regions ts = Ok st →
  Forall (λ ind, is_Some (name_of ind)) (ts_individuals ts) →
  NoDup (name_of <$> ts_individuals ts) →
  ts_variants ts ≠ [] →
  (∀ v (j : nat), v ∈ ts_variants ts → (j < length (genotypes v))%nat →
     ∃ nd, ts_nodes ts !! j = Some nd ∧
           0 ≤ node_individual nd < Z.of_nat (length (ts_individuals ts))) →
  ∃ db', fill regions db ts = Ok db'.
Proof.
  intros Hempty Hres Hall Hnd Hv Hnodes.
  pose proof (resolve_resolved regions ts st Hres) as Hinv.
  pose proof (resolve_named regions ts st Hall Hnd Hres) as Hnamed.
  pose proof (reconcile_empty_Ok regions st _ Hinv) as Hrec.
  set (sql_ids := sql_ids_identity (individuals st)) in *.
  assert (∀ p, 0 ≤ p < Z.of_nat (length (ts_individuals ts)) →
               is_Some (sql_ids !! p)) as Hsql.
  { intros p Hp. unfold sql_ids. rewrite sql_ids_identity_lookup.
    rewrite decide_True; [by eexists|].
    assert (is_Some (enumerate (ts_individuals ts) !! Z.to_nat p)) as [[i ind] Hk].
    { apply lookup_lt_is_Some. unfold enumerate.
      rewrite enumerate_from_length. lia. }
    destruct (Forall2_lookup_l _ _ _ _ _ Hnamed Hk) as ([n e] & Hk' & _ & Hi).
    unfold enumerate in Hk. rewrite enumerate_from_lookup in Hk.
    destruct (ts_individuals ts !! Z.to_nat p); [|done].
    injection Hk as <- _. simpl in Hi.
    replace p with (entry_id e) by lia. apply list_elem_of_fmap_2.
    apply list_elem_of_fmap. exists (n, e). split; [done|].
    by eapply list_elem_of_lookup_2. }
  destruct (for_each_succeeds
              (process_variant regions ts (individual_regions st) sql_ids)
              (ts_variants ts)) with
    (s := {| tbl_individual :=
               new_row <$> ((λ e, (entry_id e, entry_name e, entry_region e))
                              <$> dict_values (individuals st));
             tbl_num_regions := tbl_num_regions db |})
    as [db' Hagg].
  { intros s v Hin. unfold process_variant. apply for_each_succeeds.
    intros s' x _. apply process_allele_succeeds.
    intros j Hj. destruct (Hnodes v j Hin Hj) as (nd & Hnd' & Hrange).
    exists nd. split; [done|]. split; [by apply (resolve_domain regions ts)|].
    by apply Hsql. }
  exists db'. apply fill_Ok. eexists st, sql_ids, _.
  split; [done|]. split; [by rewrite Hempty|]. split; [exact Hagg|done].
Qed.
End Succeeds.

(** ** [fetch] reads the rows as a bag *)

Lemma string_lt_sorted_unique l1 l2 :
  StronglySorted string_lt l1 → StronglySorted string_lt l2 →
  (∀ x, x ∈ l1 ↔ x ∈ l2) → l1 = l2.
Proof.
  intros Hs1. revert l2. induction Hs1 as [|a l1 Hs1 IH Ha]; intros l2 Hs2 Hsame.
  - destruct l2 as [|b l2]; [done|].
    exfalso. eapply not_elem_of_nil. apply Hsame. apply elem_of_cons; auto.
  - destruct Hs2 as [|b l2 Hs2 Hb].
    { exfalso. eapply not_elem_of_nil. apply Hsame. apply elem_of_cons; auto. }
    rewrite Forall_forall in Ha, Hb.
    assert (a = b) as <-.
    { destruct (decide (a = b)) as [|Hne]; [done|]. exfalso.
      assert (a ∈ l2) as Ha2.
      { assert (a ∈ b :: l2) as Hx by (apply Hsame; apply elem_of_cons; auto).
        by apply elem_of_cons in Hx as [?|?]. }
      assert (b ∈ l1) as Hb1.
      { assert (b ∈ a :: l1) as Hx by (apply Hsame; apply elem_of_cons; auto).
        apply elem_of_cons in Hx as [?|?]; [congruence|done]. }
      apply (string_lt_irrefl a).
      apply (string_lt_trans _ b); [by apply Ha|by apply Hb]. }
    f_equal. apply IH; [done|]. intros x. split; intros Hx.
    + assert (x ∈ a :: l2) as Hx2 by (apply Hsame; apply elem_of_cons; auto).
      apply elem_of_cons in Hx2 as [->|Hx2]; [|done].
      exfalso. apply (string_lt_irrefl a). by apply Ha.
    + assert (x ∈ a :: l1) as Hx1 by (apply Hsame; apply elem_of_cons; auto).
      apply elem_of_cons in Hx1 as [->|Hx1]; [|done].
      exfalso. apply (string_lt_irrefl a). by apply Hb.
Qed.

Lemma total_Permutation c rows rows' :
  rows ≡ₚ rows' → total c rows = total c rows'.
Proof.
  unfold total. induction 1 as [|r l l' _ IH|r1 r2 l|l1 l2 l3 _ IH1 _ IH2].
  - done.
  - rewrite !fmap_cons. cbn [foldr]. by rewrite IH.
  - rewrite !fmap_cons. cbn [foldr]. lia.
  - congruence.
Qed.

Lemma group_of_Permutation region rows rows' :
  rows ≡ₚ rows' → group_of region rows ≡ₚ group_of region rows'.
Proof. unfold group_of. by intros ->. Qed.

Lemma group_ok_unique rows rows' g g' :
  rows ≡ₚ rows' → group_region g = group_region g' →
  group_ok rows g → group_ok rows' g' → g = g'.
Proof.
  intros Hperm Hreg (_ & Hcount & Hsum) (_ & Hcount' & Hsum').
  pose proof (group_of_Permutation (group_region g) _ _ Hperm) as Hg.
  rewrite <- Hreg in Hcount', Hsum'.
  assert (group_count g = group_count g') as Hc
    by (rewrite Hcount, Hcount'; by rewrite Hg).
  assert (∀ c, group_sum c g = group_sum c g') as Hs.
  { intros c. rewrite Hsum, Hsum'. by apply total_Permutation. }
  pose proof (Hs AllRegions). pose proof (Hs SomeRegions).
  pose proof (Hs OneRegion). pose proof (Hs OnePerson).
  destruct g, g'. simpl in *. congruence.
Qed.

Lemma group_by_region_Permutation rows rows' :
  rows ≡ₚ rows' → group_by_region rows = group_by_region rows'.
Proof.
  intros Hperm.
  destruct (group_by_region_inv rows) as (Hs & Hok & Hcov).
  destruct (group_by_region_inv rows') as (Hs' & Hok' & Hcov').
  assert (∀ rs gs, Forall (group_ok rs) gs →
            (∀ r, r ∈ rs → row_region r ∈ group_region <$> gs) →
            ∀ s, s ∈ group_region <$> gs ↔ ∃ r, r ∈ rs ∧ row_region r = s)
    as Hregions.
  { intros rs gs Hgs Hc s. split.
    - intros Hin. apply list_elem_of_fmap in Hin as (g & -> & Hg).
      destruct (proj1 (Forall_forall _ _) Hgs g Hg) as (Hnil & _ & _).
      unfold group_of in Hnil.
      destruct (filter _ rs) as [|r rest] eqn:Hf; [done|].
      assert (r ∈ filter (λ r0, row_region r0 = group_region g) rs) as Hr
        by (rewrite Hf; apply elem_of_cons; auto).
      apply list_elem_of_filter in Hr as [Heq Hr]. eauto.
    - intros (r & Hr & <-). by apply Hc. }
  assert (group_region <$> group_by_region rows =
          group_region <$> group_by_region rows') as Heq.
  { apply string_lt_sorted_unique; [done..|]. intros s.
    rewrite (Hregions rows _ Hok Hcov s), (Hregions rows' _ Hok' Hcov' s).
    split; intros (r & Hr & Hreg); exists r; (split; [|done]).
    - by rewrite <- Hperm.
    - by rewrite Hperm. }
  revert Heq Hok Hok'. generalize (group_by_region rows) (group_by_region rows').
  induction l as [|g gs IH]; intros [|g' gs'] Heq Hgs Hgs'; try done.
  rewrite !fmap_cons in Heq. injection Heq as Hg Heq.
  apply Forall_cons in Hgs as [Hg1 Hgs]. apply Forall_cons in Hgs' as [Hg1' Hgs'].
  f_equal; [by eapply group_ok_unique|by apply IH].
Qed.

(** The table that [fetch] returns depends on the stored rows as a bag: the
    order in which the individuals were inserted, and so the order in which
    SQLite scans them, does not change a region or an average. *)
Theorem fetch_ignores_row_order db db' :
  tbl_individual db ≡ₚ tbl_individual db' → fetch db = fetch db'.
Proof.
  intros Hperm. unfold fetch. by rewrite (group_by_region_Permutation _ _ Hperm).
Qed.

(** ** The order of the sites *)

Lemma for_each_as_updates {A S U : Type} (body : S → A → result S)
    (g : A → result U) (act : U → S → S) (l : list A) (s : S) :
  (∀ s a, body s a = result_map (λ u, act u s) (g a)) →
  for_each body l s =
    result_map (λ us, foldl (λ s u, act u s) s us) (comprehension g l).
Proof.
  intros Hbody. revert s. induction l as [|a l IH]; intros s; [done|].
  cbn [for_each comprehension]. rewrite Hbody.
  destruct (g a) as [u|e]; cbn [result_map bind]; [|done].
  rewrite IH. by destruct (comprehension g l).
Qed.

Lemma comprehension_Permutation {A B : Type} (f : A → result B) (l l' : list A)
    (bs : list B) :
  l ≡ₚ l' → comprehension f l = Ok bs →
  ∃ bs', comprehension f l' = Ok bs' ∧ bs ≡ₚ bs'.
Proof.
  intros Hperm. revert bs.
  induction Hperm as [|a l l' _ IH|a1 a2 l|l1 l2 l3 _ IH1 _ IH2]; intros bs H.
  - injection H as <-. by exists [].
  - cbn [comprehension] in *. apply bind_Ok in H as (b & Hb & H).
    apply bind_Ok in H as (bs1 & Hbs1 & [= <-]).
    destruct (IH _ Hbs1) as (bs1' & -> & Hp). rewrite Hb. cbn.
    exists (b :: bs1'). split; [done|]. by constructor.
  - cbn [comprehension] in *. apply bind_Ok in H as (b2 & Hb2 & H).
    apply bind_Ok in H as (bs1 & H & [= <-]).
    apply bind_Ok in H as (b1 & Hb1 & H).
    apply bind_Ok in H as (bs2 & Hbs2 & [= <-]).
    rewrite Hb1, Hb2, Hbs2. cbn. eexists. split; [done|]. apply perm_swap.
  - destruct (IH1 _ H) as (bs2 & H2 & Hp2).
    destruct (IH2 _ H2) as (bs3 & H3 & Hp3).
    exists bs3. split; [done|]. by etrans.
Qed.

Lemma foldl_comm_Permutation {S U : Type} (act : U → S → S) (us us' : list U) :
  (∀ u1 u2 s, act u1 (act u2 s) = act u2 (act u1 s)) →
  us ≡ₚ us' → ∀ s, foldl (λ s u, act u s) s us = foldl (λ s u, act u s) s us'.
Proof.
  intros Hcomm. induction 1 as [|u l l' _ IH|u1 u2 l|l1 l2 l3 _ IH1 _ IH2];
    intros s; cbn [foldl].
  - done.
  - apply IH.
  - by rewrite Hcomm.
  - by rewrite IH1.
Qed.

Lemma foldl_comm_swap {S U : Type} (act : U → S → S) (us1 us2 : list U) (s : S) :
  (∀ u1 u2 s, act u1 (act u2 s) = act u2 (act u1 s)) →
  foldl (λ s u, act u s) (foldl (λ s u, act u s) s us1) us2 =
  foldl (λ s u, act u s) (foldl (λ s u, act u s) s us2) us1.
Proof.
  intros Hcomm. rewrite <- !foldl_app.
  apply foldl_comm_Permutation; [done|]. apply Permutation_app_comm.
Qed.

Lemma increment_comm c1 c2 r :
  increment c1 (increment c2 r) = increment c2 (increment c1 r).
Proof. destruct c1, c2; unfold increment; cbn; f_equal; lia. Qed.

Lemma update_individual_comm (u1 u2 : Column * Z) rows :
  update_individual u1.1 (update_individual u2.1 rows u2.2) u1.2 =
  update_individual u2.1 (update_individual u1.1 rows u1.2) u2.2.
Proof.
  unfold update_individual. rewrite <- !list_fmap_compose.
  apply list_fmap_ext. intros _ r _. unfold compose.
  destruct (decide (row_id r = u1.2)) as [H1|H1],
           (decide (row_id r = u2.2)) as [H2|H2];
    rewrite ?increment_id, ?decide_True, ?decide_False by done;
    [apply increment_comm|done..].
Qed.

Lemma update_individuals_comm c1 ids1 c2 ids2 rows :
  update_individuals c1 (update_individuals c2 rows ids2) ids1 =
  update_individuals c2 (update_individuals c1 rows ids1) ids2.
Proof.
  assert (∀ c rows ids,
            update_individuals c rows ids =
              foldl (λ rows (u : Column * Z), update_individual u.1 rows u.2)
                    rows ((λ i, (c, i)) <$> ids)) as Hfold.
  { intros c rows0 ids. unfold update_individuals. revert rows0.
    induction ids as [|i ids IH]; intros rows0; [done|].
    rewrite fmap_cons. cbn [foldl]. by rewrite IH. }
  rewrite !Hfold.
  apply (foldl_comm_swap (λ (u : Column * Z) rows, update_individual u.1 rows u.2)).
  intros u1 u2 s. apply update_individual_comm.
Qed.

Lemma update_num_regions_comm c1 c2 tbl :
  update_num_regions c1 (update_num_regions c2 tbl) =
  update_num_regions c2 (update_num_regions c1 tbl).
Proof.
  unfold update_num_regions. rewrite <- !list_fmap_compose.
  apply list_fmap_ext. intros _ [n x] _. unfold compose. cbn.
  repeat (case_decide; cbn); try done; f_equal; lia.
Qed.

Lemma apply_update_comm o1 o2 db :
  apply_update o1 (apply_update o2 db) = apply_update o2 (apply_update o1 db).
Proof.
  destruct o1 as [[c1 ids1]|], o2 as [[c2 ids2]|]; try done.
  unfold apply_update. cbn [tbl_individual tbl_num_regions fst snd].
  by rewrite update_individuals_comm, update_num_regions_comm.
Qed.

Section SiteOrder.
Context (regions : gmap (string * string) string) (ts : TreeSequence)
        (iregs : gmap Z string) (sql_ids : gmap Z Z).

Lemma process_allele_as_update v db x :
  process_allele regions ts iregs sql_ids v db x =
    result_map (λ o, apply_update o db)
               (allele_update regions ts iregs sql_ids v x).
Proof.
  destruct x as [i a]. unfold process_allele, allele_update. cbn [fst snd].
  destruct (bool_decide (i = 0) || not_allele a); [done|].
  destruct (individual_ids_of ts v i) as [ids|e]; [|done]. cbn [bind].
  destruct (choose_column regions iregs ids) as [c|e]; [|done]. cbn [bind].
  by destruct (comprehension _ (elements ids)).
Qed.

Lemma process_variant_as_updates db v :
  process_variant regions ts iregs sql_ids db v =
    result_map (λ os, foldl (λ s o, apply_update o s) db os)
               (variant_updates regions ts iregs sql_ids v).
Proof.
  unfold process_variant, variant_updates. apply for_each_as_updates.
  intros s x. apply process_allele_as_update.
Qed.

Lemma sites_in_any_order vs vs' db db' :
  vs ≡ₚ vs' →
  for_each (process_variant regions ts iregs sql_ids) vs db = Ok db' →
  for_each (process_variant regions ts iregs sql_ids) vs' db = Ok db'.
Proof.
  intros Hperm.
  rewrite !(for_each_as_updates _ (variant_updates regions ts iregs sql_ids)
              (λ os s, foldl (λ s o, apply_update o s) s os))
    by (intros; apply process_variant_as_updates).
  destruct (comprehension _ vs) as [uss|e] eqn:Huss; [|done].
  destruct (comprehension_Permutation _ _ _ _ Hperm Huss) as (uss' & -> & Hp).
  cbn [result_map]. intros [= <-]. f_equal. symmetry.
  apply (foldl_comm_Permutation
           (λ os s, foldl (λ s o, apply_update o s) s os)); [|done].
  intros os1 os2 s. apply (foldl_comm_swap (λ o s, apply_update o s)).
  intros o1 o2 s'. apply apply_update_comm.
Qed.
End SiteOrder.

(** The store that [fill] commits does not depend on the order of the
    sites: a tree sequence with the same individuals, nodes and populations
    and the same sites in another order gives the same store. *)
Theorem fill_ignores_site_order regions db ts vs' db' :
  ts_variants ts ≡ₚ vs' →
  fill regions db ts = Ok db' →
  fill regions db (with_variants ts vs') = Ok db'.
Proof.
  intros Hperm Hfill.
  apply fill_Ok in Hfill as (st & sql_ids & rows & Hres & Hrec & Hagg & Hv).
  apply fill_Ok. exists st, sql_ids, rows.
  split; [exact Hres|]. split; [done|]. split.
  - unfold aggregate in *. cbn [ts_variants with_variants].
    by apply (sites_in_any_order regions ts _ _ (ts_variants ts)).
  - cbn [ts_variants with_variants]. intros ->.
    apply Permutation_nil_r in Hperm. done.
Qed.

(** ** A run of the driver over the chromosome files *)

Lemma row_identity_new_row e : row_identity (new_row e) = e.
Proof. by destruct e as [[i n] r]. Qed.

Lemma dict_set_not_nil {K V : Type} `{EqDecision K} (k : K) (v : V) d :
  dict_set k v d ≠ [].
Proof. destruct d as [|[k' v'] d]; cbn; [done|]. by case_decide. Qed.

Lemma resolve_not_nil regions ts st :
  ts_individuals ts ≠ [] → resolve regions ts = Ok st → individuals st ≠ [].
Proof.
  unfold resolve, enumerate. generalize 0 as k. generalize locals0 as s.
  induction (ts_individuals ts) as [|ind l IH]; intros s k Hne H; [done|].
  cbn [enumerate_from for_each] in H. apply bind_Ok in H as (s1 & Hstep & H).
  apply resolve_individual_Ok in Hstep as (src & nm & pn & region & _ & _ & _ & ->).
  destruct l as [|ind' l].
  - injection H as <-. cbn [individuals]. apply dict_set_not_nil.
  - by apply (IH _ _ ltac:(done) H).
Qed.

Lemma fill_identity regions db ts db' :
  fill regions db ts = Ok db' →
  ∃ st, resolve regions ts = Ok st ∧
    row_identity <$> tbl_individual db' =
      match tbl_individual db with
      | [] => (λ e, (entry_id e, entry_name e, entry_region e))
                <$> dict_values (individuals st)
      | _ :: _ => row_identity <$> tbl_individual db
      end.
Proof.
  intros Hfill.
  apply fill_Ok in Hfill as (st & sql_ids & rows & Hres & Hrec & Hagg & _).
  exists st. split; [done|].
  apply aggregate_identity in Hagg as [-> _]. cbn [tbl_individual].
  destruct (tbl_individual db) as [|row rows0].
  - rewrite (reconcile_empty_Ok regions st _ (resolve_resolved _ _ _ Hres)) in Hrec.
    injection Hrec as _ <-. rewrite <- list_fmap_compose.
    rewrite <- (list_fmap_id (_ <$> dict_values _)) at 2.
    apply list_fmap_ext. intros _ e _. apply row_identity_new_row.
  - cbn [reconcile] in Hrec. apply bind_Ok in Hrec as (m & _ & [= _ <-]). done.
Qed.

Lemma fill_total regions db ts db' :
  totals_complete (tbl_num_regions db) →
  fill regions db ts = Ok db' →
  totals_complete (tbl_num_regions db') ∧
  foldr Z.add 0 (tbl_num_regions db').*2 =
    foldr Z.add 0 (tbl_num_regions db).*2 + counted_alleles ts.
Proof.
  intros Hc Hfill.
  apply fill_Ok in Hfill as (st & sql_ids & rows & _ & _ & Hagg & _).
  by apply aggregate_total in Hagg.
Qed.

Lemma variant_count_complete db :
  totals_complete (tbl_num_regions db) →
  variant_count db = Some (foldr Z.add 0 (tbl_num_regions db).*2).
Proof.
  intros [_ Hall]. unfold variant_count.
  destruct (tbl_num_regions db) eqn:Ht; [|done].
  specialize (Hall AllRegions). by apply elem_of_nil in Hall.
Qed.

Lemma later_files regions files db db' :
  tbl_individual db ≠ [] →
  totals_complete (tbl_num_regions db) →
  for_each (fill regions) files db = Ok db' →
  row_identity <$> tbl_individual db' = row_identity <$> tbl_individual db ∧
  totals_complete (tbl_num_regions db') ∧
  foldr Z.add 0 (tbl_num_regions db').*2 =
    foldr Z.add 0 (tbl_num_regions db).*2 +
    foldr Z.add 0 (counted_alleles <$> files).
Proof.
  revert db. induction files as [|ts files IH]; intros db Hne Hc H.
  - injection H as <-. cbn. split; [done|]. split; [done|lia].
  - cbn [for_each] in H. apply bind_Ok in H as (db1 & Hfill & H).
    destruct (fill_identity _ _ _ _ Hfill) as (st & _ & Hid).
    destruct (fill_total _ _ _ _ Hc Hfill) as [Hc1 Ht1].
    destruct (tbl_individual db) as [|row rows] eqn:Hrows; [done|].
    apply IH in H as (Hid' & Hc' & Ht'); [| |done].
    + rewrite Hid', Hid. split; [done|]. split; [done|].
      rewrite Ht', Ht1, fmap_cons. cbn [foldr]. lia.
    + intros Hnil. rewrite Hnil in Hid. done.
Qed.

Lemma resolve_named_entries regions ts st :
  Forall (λ ind, is_Some (name_of ind)) (ts_individuals ts) →
  NoDup (name_of <$> ts_individuals ts) →
  resolve regions ts = Ok st →
  Forall2 (λ x (t : Z * string * string),
             t.1.1 = x.1 ∧ name_of x.2 = Some t.1.2 ∧
             individual_regions st !! x.1 = Some t.2)
          (enumerate (ts_individuals ts))
          ((λ e, (entry_id e, entry_name e, entry_region e))
             <$> dict_values (individuals st)).
Proof.
  intros Hall Hnd Hres.
  pose proof (resolve_resolved regions ts st Hres) as Hinv.
  pose proof (resolve_named regions ts st Hall Hnd Hres) as Hnamed.
  unfold dict_values. rewrite <- list_fmap_compose.
  apply Forall2_fmap_r.
  apply Forall2_same_length_lookup_2; [by eapply Forall2_length|].
  intros k [i ind] [n e] Hk Hk'.
  destruct (Forall2_lookup_lr _ _ _ _ _ _ Hnamed Hk Hk') as [Hn Hi].
  apply list_elem_of_lookup_2 in Hk'.
  destruct (resolved_entries _ _ _ Hinv n e Hk') as (Hname & Hreg & _).
  simpl in *. unfold compose. cbn.
  split; [done|]. split; congruence.
Qed.

(** A run of the driver that initialises the database and fills it from
    the chromosome files, the individuals of the first of which all have a
    name of their own, leaves in the table of individuals one row for each
    individual of the first file, in their order, with the id that the
    individual has in that file, its name and its region, whatever the
    database held before and whatever individuals the later files have;
    the number of variants that [draw] prints is the number of alleles,
    over all the files, that are neither the first of their site nor
    empty. *)
Theorem main_keeps_the_individuals_of_the_first_file
    regions commands ts files db db' :
  selected commands Init → selected commands Fill →
  ts_individuals ts ≠ [] →
  Forall (λ ind, is_Some (name_of ind)) (ts_individuals ts) →
  NoDup (name_of <$> ts_individuals ts) →
  main regions commands (ts :: files) db = Ok db' →
  ∃ st, resolve regions ts = Ok st ∧
    Forall2 (λ x r, row_id r = x.1 ∧
                    name_of x.2 = Some (row_name r) ∧
                    individual_regions st !! x.1 = Some (row_region r))
            (enumerate (ts_individuals ts)) (tbl_individual db') ∧
    variant_count db' =
      Some (foldr Z.add 0 (counted_alleles <$> ts :: files)).
Proof.
  intros Hinit Hfill Hne Hall Hnd. unfold main.
  destruct (selected commands Init); [|done].
  destruct (selected commands Fill); [|done].
  cbn [for_each]. intros H. apply bind_Ok in H as (db1 & H1 & H).
  destruct (fill_identity _ _ _ _ H1) as (st & Hres & Hid).
  destruct (fill_total _ _ _ _ totals_complete_init H1) as [Hc1 Ht1].
  cbn [tbl_individual init] in Hid.
  assert (tbl_individual db1 ≠ []) as Hne1.
  { intros Hnil. rewrite Hnil in Hid. symmetry in Hid.
    apply fmap_nil_inv in Hid. unfold dict_values in Hid.
    apply fmap_nil_inv in Hid. by apply (resolve_not_nil _ _ _ Hne Hres). }
  change (λ db0 ts0, fill regions db0 ts0) with (fill regions) in H.
  apply later_files in H as (Hid' & Hc' & Ht'); [|done..].
  exists st. split; [done|]. split.
  - pose proof (resolve_named_entries _ _ _ Hall Hnd Hres) as Hrows.
    rewrite <- Hid, <- Hid' in Hrows. by apply Forall2_fmap_r in Hrows.
  - rewrite variant_count_complete by done. f_equal.
    rewrite Ht', Ht1, fmap_cons. cbn. lia.
Qed.

(** * The further properties at work on the small datasets *)

(** The resolver on [ex_ts], which has four individuals. *)
Lemma resolve_covers_the_individuals_witness :
  resolve ex_regions ex_ts = Ok ex_locals ∧
  (∀ i, is_Some (individual_regions ex_locals !! i) ↔ 0 ≤ i < 4) ∧
  (∀ i r, individual_regions ex_locals !! i = Some r →
          ∃ key, ex_regions !! key = Some r) ∧
  (∀ n e, (n, e) ∈ individuals ex_locals → 0 ≤ entry_id e < 4).
Proof.
  split; [exact resolve_ex_ts|].
  exact (resolve_covers_the_individuals ex_regions ex_ts ex_locals resolve_ex_ts).
Defined.

(** The allele of [orphan_ts] is carried by a node of no individual. *)
Lemma carrier_without_individual_aborts_witness :
  individual_ids_of orphan_ts
    {| alleles := [Some "A"; Some "T"]; genotypes := [0; 1] |} 1 = Ok {[-1]} ∧
  ∃ e, fill ex_regions init orphan_ts = Err e.
Proof.
  split; [vm_compute; reflexivity|].
  apply (carrier_without_individual_aborts ex_regions orphan_ts
           {| alleles := [Some "A"; Some "T"]; genotypes := [0; 1] |}
           1 (Some "T") {[-1]} (-1)).
  - cbn. set_solver.
  - cbn. set_solver.
  - repeat split; done.
  - vm_compute. reflexivity.
  - set_solver.
  - cbn. lia.
Defined.

(** [ex_ts] without its sites. *)
Lemma fill_without_variants_raises_witness :
  ts_variants (with_variants ex_ts []) = [] ∧
  fill ex_regions init (with_variants ex_ts []) = Err UnboundLocalError_vnum.
Proof.
  split; [done|].
  refine (proj2 (fill_without_variants_raises ex_regions (with_variants ex_ts [])
                   init eq_refl) ex_locals (ex_sql_ids, ex_rows) _ _);
    vm_compute; reflexivity.
Defined.

(** [two_region_ts] on a store that has a row named zz. *)
Lemma stored_name_missing_from_dataset_raises_witness :
  fill ex_regions stale_store two_region_ts = Err (KeyError_individuals "zz").
Proof.
  refine (proj2 (stored_name_missing_from_dataset_raises ex_regions two_region_ts
                   _ stale_store [new_row (0, "s0", "A")] (new_row (5, "zz", "A")) []
                   ltac:(vm_compute; reflexivity) eq_refl _ _)).
  - intros r Hr. apply list_elem_of_singleton in Hr as ->. vm_compute. by eexists.
  - vm_compute. reflexivity.
Defined.

(** A run of [two_region_ts] on the initialised store. *)
Lemma fill_never_decreases_witness :
  ∃ db',
    fill ex_regions init two_region_ts = Ok db' ∧
    (∀ (k : nat) n x, tbl_num_regions init !! k = Some (n, x) →
       ∃ x', tbl_num_regions db' !! k = Some (n, x') ∧ x ≤ x') ∧
    (∀ r' c, r' ∈ tbl_individual db' → 0 ≤ counter c r').
Proof.
  eexists. split; [vm_compute; reflexivity|].
  destruct (fill_never_decreases ex_regions two_region_ts init _
              ltac:(vm_compute; reflexivity)) as (_ & Htot & Hpos).
  split; [exact Htot|]. exact (Hpos eq_refl).
Defined.

(** [ex_ts] has four counted alleles: Z has two that are skipped. *)
Lemma variant_count_counts_alleles_witness :
  totals_complete (tbl_num_regions init) ∧
  ∃ db',
    fill ex_regions init ex_ts = Ok db' ∧
    variant_count init = Some 0 ∧ variant_count db' = Some 4.
Proof.
  split; [exact totals_complete_init|].
  eexists. split; [vm_compute; reflexivity|].
  destruct (variant_count_counts_alleles ex_regions ex_ts init _
              totals_complete_init ltac:(vm_compute; reflexivity))
    as (_ & n & Hn & Hn').
  injection Hn as <-. split; [done|]. exact Hn'.
Defined.

(** The first run on [two_region_ts]. *)
Lemma first_run_succeeds_witness :
  ∃ db', fill ex_regions init two_region_ts = Ok db'.
Proof.
  apply (first_run_succeeds ex_regions two_region_ts init
           _ eq_refl ltac:(vm_compute; reflexivity)).
  - repeat constructor; vm_compute; by eexists.
  - by compute_done.
  - done.
  - intros v j Hv Hj. apply list_elem_of_singleton in Hv as ->.
    destruct j as [|[|j]]; [| |cbn in Hj; lia];
      (eexists; split; [reflexivity|cbn; lia]).
Defined.

(** The two rows of [east_store] in either order. *)
Lemma fetch_ignores_row_order_witness :
  fetch east_store = fetch east_store_swapped.
Proof.
  apply fetch_ignores_row_order. apply perm_swap.
Defined.

(** The sites X and Y of [ex_ts] exchanged. *)
Lemma fill_ignores_site_order_witness :
  ∃ db',
    fill ex_regions init ex_ts = Ok db' ∧
    fill ex_regions init
      (with_variants ex_ts [ex_variant_Y; ex_variant_X; ex_variant_Z; ex_variant_W])
    = Ok db'.
Proof.
  eexists. split; [vm_compute; reflexivity|].
  apply (fill_ignores_site_order ex_regions init ex_ts).
  - apply perm_swap.
  - vm_compute. reflexivity.
Defined.

(** The whole pipeline over two files with the individuals of [ex_ts]: the
    second has the site W only. *)
Lemma main_keeps_the_individuals_of_the_first_file_witness :
  ∃ db',
    main ex_regions [All] [ex_ts; with_variants ex_ts [ex_variant_W]] east_store
      = Ok db' ∧
    row_identity <$> tbl_individual db' =
      [(0, "s0", "A"); (1, "h1", "B"); (2, "t2", "C"); (3, "s3", "A")] ∧
    Forall2 (λ x r, row_id r = x.1 ∧
                    name_of x.2 = Some (row_name r) ∧
                    individual_regions ex_locals !! x.1 = Some (row_region r))
            (enumerate (ts_individuals ex_ts)) (tbl_individual db') ∧
    variant_count db' = Some 5.
Proof.
  eexists. split; [vm_compute; reflexivity|]. split; [vm_compute; reflexivity|].
  destruct (main_keeps_the_individuals_of_the_first_file ex_regions [All] ex_ts
              [with_variants ex_ts [ex_variant_W]] east_store _
              ltac:(done) ltac:(done) ltac:(done)
              ltac:(repeat constructor; vm_compute; by eexists)
              ltac:(by compute_done)
              ltac:(vm_compute; reflexivity))
    as (st & Hres & Hrows & Hcount).
  rewrite resolve_ex_ts in Hres. injection Hres as <-.
  split; [exact Hrows|exact Hcount].
Defined.
